(** * youtube-downloader-api: format resolution, download orchestration, job store

  A shallow embedding of [server/storage.ts] (the in-memory job store) and of
  the route module (the format resolver of [POST /api/video-info] and the two
  background orchestrators [startDownload] and [startMuxDownload]), followed
  by the properties of the specification that were checked against it.

  Conventions of the embedding.
  - JavaScript numbers that hold byte counts, bitrates and itags are integers
    ([Z]): such a Number holds its integer exactly. The arithmetic that
    computes a progress from them is the arithmetic of IEEE-754 doubles:
    every [+], [*] and [/] is the exact rational result rounded to the
    nearest double, ties to even ([JS.rnd]); a Number that is not finite
    ([NaN], [Infinity], [-Infinity]) is [JS.NotFinite]. [Math.round x] is
    [floor (x + 1/2)] on the value of the double.
  - The [progress] column holds what a client of the API reads: JSON has no
    [NaN] and no [Infinity] and renders them as [null], so a progress that
    is not a finite Number is stored as [None].
  - An optional or nullable property is an [option]; [x || d] is written out
    with the truthiness of the value ([undefined], [null], the empty string
    and [0] are falsy).
  - The job store is a finite map from ids to records, the file system is
    the finite set of paths that exist.
  - [Array.prototype.sort] is stable; it is modelled by a stable insertion
    sort driven by the same comparator. *)

From Stdlib Require Import ZArith QArith Qround Qabs Qpower Lqa Permutation Sorted Ascii.
From stdpp Require Import gmap strings list pretty.

Open Scope Z_scope.

(* ===================================================================== *)
(** * Part I: the embedding                                               *)
(* ===================================================================== *)

(** ** JavaScript primitives used by the sources *)
Module JS.

(** [Math.round] on the value of a finite Number: the nearest integer,
    halves rounded towards +infinity. *)
Definition Math_round (x : Q) : Z := Qfloor (Qplus x (1 # 2)).

(** [Math.round(n / (1024 * 1024))] on an integer byte count; the division
    by a power of two is exact. *)
Definition megabytes (n : Z) : Z :=
  Math_round (Qdiv (inject_Z n) (inject_Z (1024 * 1024))).

(** A Number is an IEEE-754 double. A finite one is given by its value;
    [NotFinite] stands for [NaN], [Infinity] and [-Infinity] together, which
    is sound for the operations below: a sum or a product with an operand
    that is not finite is not finite, and so is a quotient whose dividend is
    not finite or whose divisor is zero. (The sign of a zero is not kept; it
    shows in no result that the sources store.) *)
Inductive Number :=
| Finite (value : Q)
| NotFinite.

(** [2^e]. *)
Definition two (e : Z) : Q := (2 ^ e)%Q.

(** The binade of a positive value [x]: the [e] with [2^e <= x < 2^(e+1)]. *)
Definition binade (x : Q) : Z :=
  let l := Z.log2 (Qnum x) - Z.log2 (Zpos (Qden x)) in
  if Qle_bool (two l) x then l else l - 1.

(** The nearest integer, a tie going to the even one. *)
Definition roundHalfEven (t : Q) : Z :=
  let f := Qfloor t in
  match (t - inject_Z f ?= 1 # 2)%Q with
  | Lt => f
  | Gt => f + 1
  | Eq => if Z.even f then f else f + 1
  end.

(** The exponent of the last bit of a double near [x]: 53 bits of mantissa,
    and no exponent below that of the subnormal numbers. *)
Definition ulp (x : Q) : Z := Z.max (binade (Qabs x) - 52) (-1074).

(** Rounding to nearest, ties to even, before the range is checked. *)
Definition nearest (x : Q) : Q :=
  (inject_Z (roundHalfEven (x / two (ulp x))) * two (ulp x))%Q.

(** The Number that an operation with exact result [x] returns; a result
    that rounds to [2^1024] or beyond is an infinity. *)
Definition rnd (x : Q) : Number :=
  let y := nearest x in
  if Qle_bool (two 1024) (Qabs y) then NotFinite else Finite (Qred y).

(** The values of the doubles, the bound on the exponent left aside. *)
Definition representable (b : Q) : Prop :=
  exists m e, - 2 ^ 53 <= m <= 2 ^ 53 /\ -1074 <= e /\ (b == inject_Z m * two e)%Q.

(** An integer that a Number holds exactly: the byte counts and the integer
    literals of the sources. *)
Definition num (z : Z) : Number := Finite (inject_Z z).

(** A decimal literal of the sources: the double nearest to it. *)
Definition literal (q : Q) : Number := rnd q.

(** [x + y] and [x * y]. *)
Definition add (x y : Number) : Number :=
  match x, y with
  | Finite a, Finite b => rnd (a + b)
  | _, _ => NotFinite
  end.

Definition mul (x y : Number) : Number :=
  match x, y with
  | Finite a, Finite b => rnd (a * b)
  | _, _ => NotFinite
  end.

(** [x / y] for a finite divisor [y]. *)
Definition div (x : Number) (y : Q) : Number :=
  match x with
  | Finite a => if Qeq_bool y 0 then NotFinite else rnd (a / y)
  | NotFinite => NotFinite
  end.

(** [Math.round(x)] as it is read back: the integer, or nothing when the
    Number is not finite. *)
Definition rounded (x : Number) : option Z :=
  match x with
  | Finite a => Some (Math_round a)
  | NotFinite => None
  end.

(** A finite Number between two integers. *)
Definition within (lo hi : Z) (n : Number) : Prop :=
  exists y, n = Finite y /\ (inject_Z lo <= y)%Q /\ (y <= inject_Z hi)%Q.

(** The template literal [`${Math.round(n / (1024 * 1024))} MB`]. *)
Definition mbLabel (n : Z) : string := pretty (megabytes n) +:+ " MB".

(** [n.toString()] on an integer. *)
Definition toString (n : Z) : string := pretty n.

(** Truthiness of an optional string. *)
Definition truthy (o : option string) : bool :=
  match o with
  | Some s => negb (String.eqb s "")
  | None => false
  end.

(** [o || d] on an optional string. *)
Definition orString (o : option string) (d : string) : string :=
  match o with
  | Some s => if String.eqb s "" then d else s
  | None => d
  end.

(** [o || null] on an optional string. *)
Definition orNull (o : option string) : option string :=
  match o with
  | Some s => if String.eqb s "" then None else Some s
  | None => None
  end.

(** [o || d] on an optional number. *)
Definition orNum (o : option Z) (d : Z) : Z :=
  match o with
  | Some n => if Z.eqb n 0 then d else n
  | None => d
  end.

(** [o || 0] on an optional finite Number, given by its value. *)
Definition orZeroQ (o : option Q) : Q :=
  match o with
  | Some q => q
  | None => 0%Q
  end.

(** [o === s] for an optional string against a literal. *)
Definition isStr (o : option string) (s : string) : bool :=
  match o with
  | Some t => String.eqb t s
  | None => false
  end.

(** [s.startsWith(p)]. *)
Definition startsWith (s p : string) : bool := String.prefix p s.

(** [s.includes(sub)]. *)
Definition includes (s sub : string) : bool :=
  match String.index 0 sub s with
  | Some _ => true
  | None => false
  end.

(** [arr.includes(x)] on an array of strings. *)
Definition arrayIncludes (arr : list string) (x : string) : bool :=
  existsb (String.eqb x) arr.

(** [Array.from(new Set(arr))]: first occurrences, in insertion order. *)
Fixpoint fromSet (arr : list string) : list string :=
  match arr with
  | [] => []
  | x :: rest => x :: List.filter (fun y => negb (String.eqb y x)) (fromSet rest)
  end.

Section Sort.
Context {A : Type} (cmp : A -> A -> Z).

(** Insertion of [x], which preceded every element of [l] in the input:
    [x] moves right only past elements that must come strictly before it. *)
Fixpoint insertSorted (x : A) (l : list A) : list A :=
  match l with
  | [] => [x]
  | y :: rest =>
      if 0 <? cmp x y then y :: insertSorted x rest else x :: y :: rest
  end.

(** [arr.sort(cmp)], stable. *)
Fixpoint sort (l : list A) : list A :=
  match l with
  | [] => []
  | x :: rest => insertSorted x (sort rest)
  end.
End Sort.

(** [path.join(dir, name)]. *)
Definition pathJoin (dir name : string) : string := dir +:+ "/" +:+ name.

End JS.

(** ** shared/schema.ts: the [downloads] table *)
Module Schema.

(** [Download = typeof downloads.$inferSelect]. Timestamps are milliseconds. *)
Record Download := mkDownload {
  id : string;
  videoId : string;
  title : string;
  thumbnail : option string;
  duration : option string;
  views : option string;
  author : option string;
  quality : string;
  format : string;
  status : string;
  progress : option Z;
  filePath : option string;
  fileSize : option string;
  itag : option string;
  downloadMethod : string;
  videoItag : option string;
  audioItag : option string;
  createdAt : option Z;
  updatedAt : option Z
}.

(** [InsertDownload]: the table's columns without [id], [createdAt] and
    [updatedAt]; nullable columns are optional. *)
Record InsertDownload := mkInsertDownload {
  i_videoId : string;
  i_title : string;
  i_thumbnail : option string;
  i_duration : option string;
  i_views : option string;
  i_author : option string;
  i_quality : string;
  i_format : string;
  i_status : string;
  i_progress : option Z;
  i_filePath : option string;
  i_fileSize : option string;
  i_itag : option string;
  i_downloadMethod : string;
  i_videoItag : option string;
  i_audioItag : option string
}.

(** [Partial<Download>]: every property may be missing ([None]); a property
    that is present carries a value of the column's type. *)
Record PartialDownload := mkPartial {
  p_id : option string;
  p_videoId : option string;
  p_title : option string;
  p_thumbnail : option (option string);
  p_duration : option (option string);
  p_views : option (option string);
  p_author : option (option string);
  p_quality : option string;
  p_format : option string;
  p_status : option string;
  p_progress : option (option Z);
  p_filePath : option (option string);
  p_fileSize : option (option string);
  p_itag : option (option string);
  p_downloadMethod : option string;
  p_videoItag : option (option string);
  p_audioItag : option (option string);
  p_createdAt : option (option Z);
  p_updatedAt : option (option Z)
}.

(** The object literal [{}]. *)
Definition noUpdates : PartialDownload :=
  mkPartial None None None None None None None None None None
            None None None None None None None None None.

(** The columns, and a uniform view of a record's properties. *)
Inductive Field :=
| F_id | F_videoId | F_title | F_thumbnail | F_duration | F_views | F_author
| F_quality | F_format | F_status | F_progress | F_filePath | F_fileSize
| F_itag | F_downloadMethod | F_videoItag | F_audioItag | F_createdAt
| F_updatedAt.

Inductive Value :=
| VText (s : string)
| VNullText (o : option string)
| VNullInt (o : option Z)
| VNullDate (o : option Z).

Definition getField (f : Field) (d : Download) : Value :=
  match f with
  | F_id => VText (id d)
  | F_videoId => VText (videoId d)
  | F_title => VText (title d)
  | F_thumbnail => VNullText (thumbnail d)
  | F_duration => VNullText (duration d)
  | F_views => VNullText (views d)
  | F_author => VNullText (author d)
  | F_quality => VText (quality d)
  | F_format => VText (format d)
  | F_status => VText (status d)
  | F_progress => VNullInt (progress d)
  | F_filePath => VNullText (filePath d)
  | F_fileSize => VNullText (fileSize d)
  | F_itag => VNullText (itag d)
  | F_downloadMethod => VText (downloadMethod d)
  | F_videoItag => VNullText (videoItag d)
  | F_audioItag => VNullText (audioItag d)
  | F_createdAt => VNullDate (createdAt d)
  | F_updatedAt => VNullDate (updatedAt d)
  end.

(** [f in updates]. *)
Definition hasKey (f : Field) (u : PartialDownload) : bool :=
  match f with
  | F_id => bool_decide (is_Some (p_id u))
  | F_videoId => bool_decide (is_Some (p_videoId u))
  | F_title => bool_decide (is_Some (p_title u))
  | F_thumbnail => bool_decide (is_Some (p_thumbnail u))
  | F_duration => bool_decide (is_Some (p_duration u))
  | F_views => bool_decide (is_Some (p_views u))
  | F_author => bool_decide (is_Some (p_author u))
  | F_quality => bool_decide (is_Some (p_quality u))
  | F_format => bool_decide (is_Some (p_format u))
  | F_status => bool_decide (is_Some (p_status u))
  | F_progress => bool_decide (is_Some (p_progress u))
  | F_filePath => bool_decide (is_Some (p_filePath u))
  | F_fileSize => bool_decide (is_Some (p_fileSize u))
  | F_itag => bool_decide (is_Some (p_itag u))
  | F_downloadMethod => bool_decide (is_Some (p_downloadMethod u))
  | F_videoItag => bool_decide (is_Some (p_videoItag u))
  | F_audioItag => bool_decide (is_Some (p_audioItag u))
  | F_createdAt => bool_decide (is_Some (p_createdAt u))
  | F_updatedAt => bool_decide (is_Some (p_updatedAt u))
  end.

End Schema.

(** ** server/storage.ts: [MemStorage], download methods *)
Module Storage.
Import Schema.

(** The private [downloads] map. *)
Abbreviation Store := (gmap string Download).

(** [createDownload]; [uuid] is the result of [randomUUID()] and [now] the
    value of [new Date()]. *)
Definition createDownload (uuid : string) (now : Z) (ins : InsertDownload)
    (store : Store) : Download * Store :=
  let download :=
    {| id := uuid;
       videoId := i_videoId ins;
       title := i_title ins;
       thumbnail := JS.orNull (i_thumbnail ins);
       duration := JS.orNull (i_duration ins);
       views := JS.orNull (i_views ins);
       author := JS.orNull (i_author ins);
       quality := i_quality ins;
       format := i_format ins;
       status := i_status ins;
       progress := i_progress ins;
       filePath := JS.orNull (i_filePath ins);
       fileSize := JS.orNull (i_fileSize ins);
       itag := JS.orNull (i_itag ins);
       downloadMethod := i_downloadMethod ins;
       videoItag := i_videoItag ins;
       audioItag := i_audioItag ins;
       createdAt := Some now;
       updatedAt := Some now |} in
  (download, <[uuid := download]> store).

Definition getDownload (key : string) (store : Store) : option Download :=
  store !! key.

(** The object literal [{ ...existing, ...updates, updatedAt: new Date() }]:
    a property of [updates] wins over the one of [existing], and
    [updatedAt], written last, wins over both. *)
Definition spread (existing : Download) (updates : PartialDownload) (now : Z)
    : Download :=
  {| id := default (id existing) (p_id updates);
     videoId := default (videoId existing) (p_videoId updates);
     title := default (title existing) (p_title updates);
     thumbnail := default (thumbnail existing) (p_thumbnail updates);
     duration := default (duration existing) (p_duration updates);
     views := default (views existing) (p_views updates);
     author := default (author existing) (p_author updates);
     quality := default (quality existing) (p_quality updates);
     format := default (format existing) (p_format updates);
     status := default (status existing) (p_status updates);
     progress := default (progress existing) (p_progress updates);
     filePath := default (filePath existing) (p_filePath updates);
     fileSize := default (fileSize existing) (p_fileSize updates);
     itag := default (itag existing) (p_itag updates);
     downloadMethod := default (downloadMethod existing) (p_downloadMethod updates);
     videoItag := default (videoItag existing) (p_videoItag updates);
     audioItag := default (audioItag existing) (p_audioItag updates);
     createdAt := default (createdAt existing) (p_createdAt updates);
     updatedAt := Some now |}.

(** [updateDownload]: the returned record (or [None] for [undefined]) and
    the map afterwards. *)
Definition updateDownload (now : Z) (key : string) (updates : PartialDownload)
    (store : Store) : option Download * Store :=
  match store !! key with
  | None => (None, store)
  | Some existing =>
      let updated := spread existing updates now in
      (Some updated, <[key := updated]> store)
  end.

(** [deleteDownload]: [Map.prototype.delete] reports whether the key was there. *)
Definition deleteDownload (key : string) (store : Store) : bool * Store :=
  (bool_decide (is_Some (store !! key)), delete key store).

Definition clearDownloads (store : Store) : Store := ∅.

End Storage.

(** ** The stream catalogue: the format descriptors of [ytdl.getInfo] *)
Module Ytdl.

(** The properties of a [videoFormat] that the routes read. [contentLength]
    is the integer that [parseInt] reads from the decimal string of the
    catalogue; a missing length is [None]. *)
Record videoFormat := mkFormat {
  itag : Z;
  container : option string;
  videoCodec : option string;
  audioCodec : option string;
  qualityLabel : option string;
  hasVideo : bool;
  hasAudio : bool;
  audioBitrate : option Z;
  contentLength : option Z
}.

End Ytdl.

(** ** [POST /api/video-info]: the format resolver *)
Module Resolver.
Import Ytdl.

Inductive MediaType := video | audio.
Inductive DownloadMethod := progressive | mux.

(** One entry of the [formats] array of the response. *)
Record FormatOption := mkOption {
  o_itag : option string;
  o_quality : string;
  o_format : string;
  o_container : string;
  o_type : MediaType;
  o_hasAudio : option bool;
  o_downloadMethod : option DownloadMethod;
  o_videoItag : option string;
  o_audioItag : option string;
  o_fileSize : option string
}.

Definition progressiveVideoFormats (formats : list videoFormat) : list videoFormat :=
  List.filter (fun f => hasVideo f && hasAudio f && JS.truthy (qualityLabel f)) formats.

Definition videoOnlyFormats (formats : list videoFormat) : list videoFormat :=
  List.filter (fun f => hasVideo f && negb (hasAudio f) && JS.truthy (qualityLabel f)) formats.

Definition audioFormats (formats : list videoFormat) : list videoFormat :=
  List.filter (fun f => hasAudio f && negb (hasVideo f)) formats.

Definition getResolutionPriority (quality : string) : Z :=
  if JS.includes quality "2160p" || JS.includes quality "4K" then 9000
  else if JS.includes quality "1440p" || JS.includes quality "2K" then 8000
  else if JS.includes quality "1080p" then 7000
  else if JS.includes quality "720p" then 6000
  else if JS.includes quality "480p" then 5000
  else if JS.includes quality "360p" then 4000
  else if JS.includes quality "240p" then 3000
  else if JS.includes quality "144p" then 2000
  else 1000.

(** The comparator handed to [sort]: higher resolution first. *)
Definition byResolution (a b : string) : Z :=
  getResolutionPriority b - getResolutionPriority a.

Definition allVideoQualities (formats : list videoFormat) : list string :=
  JS.sort byResolution
    (JS.fromSet
       (List.map (fun f => default "" (qualityLabel f))
          (List.filter (fun f => JS.truthy (qualityLabel f))
             (progressiveVideoFormats formats ++ videoOnlyFormats formats)))).

(** [a || b] on two lookups that yield an object or [undefined]. *)
Definition orElse {A} (a b : option A) : option A :=
  match a with
  | Some _ => a
  | None => b
  end.

(** The three-step lookup of a stream at one quality: mp4, then webm, then any. *)
Definition findAtQuality (fs : list videoFormat) (qualityLabel' : string)
    : option videoFormat :=
  orElse
    (List.find (fun f => JS.isStr (qualityLabel f) qualityLabel'
                         && JS.isStr (container f) "mp4") fs)
    (orElse
       (List.find (fun f => JS.isStr (qualityLabel f) qualityLabel'
                            && JS.isStr (container f) "webm") fs)
       (List.find (fun f => JS.isStr (qualityLabel f) qualityLabel') fs)).

(** [f.audioCodec && f.audioCodec.includes(name)]. *)
Definition audioCodecIncludes (f : videoFormat) (name : string) : bool :=
  match audioCodec f with
  | Some c => negb (String.eqb c "") && JS.includes c name
  | None => false
  end.

(** The comparator [(a, b) => (b.audioBitrate || 0) - (a.audioBitrate || 0)]. *)
Definition byBitrate (a b : videoFormat) : Z :=
  JS.orNum (audioBitrate b) 0 - JS.orNum (audioBitrate a) 0.

(** The AAC candidates, best bitrate first, and their first element. *)
Definition bestAAC (afs : list videoFormat) : option videoFormat :=
  head (JS.sort byBitrate (List.filter (fun f => audioCodecIncludes f "mp4a") afs)).

(** The webm/opus candidates, best bitrate first, and their first element. *)
Definition bestWebmAudio (afs : list videoFormat) : option videoFormat :=
  head (JS.sort byBitrate
          (List.filter (fun f => JS.isStr (container f) "webm"
                                 || audioCodecIncludes f "opus") afs)).

(** [contentLength ? parseInt(contentLength) : 0]. *)
Definition sizeOrZero (f : videoFormat) : Z :=
  match contentLength f with
  | Some n => n
  | None => 0
  end.

(** The object pushed for a progressive stream. *)
Definition progressiveOption (qualityLabel' : string) (pf : videoFormat)
    : FormatOption :=
  let container' := JS.orString (container pf) "mp4" in
  {| o_itag := Some (JS.toString (itag pf));
     o_quality := qualityLabel';
     o_format := container';
     o_container := container';
     o_type := video;
     o_hasAudio := Some true;
     o_downloadMethod := Some progressive;
     o_videoItag := None;
     o_audioItag := None;
     o_fileSize :=
       match contentLength pf with
       | Some n => Some (JS.mbLabel n)
       | None => None
       end |}.

(** The object pushed for a video-only stream paired with an audio stream. *)
Definition muxOption (qualityLabel' : string) (videoOnlyFormat audioFormat : videoFormat)
    (outputContainer : string) : FormatOption :=
  let totalSize := sizeOrZero videoOnlyFormat + sizeOrZero audioFormat in
  {| o_itag := None;
     o_quality := qualityLabel';
     o_format := outputContainer;
     o_container := outputContainer;
     o_type := video;
     o_hasAudio := Some true;
     o_downloadMethod := Some mux;
     o_videoItag := Some (JS.toString (itag videoOnlyFormat));
     o_audioItag := Some (JS.toString (itag audioFormat));
     o_fileSize := if 0 <? totalSize then Some (JS.mbLabel totalSize) else None |}.

(** The [else] branch of the loop body: pairing a video-only stream with an
    audio stream. [None] is an iteration that pushes nothing. *)
Definition resolveMux (vofs afs : list videoFormat) (qualityLabel' : string)
    : option FormatOption :=
  match findAtQuality vofs qualityLabel' with
  | None => None
  | Some videoOnlyFormat =>
      if (0 <? Z.of_nat (length afs)) then
        let videoContainer := JS.orString (container videoOnlyFormat) "mp4" in
        let videoCodec' := JS.orString (videoCodec videoOnlyFormat) "" in
        if String.eqb videoContainer "mp4" || JS.startsWith videoCodec' "avc1" then
          match bestAAC afs with
          | Some audioFormat =>
              Some (muxOption qualityLabel' videoOnlyFormat audioFormat "mp4")
          | None =>
              match List.find (fun f => JS.isStr (qualityLabel f) qualityLabel'
                                        && JS.isStr (container f) "webm") vofs with
              | Some webmVideoFormat =>
                  match bestWebmAudio afs with
                  | Some audioFormat =>
                      Some (muxOption qualityLabel' videoOnlyFormat audioFormat "webm")
                  | None => None
                  end
              | None => None
              end
          end
        else if String.eqb videoContainer "webm" then
          match bestWebmAudio afs with
          | Some audioFormat =>
              Some (muxOption qualityLabel' videoOnlyFormat audioFormat "webm")
          | None => None
          end
        else None
      else None
  end.

(** One iteration of [for (const qualityLabel of allVideoQualities)]. *)
Definition resolveQuality (formats : list videoFormat) (qualityLabel' : string)
    : option FormatOption :=
  match findAtQuality (progressiveVideoFormats formats) qualityLabel' with
  | Some progressiveFormat => Some (progressiveOption qualityLabel' progressiveFormat)
  | None => resolveMux (videoOnlyFormats formats) (audioFormats formats) qualityLabel'
  end.

(** The array [processedVideoFormats] after the loop. *)
Definition processedVideoFormats (formats : list videoFormat) : list FormatOption :=
  omap (resolveQuality formats) (allVideoQualities formats).

(** [arr.findIndex(p)], with [None] for [-1]. *)
Fixpoint findIndex {A} (p : A -> bool) (arr : list A) : option nat :=
  match arr with
  | [] => None
  | x :: rest => if p x then Some 0%nat else S <$> findIndex p rest
  end.

Definition uniqueAudioFormats (formats : list videoFormat) : list videoFormat :=
  let arr := audioFormats formats in
  JS.sort byBitrate
    (List.map snd
       (List.filter
          (fun '(index, format) =>
             bool_decide (findIndex (fun f => itag f =? itag format) arr = Some index))
          (imap pair arr))).

Definition audioOption (format : videoFormat) : FormatOption :=
  let actualBitrate := JS.orNum (audioBitrate format) 128 in
  let qualityLabel' :=
    if 250 <=? actualBitrate then "320kbps"
    else if 160 <=? actualBitrate then "192kbps"
    else "128kbps" in
  {| o_itag := Some (JS.toString (itag format));
     o_quality := qualityLabel' +:+ " (mp3)";
     o_format := "mp3";
     o_container := "mp3";
     o_type := audio;
     o_hasAudio := None;
     o_downloadMethod := None;
     o_videoItag := None;
     o_audioItag := None;
     o_fileSize :=
       match contentLength format with
       | Some n => Some (JS.mbLabel n)
       | None => None
       end |}.

Definition processedAudioFormats (formats : list videoFormat) : list FormatOption :=
  List.map audioOption (uniqueAudioFormats formats).

(** [allFormats]: the menu of the response. *)
Definition allFormats (formats : list videoFormat) : list FormatOption :=
  processedVideoFormats formats ++ processedAudioFormats formats.

End Resolver.

(** ** What the orchestrators act on: the job store and the downloads directory *)
Module Runtime.
Import Schema.

(** The shared [storage] object and the set of paths that exist on disk. *)
Record World := mkWorld {
  store : gmap string Download;
  files : gset string
}.

(** The life cycle of an event source (a promise, a stream, a command). *)
Inductive Life := Idle | Active | Ended | Errored.

#[global] Instance Life_eq_dec : EqDecision Life.
Proof. solve_decision. Defined.

(** The result of dispatching one event: the handlers ran, or an error left
    the process with nobody listening for it. *)
Inductive Outcome (S : Type) :=
| Continue (s : S)
| Crashed (s : S).
Arguments Continue {S} s.
Arguments Crashed {S} s.

Definition stateOf {S} (o : Outcome S) : S :=
  match o with
  | Continue s => s
  | Crashed s => s
  end.

(** [storage.updateDownload(id, updates)], the returned record dropped. *)
Definition update (now : Z) (key : string) (updates : PartialDownload)
    (w : World) : World :=
  {| store := snd (Storage.updateDownload now key updates (store w));
     files := files w |}.

(** [fs.createWriteStream(path)], and a command that starts writing [path]. *)
Definition createFile (path : string) (w : World) : World :=
  {| store := store w; files := {[path]} ∪ files w |}.

(** [if (fs.existsSync(path)) fs.unlinkSync(path)]. *)
Definition unlinkIfExists (path : string) (w : World) : World :=
  if bool_decide (path ∈ files w)
  then {| store := store w; files := files w ∖ {[path]} |}
  else w.

(** The object literals handed to [updateDownload] by the orchestrators: only
    [status], [progress], [filePath] and [fileSize] ever occur as keys. *)
Definition fieldsOf (status' : option string) (progress' : option (option Z))
    (filePath' fileSize' : option string) : PartialDownload :=
  mkPartial None None None None None None None None None
            status' progress' (Some <$> filePath') (Some <$> fileSize')
            None None None None None None.

Definition fields (status' : option string) (progress' : option Z)
    (filePath' fileSize' : option string) : PartialDownload :=
  fieldsOf status' (Some <$> progress') filePath' fileSize'.

Definition setStatus (s : string) : PartialDownload :=
  fields (Some s) None None None.
Definition setProgress (p : Z) : PartialDownload :=
  fields None (Some p) None None.
Definition setProgressAndSize (p : Z) (size : string) : PartialDownload :=
  fields None (Some p) None (Some size).
(** The same two literals with a computed progress, which need not be a
    finite Number. *)
Definition setComputedProgress (p : option Z) : PartialDownload :=
  fieldsOf None (Some p) None None.
Definition setComputedProgressAndSize (p : option Z) (size : string)
    : PartialDownload :=
  fieldsOf None (Some p) None (Some size).
Definition setFailed : PartialDownload :=
  fields (Some "failed") (Some 0) None None.
Definition setCompleted (path size : string) : PartialDownload :=
  fields (Some "completed") (Some 100) (Some path) (Some size).

(** [d / t] on two byte counts. *)
Definition ratio (d t : Z) : JS.Number := JS.div (JS.num d) (inject_Z t).

(** [path.join(process.cwd(), "downloads")]. *)
Definition downloadsDir (cwd : string) : string := JS.pathJoin cwd "downloads".

(** The job as [POST /api/download] creates it, if it is stored at all. *)
Definition pendingJob (key : string) (w : World) : Prop :=
  forall job, store w !! key = Some job ->
    status job = "pending" /\ progress job = Some 0.

End Runtime.

(** ** [startDownload]: the single-stream orchestrator *)
Module Progressive.
Import Schema Ytdl Runtime.

(** The arguments of [startDownload], and the working directory. *)
Record Args := mkArgs {
  cwd : string;
  downloadId : string;
  videoId : string;
  itag : string;
  format : string
}.

(** The literal [audioFormats] of the function body. *)
Definition audioStyle : list string := ["webm"; "m4a"; "opus"; "mp4a"; "aac"; "mp3"].

Definition isAudioOnly (f : videoFormat) : bool := hasAudio f && negb (hasVideo f).

(** The three lookups of the audio branch, in order: exact itag among the
    audio-only streams, best bitrate, any audio-only stream. *)
Definition selectAudioFormat (formats : list videoFormat) (itag' : string)
    : option videoFormat :=
  Resolver.orElse
    (List.find (fun f => String.eqb (JS.toString (Ytdl.itag f)) itag'
                         && hasAudio f && negb (hasVideo f)) formats)
    (Resolver.orElse
       (head (JS.sort Resolver.byBitrate (List.filter isAudioOnly formats)))
       (List.find isAudioOnly formats)).

(** The lookup of the video branch. *)
Definition selectVideoFormat (formats : list videoFormat) (itag' : string)
    : option videoFormat :=
  List.find (fun f => String.eqb (JS.toString (Ytdl.itag f)) itag' && hasVideo f) formats.

(** The constants computed once the stream is chosen. *)
Record Plan := mkPlan {
  audioBranch : bool;
  isMP3Conversion : bool;
  tempFilepath : string;
  finalFilepath : string;
  bitrate : Z
}.

Definition audioPlan (a : Args) (audioFormat : videoFormat) : Plan :=
  let actualContainer := JS.orString (container audioFormat) (format a) in
  let actualFilepath :=
    JS.pathJoin (downloadsDir (cwd a)) (downloadId a +:+ "." +:+ actualContainer) in
  let isMP3 := String.eqb (format a) "mp3" in
  {| audioBranch := true;
     isMP3Conversion := isMP3;
     tempFilepath :=
       if isMP3
       then JS.pathJoin (downloadsDir (cwd a))
              (downloadId a +:+ "_temp." +:+ actualContainer)
       else actualFilepath;
     finalFilepath :=
       if isMP3
       then JS.pathJoin (downloadsDir (cwd a)) (downloadId a +:+ ".mp3")
       else actualFilepath;
     bitrate := JS.orNum (audioBitrate audioFormat) 192 |}.

Definition videoPlan (a : Args) : Plan :=
  let filepath :=
    JS.pathJoin (downloadsDir (cwd a)) (downloadId a +:+ "." +:+ format a) in
  {| audioBranch := false;
     isMP3Conversion := false;
     tempFilepath := filepath;
     finalFilepath := filepath;
     bitrate := 0 |}.

(** The closure of one call: the world, the life cycles of [ytdl.getInfo],
    of the read stream, of the write stream and of the ffmpeg command, and
    the local variables of the function body. *)
Record State := mkState {
  world : World;
  info : Life;
  stream : Life;
  writeStream : Life;
  command : Life;
  plan : option Plan;
  totalBytes : Z;
  downloadedBytes : Z
}.

Definition initial (w : World) : State :=
  mkState w Idle Idle Idle Idle None 0 0.

Inductive Event :=
| Call
| InfoResolved (formats : list videoFormat)
| InfoRejected
| StreamProgress (downloaded total : Z)
| StreamEnd
| StreamError
| WriteFinish
| WriteError
| FfmpegProgress (percent : option Q)
| FfmpegEnd (size : Z)
| FfmpegError.

(** When the environment can deliver an event: a source only emits while it
    is active, and the write stream finishes after the read stream ended. *)
Definition enabled (s : State) (e : Event) : bool :=
  match e with
  | Call => bool_decide (info s = Idle)
  | InfoResolved _ | InfoRejected => bool_decide (info s = Active)
  | StreamProgress _ _ | StreamEnd | StreamError => bool_decide (stream s = Active)
  | WriteFinish => bool_decide (writeStream s = Active) && bool_decide (stream s = Ended)
  | WriteError => bool_decide (writeStream s = Active)
  | FfmpegProgress _ | FfmpegEnd _ | FfmpegError => bool_decide (command s = Active)
  end.

(** The life cycles after an event, before any listener runs. *)
Definition advance (s : State) (e : Event) : State :=
  match e with
  | Call => mkState (world s) Active (stream s) (writeStream s) (command s)
                    (plan s) (totalBytes s) (downloadedBytes s)
  | InfoResolved _ => mkState (world s) Ended (stream s) (writeStream s) (command s)
                              (plan s) (totalBytes s) (downloadedBytes s)
  | InfoRejected => mkState (world s) Errored (stream s) (writeStream s) (command s)
                            (plan s) (totalBytes s) (downloadedBytes s)
  | StreamProgress _ _ => s
  | StreamEnd => mkState (world s) (info s) Ended (writeStream s) (command s)
                         (plan s) (totalBytes s) (downloadedBytes s)
  | StreamError => mkState (world s) (info s) Errored (writeStream s) (command s)
                           (plan s) (totalBytes s) (downloadedBytes s)
  | WriteFinish => mkState (world s) (info s) (stream s) Ended (command s)
                           (plan s) (totalBytes s) (downloadedBytes s)
  | WriteError => mkState (world s) (info s) (stream s) Errored (command s)
                          (plan s) (totalBytes s) (downloadedBytes s)
  | FfmpegProgress _ => s
  | FfmpegEnd _ => mkState (world s) (info s) (stream s) (writeStream s) Ended
                           (plan s) (totalBytes s) (downloadedBytes s)
  | FfmpegError => mkState (world s) (info s) (stream s) (writeStream s) Errored
                           (plan s) (totalBytes s) (downloadedBytes s)
  end.

Definition withWorld (s : State) (w : World) : State :=
  mkState w (info s) (stream s) (writeStream s) (command s)
          (plan s) (totalBytes s) (downloadedBytes s).

(** The [catch] block that closes the function body. *)
Definition catchAll (now : Z) (a : Args) (s : State) : State :=
  withWorld s (update now (downloadId a) setFailed (world s)).

(** The body up to the first [await]: the job is marked as downloading. *)
Definition onCall (now : Z) (a : Args) (s : State) : State :=
  withWorld s (update now (downloadId a) (setStatus "downloading") (world s)).

(** The body after [ytdl.getInfo] resolved: the stream is chosen (or the
    error is thrown and caught), the write stream is created and piped. *)
Definition onInfo (now : Z) (a : Args) (formats : list videoFormat) (s : State)
    : State :=
  if JS.arrayIncludes audioStyle (format a) then
    match selectAudioFormat formats (itag a) with
    | None => catchAll now a s
    | Some audioFormat =>
        let p := audioPlan a audioFormat in
        mkState (createFile (tempFilepath p) (world s))
                (info s) Active Active (command s) (Some p) 0 0
    end
  else
    match selectVideoFormat formats (itag a) with
    | None => catchAll now a s
    | Some selectedFormat =>
        let p := videoPlan a in
        mkState (createFile (tempFilepath p) (world s))
                (info s) Active Active (command s) (Some p) 0 0
    end.

(** [stream.on('progress', ...)], registered in both branches. *)
Definition onStreamProgress (now : Z) (a : Args) (p : Plan)
    (downloaded total : Z) (s : State) : State :=
  let progress' :=
    if isMP3Conversion p
    then JS.rounded (JS.mul (ratio downloaded total) (JS.num 70))
    else JS.rounded (JS.mul (ratio downloaded total) (JS.num 100)) in
  mkState (update now (downloadId a)
             (setComputedProgressAndSize progress' (JS.mbLabel total)) (world s))
          (info s) (stream s) (writeStream s) (command s) (plan s)
          total (if audioBranch p then downloaded else downloadedBytes s).

(** The listeners of the audio branch for the two error events. *)
Definition onAudioError (now : Z) (a : Args) (p : Plan) (s : State) : State :=
  let w := if isMP3Conversion p
           then unlinkIfExists (tempFilepath p) (world s)
           else world s in
  withWorld s (update now (downloadId a) setFailed w).

(** [stream.on('error', ...)] of the video branch. *)
Definition onVideoStreamError (now : Z) (a : Args) (s : State) : State :=
  withWorld s (update now (downloadId a) setFailed (world s)).

(** [stream.on('end', ...)] of the video branch. *)
Definition onVideoStreamEnd (now : Z) (a : Args) (p : Plan) (s : State) : State :=
  withWorld s
    (update now (downloadId a)
       (setCompleted (finalFilepath p) (JS.mbLabel (totalBytes s))) (world s)).

(** [writeStream.on('finish', ...)] of the audio branch, up to its [await]:
    either the job is completed, or the conversion is started. *)
Definition onAudioFinish (now : Z) (a : Args) (p : Plan) (s : State) : State :=
  if isMP3Conversion p then
    let w := update now (downloadId a) (setProgress 75) (world s) in
    mkState (createFile (finalFilepath p) w)
            (info s) (stream s) (writeStream s) Active (plan s)
            (totalBytes s) (downloadedBytes s)
  else
    withWorld s
      (update now (downloadId a)
         (setCompleted (finalFilepath p) (JS.mbLabel (totalBytes s))) (world s)).

(** The [progress] listener of the conversion. *)
Definition onConvertProgress (now : Z) (a : Args) (percent : option Q)
    (s : State) : State :=
  let conversionProgress :=
    JS.rounded
      (JS.add (JS.num 75)
         (JS.mul (JS.Finite (JS.orZeroQ percent)) (JS.literal (25 # 100)))) in
  withWorld s
    (update now (downloadId a) (setComputedProgress conversionProgress) (world s)).

(** The [end] listener of the conversion and the code after the [await]:
    [size] is what [fs.statSync(finalFilepath).size] reads; a missing file
    makes [statSync] throw into the inner [catch]. *)
Definition onConvertEnd (now : Z) (a : Args) (p : Plan) (size : Z)
    (s : State) : State :=
  let w := unlinkIfExists (tempFilepath p) (world s) in
  if bool_decide (finalFilepath p ∈ files w) then
    withWorld s
      (update now (downloadId a)
         (setCompleted (finalFilepath p) (JS.mbLabel size)) w)
  else
    withWorld s
      (update now (downloadId a) setFailed (unlinkIfExists (tempFilepath p) w)).

(** The [error] listener of the conversion and the inner [catch]. *)
Definition onConvertError (now : Z) (a : Args) (p : Plan) (s : State) : State :=
  withWorld s
    (update now (downloadId a) setFailed
       (unlinkIfExists (tempFilepath p) (world s))).

(** The listener that the branch of [p] registered for [e], if any. *)
Definition listener (now : Z) (a : Args) (p : Plan) (e : Event)
    : option (State -> State) :=
  match e with
  | StreamProgress downloaded total =>
      Some (onStreamProgress now a p downloaded total)
  | StreamEnd =>
      if audioBranch p then None else Some (onVideoStreamEnd now a p)
  | StreamError =>
      if audioBranch p then Some (onAudioError now a p)
      else Some (onVideoStreamError now a)
  | WriteFinish =>
      if audioBranch p then Some (onAudioFinish now a p) else None
  | WriteError =>
      if audioBranch p then Some (onAudioError now a p) else None
  | FfmpegProgress percent => Some (onConvertProgress now a percent)
  | FfmpegEnd size => Some (onConvertEnd now a p size)
  | FfmpegError => Some (onConvertError now a p)
  | Call | InfoResolved _ | InfoRejected => None
  end.

(** An [error] event is one that an emitter raises as an exception when no
    listener is registered for it. *)
Definition isErrorEvent (e : Event) : bool :=
  match e with
  | StreamError | WriteError | FfmpegError => true
  | _ => false
  end.

(** Dispatch of an enabled event. *)
Definition dispatch (now : Z) (a : Args) (s : State) (e : Event) : Outcome State :=
  let s' := advance s e in
  match e with
  | Call => Continue (onCall now a s')
  | InfoResolved formats => Continue (onInfo now a formats s')
  | InfoRejected => Continue (catchAll now a s')
  | _ =>
      match plan s' with
      | None => Continue s'
      | Some p =>
          match listener now a p e with
          | Some h => Continue (h s')
          | None => if isErrorEvent e then Crashed s' else Continue s'
          end
      end
  end.

Definition step (now : Z) (a : Args) (s : State) (e : Event)
    : option (Outcome State) :=
  if enabled s e then Some (dispatch now a s e) else None.

(** A run over timestamped events; it stops at the first crash. *)
Fixpoint run (a : Args) (s : State) (trace : list (Z * Event))
    : option (Outcome State) :=
  match trace with
  | [] => Some (Continue s)
  | (now, e) :: rest =>
      match step now a s e with
      | Some (Continue s') => run a s' rest
      | Some (Crashed s') => Some (Crashed s')
      | None => None
      end
  end.

(** The events an emitter can meaningfully carry: a progress report of a
    stream of known positive length, and a percentage of the conversion. *)
Definition wellFormed (e : Event) : Prop :=
  match e with
  | StreamProgress downloaded total => 0 <= downloaded <= total /\ 0 < total
  | FfmpegProgress (Some q) => (0 <= q)%Q /\ (q <= 100)%Q
  | _ => True
  end.

End Progressive.

(** ** [startMuxDownload]: the two-stream orchestrator *)
Module Mux.
Import Schema Ytdl Runtime.

(** The arguments of [startMuxDownload], and the working directory. *)
Record Args := mkArgs {
  cwd : string;
  downloadId : string;
  videoId : string;
  videoItag : string;
  audioItag : string;
  clientFormat : string
}.

(** The container re-derived from the two chosen streams. *)
Definition deriveOutputContainer (videoFormat audioFormat : videoFormat) : string :=
  let videoCodec' := JS.orString (videoCodec videoFormat) "" in
  let audioCodec' := JS.orString (audioCodec audioFormat) "" in
  if JS.startsWith videoCodec' "avc1" && JS.includes audioCodec' "mp4a" then "mp4"
  else if JS.isStr (container videoFormat) "webm"
          && JS.isStr (container audioFormat) "webm" then "webm"
  else if JS.includes audioCodec' "opus" && JS.startsWith videoCodec' "vp9" then "webm"
  else "mp4".

Definition tempDir (a : Args) : string :=
  JS.pathJoin (downloadsDir (cwd a)) "temp".
Definition videoTempPath (a : Args) : string :=
  JS.pathJoin (tempDir a) (downloadId a +:+ "_video.temp").
Definition audioTempPath (a : Args) : string :=
  JS.pathJoin (tempDir a) (downloadId a +:+ "_audio.temp").
Definition finalFilepath (a : Args) (outputContainer : string) : string :=
  JS.pathJoin (downloadsDir (cwd a)) (downloadId a +:+ "." +:+ outputContainer).
Definition mp4Path (a : Args) : string :=
  JS.pathJoin (downloadsDir (cwd a)) (downloadId a +:+ ".mp4").
Definition webmPath (a : Args) : string :=
  JS.pathJoin (downloadsDir (cwd a)) (downloadId a +:+ ".webm").

(** Where the body of the [async] function is suspended. *)
Inductive Pc := NotCalled | AwaitInfo | AwaitDownloads | AwaitMux | Returned.

#[global] Instance Pc_eq_dec : EqDecision Pc.
Proof. solve_decision. Defined.

Inductive Promise := Pending | Resolved | Rejected.

#[global] Instance Promise_eq_dec : EqDecision Promise.
Proof. solve_decision. Defined.

Inductive Leg := VideoLeg | AudioLeg.

(** The closure of one call. *)
Record State := mkState {
  world : World;
  pc : Pc;
  videoStream : Life;
  videoWriteStream : Life;
  audioStream : Life;
  audioWriteStream : Life;
  command : Life;
  videoPromise : Promise;
  audioPromise : Promise;
  outputContainer : string;
  videoDownloaded : bool;
  audioDownloaded : bool;
  videoBytes : Z;
  audioBytes : Z;
  totalVideoBytes : Z;
  totalAudioBytes : Z
}.

Definition initial (w : World) : State :=
  mkState w NotCalled Idle Idle Idle Idle Idle Pending Pending "mp4"
          false false 0 0 0 0.

Inductive Event :=
| Call
| InfoResolved (formats : list videoFormat)
| InfoRejected
| Progress (leg : Leg) (downloaded total : Z)
| StreamEnd (leg : Leg)
| StreamError (leg : Leg)
| WriteFinish (leg : Leg)
| WriteError (leg : Leg)
| FfmpegProgress (percent : option Q)
| FfmpegEnd (size : Z)
| FfmpegError.

Definition streamOf (leg : Leg) (s : State) : Life :=
  match leg with
  | VideoLeg => videoStream s
  | AudioLeg => audioStream s
  end.

Definition writeStreamOf (leg : Leg) (s : State) : Life :=
  match leg with
  | VideoLeg => videoWriteStream s
  | AudioLeg => audioWriteStream s
  end.

Definition promiseOf (leg : Leg) (s : State) : Promise :=
  match leg with
  | VideoLeg => videoPromise s
  | AudioLeg => audioPromise s
  end.

(** When the environment can deliver an event. *)
Definition enabled (s : State) (e : Event) : bool :=
  match e with
  | Call => bool_decide (pc s = NotCalled)
  | InfoResolved _ | InfoRejected => bool_decide (pc s = AwaitInfo)
  | Progress leg _ _ | StreamEnd leg | StreamError leg =>
      bool_decide (streamOf leg s = Active)
  | WriteFinish leg =>
      bool_decide (writeStreamOf leg s = Active)
      && bool_decide (streamOf leg s = Ended)
  | WriteError leg => bool_decide (writeStreamOf leg s = Active)
  | FfmpegProgress _ | FfmpegEnd _ | FfmpegError => bool_decide (command s = Active)
  end.

Definition withWorld (s : State) (w : World) : State :=
  mkState w (pc s) (videoStream s) (videoWriteStream s) (audioStream s)
          (audioWriteStream s) (command s) (videoPromise s) (audioPromise s)
          (outputContainer s) (videoDownloaded s) (audioDownloaded s)
          (videoBytes s) (audioBytes s) (totalVideoBytes s) (totalAudioBytes s).

Definition withPc (s : State) (pc' : Pc) : State :=
  mkState (world s) pc' (videoStream s) (videoWriteStream s) (audioStream s)
          (audioWriteStream s) (command s) (videoPromise s) (audioPromise s)
          (outputContainer s) (videoDownloaded s) (audioDownloaded s)
          (videoBytes s) (audioBytes s) (totalVideoBytes s) (totalAudioBytes s).

Definition withStream (leg : Leg) (l : Life) (s : State) : State :=
  match leg with
  | VideoLeg =>
      mkState (world s) (pc s) l (videoWriteStream s) (audioStream s)
              (audioWriteStream s) (command s) (videoPromise s) (audioPromise s)
              (outputContainer s) (videoDownloaded s) (audioDownloaded s)
              (videoBytes s) (audioBytes s) (totalVideoBytes s) (totalAudioBytes s)
  | AudioLeg =>
      mkState (world s) (pc s) (videoStream s) (videoWriteStream s) l
              (audioWriteStream s) (command s) (videoPromise s) (audioPromise s)
              (outputContainer s) (videoDownloaded s) (audioDownloaded s)
              (videoBytes s) (audioBytes s) (totalVideoBytes s) (totalAudioBytes s)
  end.

Definition withWriteStream (leg : Leg) (l : Life) (s : State) : State :=
  match leg with
  | VideoLeg =>
      mkState (world s) (pc s) (videoStream s) l (audioStream s)
              (audioWriteStream s) (command s) (videoPromise s) (audioPromise s)
              (outputContainer s) (videoDownloaded s) (audioDownloaded s)
              (videoBytes s) (audioBytes s) (totalVideoBytes s) (totalAudioBytes s)
  | AudioLeg =>
      mkState (world s) (pc s) (videoStream s) (videoWriteStream s) (audioStream s)
              l (command s) (videoPromise s) (audioPromise s)
              (outputContainer s) (videoDownloaded s) (audioDownloaded s)
              (videoBytes s) (audioBytes s) (totalVideoBytes s) (totalAudioBytes s)
  end.

Definition withCommand (l : Life) (s : State) : State :=
  mkState (world s) (pc s) (videoStream s) (videoWriteStream s) (audioStream s)
          (audioWriteStream s) l (videoPromise s) (audioPromise s)
          (outputContainer s) (videoDownloaded s) (audioDownloaded s)
          (videoBytes s) (audioBytes s) (totalVideoBytes s) (totalAudioBytes s).

(** Settling a promise: only a pending promise changes. *)
Definition settle (leg : Leg) (p : Promise) (s : State) : State :=
  match leg with
  | VideoLeg =>
      mkState (world s) (pc s) (videoStream s) (videoWriteStream s) (audioStream s)
              (audioWriteStream s) (command s)
              (if bool_decide (videoPromise s = Pending) then p else videoPromise s)
              (audioPromise s)
              (outputContainer s) (videoDownloaded s) (audioDownloaded s)
              (videoBytes s) (audioBytes s) (totalVideoBytes s) (totalAudioBytes s)
  | AudioLeg =>
      mkState (world s) (pc s) (videoStream s) (videoWriteStream s) (audioStream s)
              (audioWriteStream s) (command s) (videoPromise s)
              (if bool_decide (audioPromise s = Pending) then p else audioPromise s)
              (outputContainer s) (videoDownloaded s) (audioDownloaded s)
              (videoBytes s) (audioBytes s) (totalVideoBytes s) (totalAudioBytes s)
  end.

(** The life cycles after an event, before any listener runs. *)
Definition advance (s : State) (e : Event) : State :=
  match e with
  | StreamEnd leg => withStream leg Ended s
  | StreamError leg => withStream leg Errored s
  | WriteFinish leg => withWriteStream leg Ended s
  | WriteError leg => withWriteStream leg Errored s
  | FfmpegEnd _ => withCommand Ended s
  | FfmpegError => withCommand Errored s
  | _ => s
  end.

(** The clean-up of the [catch] block: both temporary files, then the final
    file under either extension. *)
Definition cleanup (a : Args) (w : World) : World :=
  unlinkIfExists (webmPath a)
    (unlinkIfExists (mp4Path a)
       (unlinkIfExists (audioTempPath a)
          (unlinkIfExists (videoTempPath a) w))).

(** The [catch] block that closes the function body. *)
Definition catchAll (now : Z) (a : Args) (s : State) : State :=
  withPc (withWorld s (update now (downloadId a) setFailed (cleanup a (world s))))
         Returned.

(** The body up to the first [await]. *)
Definition onCall (now : Z) (a : Args) (s : State) : State :=
  withPc (withWorld s (update now (downloadId a) (setStatus "downloading") (world s)))
         AwaitInfo.

(** The body after [ytdl.getInfo] resolved, up to [await Promise.all]. *)
Definition onInfo (now : Z) (a : Args) (formats : list videoFormat) (s : State)
    : State :=
  match List.find (fun f => String.eqb (JS.toString (itag f)) (videoItag a)) formats,
        List.find (fun f => String.eqb (JS.toString (itag f)) (audioItag a)) formats with
  | Some videoFormat, Some audioFormat =>
      mkState (createFile (audioTempPath a) (createFile (videoTempPath a) (world s)))
              AwaitDownloads Active Active Active Active (command s)
              Pending Pending
              (deriveOutputContainer videoFormat audioFormat)
              false false 0 0 0 0
  | _, _ => catchAll now a s
  end.

(** The closure [updateProgress]. *)
Definition updateProgress (now : Z) (a : Args) (s : State) : State :=
  if (0 <? totalVideoBytes s) && (0 <? totalAudioBytes s) then
    let videoProgress := ratio (videoBytes s) (totalVideoBytes s) in
    let audioProgress := ratio (audioBytes s) (totalAudioBytes s) in
    let overallProgress :=
      JS.rounded
        (JS.mul (JS.div (JS.add videoProgress audioProgress) (inject_Z 2))
           (JS.num 80)) in
    withWorld s
      (update now (downloadId a)
         (setComputedProgressAndSize overallProgress
            (JS.mbLabel (totalVideoBytes s + totalAudioBytes s)))
         (world s))
  else s.

(** The [progress] listeners of the two read streams. *)
Definition onProgress (now : Z) (a : Args) (leg : Leg) (downloaded total : Z)
    (s : State) : State :=
  updateProgress now a
    match leg with
    | VideoLeg =>
        mkState (world s) (pc s) (videoStream s) (videoWriteStream s) (audioStream s)
                (audioWriteStream s) (command s) (videoPromise s) (audioPromise s)
                (outputContainer s) (videoDownloaded s) (audioDownloaded s)
                downloaded (audioBytes s) total (totalAudioBytes s)
    | AudioLeg =>
        mkState (world s) (pc s) (videoStream s) (videoWriteStream s) (audioStream s)
                (audioWriteStream s) (command s) (videoPromise s) (audioPromise s)
                (outputContainer s) (videoDownloaded s) (audioDownloaded s)
                (videoBytes s) downloaded (totalVideoBytes s) total
    end.

(** The body after [await Promise.all]: progress 81 and the mux command,
    which starts writing the final file. *)
Definition afterDownloads (now : Z) (a : Args) (s : State) : State :=
  let w := update now (downloadId a) (setProgress 81) (world s) in
  withPc (withCommand Active
            (withWorld s (createFile (finalFilepath a (outputContainer s)) w)))
         AwaitMux.

(** The [finish] listeners of the two write streams: the flag is set and the
    promise resolved; the body resumes when both promises are resolved. *)
Definition onWriteFinish (now : Z) (a : Args) (leg : Leg) (s : State) : State :=
  let s1 :=
    match leg with
    | VideoLeg =>
        mkState (world s) (pc s) (videoStream s) (videoWriteStream s) (audioStream s)
                (audioWriteStream s) (command s) (videoPromise s) (audioPromise s)
                (outputContainer s) true (audioDownloaded s)
                (videoBytes s) (audioBytes s) (totalVideoBytes s) (totalAudioBytes s)
    | AudioLeg =>
        mkState (world s) (pc s) (videoStream s) (videoWriteStream s) (audioStream s)
                (audioWriteStream s) (command s) (videoPromise s) (audioPromise s)
                (outputContainer s) (videoDownloaded s) true
                (videoBytes s) (audioBytes s) (totalVideoBytes s) (totalAudioBytes s)
    end in
  let s2 := settle leg Resolved s1 in
  if bool_decide (pc s2 = AwaitDownloads)
     && bool_decide (videoPromise s2 = Resolved)
     && bool_decide (audioPromise s2 = Resolved)
  then afterDownloads now a s2
  else s2.

(** The [error] listeners of the four streams: the promise is rejected, and
    the first rejection makes [Promise.all] throw into the [catch] block. *)
Definition onLegError (now : Z) (a : Args) (leg : Leg) (s : State) : State :=
  let s1 := settle leg Rejected s in
  if bool_decide (pc s1 = AwaitDownloads)
     && bool_decide (promiseOf leg s1 = Rejected)
  then catchAll now a s1
  else s1.

(** The [progress] listener of the mux command. *)
Definition onMuxProgress (now : Z) (a : Args) (percent : option Q) (s : State)
    : State :=
  let muxProgress :=
    JS.rounded
      (JS.add (JS.num 81)
         (JS.mul (JS.Finite (JS.orZeroQ percent)) (JS.literal (18 # 100)))) in
  withWorld s (update now (downloadId a) (setComputedProgress muxProgress) (world s)).

(** The [end] listener of the mux command and the body after the [await]:
    the temporary files are removed, [size] is what
    [fs.statSync(finalFilepath).size] reads; a missing file makes [statSync]
    throw into the [catch] block. *)
Definition onMuxEnd (now : Z) (a : Args) (size : Z) (s : State) : State :=
  let w := unlinkIfExists (audioTempPath a)
             (unlinkIfExists (videoTempPath a) (world s)) in
  if bool_decide (finalFilepath a (outputContainer s) ∈ files w) then
    withPc
      (withWorld s
         (update now (downloadId a)
            (setCompleted (finalFilepath a (outputContainer s)) (JS.mbLabel size)) w))
      Returned
  else catchAll now a (withWorld s w).

(** The [error] listener of the mux command: the rejection is thrown into
    the [catch] block. *)
Definition onMuxError (now : Z) (a : Args) (s : State) : State :=
  catchAll now a s.

(** The listener registered for [e], if any. *)
Definition listener (now : Z) (a : Args) (e : Event) : option (State -> State) :=
  match e with
  | Progress leg downloaded total => Some (onProgress now a leg downloaded total)
  | StreamEnd _ => None
  | StreamError leg => Some (onLegError now a leg)
  | WriteFinish leg => Some (onWriteFinish now a leg)
  | WriteError leg => Some (onLegError now a leg)
  | FfmpegProgress percent => Some (onMuxProgress now a percent)
  | FfmpegEnd size => Some (onMuxEnd now a size)
  | FfmpegError => Some (onMuxError now a)
  | Call | InfoResolved _ | InfoRejected => None
  end.

Definition isErrorEvent (e : Event) : bool :=
  match e with
  | StreamError _ | WriteError _ | FfmpegError => true
  | _ => false
  end.

(** Dispatch of an enabled event. *)
Definition dispatch (now : Z) (a : Args) (s : State) (e : Event) : Outcome State :=
  let s' := advance s e in
  match e with
  | Call => Continue (onCall now a s')
  | InfoResolved formats => Continue (onInfo now a formats s')
  | InfoRejected => Continue (catchAll now a s')
  | _ =>
      match listener now a e with
      | Some h => Continue (h s')
      | None => if isErrorEvent e then Crashed s' else Continue s'
      end
  end.

Definition step (now : Z) (a : Args) (s : State) (e : Event)
    : option (Outcome State) :=
  if enabled s e then Some (dispatch now a s e) else None.

(** A run over timestamped events; it stops at the first crash. *)
Fixpoint run (a : Args) (s : State) (trace : list (Z * Event))
    : option (Outcome State) :=
  match trace with
  | [] => Some (Continue s)
  | (now, e) :: rest =>
      match step now a s e with
      | Some (Continue s') => run a s' rest
      | Some (Crashed s') => Some (Crashed s')
      | None => None
      end
  end.

(** The events an emitter can meaningfully carry. *)
Definition wellFormed (e : Event) : Prop :=
  match e with
  | Progress _ downloaded total => 0 <= downloaded <= total /\ 0 <= total
  | FfmpegProgress (Some q) => (0 <= q)%Q /\ (q <= 100)%Q
  | _ => True
  end.

End Mux.

(** ** What is to hold of every state of the mux orchestrator *)
Module MuxSpec.
Import Schema Ytdl Runtime Mux.

(** No stream and no command can emit any more. *)
Definition quiet (s : State) : Prop :=
  videoStream s <> Active /\ audioStream s <> Active
  /\ videoWriteStream s <> Active /\ audioWriteStream s <> Active
  /\ command s <> Active.

(** The job record as the claims want it: progress within 0..100, and 100
    exactly for a completed job, which then sees no further event. *)
Definition jobOk (s : State) (job : Download) : Prop :=
  (exists p, progress job = Some p /\ 0 <= p <= 100)
  /\ (progress job = Some 100 -> status job = "completed")
  /\ (status job = "completed" -> progress job = Some 100 /\ quiet s).

(** The invariant of the runs of [startMuxDownload]. *)
Record MuxInv (a : Args) (s : State) : Prop := {
  m_job : forall job, store (world s) !! downloadId a = Some job -> jobOk s job;
  m_early : pc s = NotCalled \/ pc s = AwaitInfo ->
            command s = Idle
            /\ forall job, store (world s) !! downloadId a = Some job ->
                 status job <> "completed";
  m_bytes : 0 <= videoBytes s <= totalVideoBytes s
            /\ 0 <= audioBytes s <= totalAudioBytes s;
  m_promise : forall leg, promiseOf leg s = Resolved ->
              streamOf leg s = Ended /\ writeStreamOf leg s = Ended;
  m_await : pc s = AwaitDownloads ->
            command s = Idle /\ forall leg, promiseOf leg s <> Rejected;
  m_command : command s <> Idle ->
              forall leg, streamOf leg s = Ended /\ writeStreamOf leg s = Ended
}.

(** What holds of the life cycles in every run, whatever the events carry. *)
Record MuxShape (s : State) : Prop := {
  sh_early : pc s = NotCalled \/ pc s = AwaitInfo -> command s = Idle;
  sh_promise : forall leg, promiseOf leg s = Resolved ->
               streamOf leg s = Ended /\ writeStreamOf leg s = Ended;
  sh_await : pc s = AwaitDownloads ->
             command s = Idle /\ forall leg, promiseOf leg s <> Rejected;
  sh_command : command s <> Idle ->
               forall leg, streamOf leg s = Ended /\ writeStreamOf leg s = Ended;
  sh_container : outputContainer s = "mp4" \/ outputContainer s = "webm"
}.

(** The function has returned and nothing can report progress any more. *)
Definition quiescent (s : State) : Prop :=
  pc s = Returned /\ videoStream s <> Active /\ audioStream s <> Active
  /\ command s <> Active.

(** The events that make the body of [startMuxDownload] throw: a rejected
    [getInfo], a stream that is not in the catalogue, an error of a read or
    write stream while both downloads are awaited, an error of the mux
    command, and a final file that [statSync] does not find. *)
Definition raisesError (a : Args) (s : State) (e : Event) : bool :=
  match e with
  | InfoRejected => true
  | InfoResolved formats =>
      negb (bool_decide (is_Some
              (List.find (fun f => String.eqb (JS.toString (itag f)) (videoItag a)) formats))
            && bool_decide (is_Some
              (List.find (fun f => String.eqb (JS.toString (itag f)) (audioItag a)) formats)))
  | StreamError _ | WriteError _ => bool_decide (pc s = AwaitDownloads)
  | FfmpegError => true
  | _ => false
  end.

End MuxSpec.

(** ** What is to hold of every state of the single-stream orchestrator *)
Module ProgressiveSpec.
Import Schema Ytdl Runtime Progressive.

(** No source can report progress any more, and the write stream of the
    audio branch is closed. *)
Definition quiet (s : State) : Prop :=
  stream s <> Active /\ command s <> Active
  /\ (forall p, plan s = Some p -> audioBranch p = true -> writeStream s <> Active).

(** The job record: progress within 0..100, and 100 for a completed job,
    which then sees no further update. *)
Definition jobOk (s : State) (job : Download) : Prop :=
  (exists p, progress job = Some p /\ 0 <= p <= 100)
  /\ (status job = "completed" -> progress job = Some 100 /\ quiet s).

(** The invariant of the runs of [startDownload]. *)
Record ProgInv (a : Args) (s : State) : Prop := {
  p_job : forall job, store (world s) !! downloadId a = Some job -> jobOk s job;
  p_early : info s = Idle \/ info s = Active ->
            stream s = Idle /\ writeStream s = Idle /\ command s = Idle
            /\ forall job, store (world s) !! downloadId a = Some job ->
                 status job <> "completed";
  p_command : command s = Active -> stream s = Ended /\ writeStream s = Ended
}.

End ProgressiveSpec.

(** ** Concrete catalogues, jobs and runs used to exercise the embedding *)
Module Samples.
Import Schema Ytdl Runtime.

(** The record that [POST /api/download] inserts for a progressive request. *)
Definition request : InsertDownload :=
  {| i_videoId := "dQw4w9WgXcQ";
     i_title := "Sample";
     i_thumbnail := None;
     i_duration := Some "3:33";
     i_views := None;
     i_author := Some "Someone";
     i_quality := "720p";
     i_format := "mp4";
     i_status := "pending";
     i_progress := Some 0;
     i_filePath := None;
     i_fileSize := None;
     i_itag := Some "22";
     i_downloadMethod := "progressive";
     i_videoItag := None;
     i_audioItag := None |}.

Definition job : Download := fst (Storage.createDownload "job-1" 1000 request ∅).

Definition jobs : gmap string Download :=
  snd (Storage.createDownload "job-1" 1000 request ∅).

(** An update that names the [id] column. *)
Definition renaming : PartialDownload :=
  mkPartial (Some "job-2") None None None None None None None None None
            None None None None None None None None None.

(** A catalogue: progressive 720p, two video-only 1080p streams (mp4/avc1 and
    webm/vp9), an AAC and an Opus audio stream. *)
Definition p22 : videoFormat :=
  mkFormat 22 (Some "mp4") (Some "avc1.64001F") (Some "mp4a.40.2") (Some "720p")
           true true (Some 192) (Some 30000000).
Definition v137 : videoFormat :=
  mkFormat 137 (Some "mp4") (Some "avc1.640028") None (Some "1080p")
           true false None (Some 50000000).
Definition v248 : videoFormat :=
  mkFormat 248 (Some "webm") (Some "vp9") None (Some "1080p")
           true false None (Some 40000000).
Definition a140 : videoFormat :=
  mkFormat 140 (Some "mp4") None (Some "mp4a.40.2") None
           false true (Some 128) (Some 3000000).
Definition a251 : videoFormat :=
  mkFormat 251 (Some "webm") None (Some "opus") None
           false true (Some 160) (Some 4000000).

Definition world0 : World := mkWorld jobs ∅.

(** A mux request for the streams 137 and 140, and runs of it. *)
Definition muxArgs : Mux.Args :=
  Mux.mkArgs "/srv" "job-1" "dQw4w9WgXcQ" "137" "140" "webm".

Definition catalogue : list videoFormat := [p22; v137; v248; a140; a251].

Definition stateAfter (trace : list (Z * Mux.Event)) : Mux.State :=
  match Mux.run muxArgs (Mux.initial world0) trace with
  | Some o => stateOf o
  | None => Mux.initial world0
  end.

(** Both streams fetching, the audio stream has reported 10 of 40 bytes. *)
Definition fetching : list (Z * Mux.Event) :=
  [(1001, Mux.Call); (1002, Mux.InfoResolved catalogue);
   (1003, Mux.Progress Mux.AudioLeg 10 40)].

(** The audio stream is written out, the video stream is still fetching. *)
Definition audioDone : list (Z * Mux.Event) :=
  fetching ++ [(1004, Mux.Progress Mux.VideoLeg 50 100);
               (1005, Mux.Progress Mux.AudioLeg 40 40);
               (1006, Mux.StreamEnd Mux.AudioLeg);
               (1007, Mux.WriteFinish Mux.AudioLeg)].

(** Both streams fetching, the audio stream has reported [d] of [t] bytes. *)
Definition audioAt (d t : Z) : list (Z * Mux.Event) :=
  [(1001, Mux.Call); (1002, Mux.InfoResolved catalogue);
   (1003, Mux.Progress Mux.AudioLeg d t)].

(** A progressive request for stream 22, and an mp3 request for stream 140. *)
Definition videoArgs : Progressive.Args :=
  Progressive.mkArgs "/srv" "job-1" "dQw4w9WgXcQ" "22" "mp4".

Definition mp3Args : Progressive.Args :=
  Progressive.mkArgs "/srv" "job-1" "dQw4w9WgXcQ" "140" "mp3".

(** The last progress report of a fetch arrives before the stream ends. *)
Definition fetched : list (Z * Progressive.Event) :=
  [(1001, Progressive.Call); (1002, Progressive.InfoResolved catalogue);
   (1003, Progressive.StreamProgress 100 100)].

(** The destination file fails while the video stream is fetched. *)
Definition writeFails : list (Z * Progressive.Event) :=
  [(1001, Progressive.Call); (1002, Progressive.InfoResolved catalogue);
   (1003, Progressive.StreamProgress 10 100); (1004, Progressive.WriteError)].

(** A complete mp3 download. *)
Definition converted : list (Z * Progressive.Event) :=
  [(1001, Progressive.Call); (1002, Progressive.InfoResolved catalogue);
   (1003, Progressive.StreamProgress 100 100); (1004, Progressive.StreamEnd);
   (1005, Progressive.WriteFinish); (1006, Progressive.FfmpegProgress (Some (40 # 1)));
   (1007, Progressive.FfmpegEnd 3145728)].

Definition progressiveAfter (a : Progressive.Args)
    (trace : list (Z * Progressive.Event)) : Progressive.State :=
  match Progressive.run a (Progressive.initial world0) trace with
  | Some o => stateOf o
  | None => Progressive.initial world0
  end.

(** A complete successful run. *)
Definition muxed : list (Z * Mux.Event) :=
  audioDone ++ [(1008, Mux.Progress Mux.VideoLeg 100 100);
                (1009, Mux.StreamEnd Mux.VideoLeg);
                (1010, Mux.WriteFinish Mux.VideoLeg);
                (1011, Mux.FfmpegProgress (Some (50 # 1)));
                (1012, Mux.FfmpegEnd 52428800)].

End Samples.

(** ** Sequences of store operations *)
Module StoreSpec.
Import Schema Storage.

(** One call of a download method of [MemStorage]. *)
Inductive Op :=
| OpCreate (uuid : string) (now : Z) (ins : InsertDownload)
| OpUpdate (now : Z) (key : string) (updates : PartialDownload)
| OpDelete (key : string)
| OpClear.

Definition applyOp (store : gmap string Download) (op : Op) : gmap string Download :=
  match op with
  | OpCreate uuid now ins => snd (createDownload uuid now ins store)
  | OpUpdate now key updates => snd (updateDownload now key updates store)
  | OpDelete key => snd (deleteDownload key store)
  | OpClear => clearDownloads store
  end.

(** The map after a sequence of calls, first call first. *)
Definition applyOps (store : gmap string Download) (ops : list Op)
    : gmap string Download :=
  foldl applyOp store ops.

(** The call does not name the [id] column in an update. *)
Definition idFree (op : Op) : Prop :=
  match op with
  | OpUpdate _ _ updates => p_id updates = None
  | _ => True
  end.

(** Every record is stored under its own id. *)
Definition keyed (store : gmap string Download) : Prop :=
  forall key d, store !! key = Some d -> id d = key.

End StoreSpec.

(** ** The route module: helpers and the handlers that touch the store *)
Module Routes.
Import Schema Runtime.

(** [s.padStart(n, "0")]. *)
Definition padStart (n : nat) (s : string) : string :=
  String.concat "" (repeat "0" (n - String.length s)) +:+ s.

(** [formatDuration(seconds)]. *)
Definition formatDuration (seconds : Z) : string :=
  let hours := seconds / 3600 in
  let minutes := Z.rem seconds 3600 / 60 in
  let secs := Z.rem seconds 60 in
  if 0 <? hours
  then JS.toString hours +:+ ":" +:+ padStart 2 (JS.toString minutes)
       +:+ ":" +:+ padStart 2 (JS.toString secs)
  else JS.toString minutes +:+ ":" +:+ padStart 2 (JS.toString secs).

(** [DownloadRequest]: the two shapes accepted by [downloadRequestSchema]. *)
Inductive DownloadRequest :=
| ProgressiveRequest (videoId title : string)
    (thumbnail duration views author : option string)
    (quality format itag : string)
| MuxRequest (videoId title : string)
    (thumbnail duration views author : option string)
    (quality format videoItag audioItag : string).

(** The object [{ ...downloadData, status: "pending", progress: 0 }]. *)
Definition insertOf (downloadData : DownloadRequest) : InsertDownload :=
  match downloadData with
  | ProgressiveRequest videoId title thumbnail duration views author
      quality format itag =>
      {| i_videoId := videoId; i_title := title; i_thumbnail := thumbnail;
         i_duration := duration; i_views := views; i_author := author;
         i_quality := quality; i_format := format; i_status := "pending";
         i_progress := Some 0; i_filePath := None; i_fileSize := None;
         i_itag := Some itag; i_downloadMethod := "progressive";
         i_videoItag := None; i_audioItag := None |}
  | MuxRequest videoId title thumbnail duration views author
      quality format videoItag audioItag =>
      {| i_videoId := videoId; i_title := title; i_thumbnail := thumbnail;
         i_duration := duration; i_views := views; i_author := author;
         i_quality := quality; i_format := format; i_status := "pending";
         i_progress := Some 0; i_filePath := None; i_fileSize := None;
         i_itag := None; i_downloadMethod := "mux";
         i_videoItag := Some videoItag; i_audioItag := Some audioItag |}
  end.

(** The background call that [POST /api/download] makes after it answered. *)
Inductive Started :=
| StartDownload (a : Progressive.Args)
| StartMuxDownload (a : Mux.Args).

(** [POST /api/download] on a valid body: the record is created and the
    orchestrator of the request's method is started on its id. *)
Definition startRoute (cwd uuid : string) (now : Z) (downloadData : DownloadRequest)
    (w : World) : Download * World * Started :=
  let '(download, store') :=
    Storage.createDownload uuid now (insertOf downloadData) (store w) in
  let w' := {| store := store'; files := files w |} in
  match downloadData with
  | ProgressiveRequest videoId _ _ _ _ _ _ format itag =>
      (download, w',
       StartDownload (Progressive.mkArgs cwd (id download) videoId itag format))
  | MuxRequest videoId _ _ _ _ _ _ format videoItag audioItag =>
      (download, w',
       StartMuxDownload
         (Mux.mkArgs cwd (id download) videoId videoItag audioItag format))
  end.

(** [DELETE /api/download/:id]: the status code of the response and the
    world afterwards. *)
Definition deleteRoute (key : string) (w : World) : Z * World :=
  match Storage.getDownload key (store w) with
  | None => (404, w)
  | Some download =>
      let w1 :=
        match filePath download with
        | Some path =>
            if negb (String.eqb path "") && bool_decide (path ∈ files w)
            then {| store := store w; files := files w ∖ {[path]} |}
            else w
        | None => w
        end in
      (200, {| store := snd (Storage.deleteDownload key (store w1));
               files := files w1 |})
  end.

End Routes.

(** ** The flow of control of the mux orchestrator *)
Module MuxFlowSpec.
Import Schema Runtime Mux.

(** While the function has not returned the job is pending or downloading
    (when it was created [pending]); the mux command only runs while the
    function awaits it, and then the final file is being written. *)
Record MuxFlow (pending : Prop) (a : Args) (s : State) : Prop := {
  f_live : pending -> pc s <> Returned ->
           forall job, store (world s) !! downloadId a = Some job ->
             status job = "pending" \/ status job = "downloading";
  f_done : pending -> pc s = Returned ->
           forall job, store (world s) !! downloadId a = Some job ->
             status job = "completed" \/ status job = "failed";
  f_command : command s = Active ->
              pc s = AwaitMux
              /\ finalFilepath a (outputContainer s) ∈ files (world s)
}.

(** The function has returned and the mux command is not running. *)
Definition settled (s : State) : Prop :=
  pc s = Returned /\ command s <> Active.

End MuxFlowSpec.


(** ** What the runs of [startDownload] keep, whatever the events carry *)
Module ProgressiveFlowSpec.
Import Schema Ytdl Runtime Progressive.

Record ProgShape (a : Args) (s : State) : Prop := {
  ps_early : info s = Idle \/ info s = Active -> plan s = None;
  ps_noplan : plan s = None ->
              stream s = Idle /\ writeStream s = Idle /\ command s = Idle;
  ps_plan : forall p, plan s = Some p ->
            if JS.arrayIncludes audioStyle (format a)
            then exists audioFormat, p = audioPlan a audioFormat
            else p = videoPlan a;
  ps_command : command s <> Idle ->
               stream s = Ended /\ writeStream s = Ended
               /\ exists p, plan s = Some p /\ audioBranch p = true
                            /\ isMP3Conversion p = true;
  ps_converting : command s = Active ->
                  forall p, plan s = Some p -> finalFilepath p ∈ files (world s)
}.

End ProgressiveFlowSpec.

(* ===================================================================== *)
(** * Part II: properties                                                 *)
(* ===================================================================== *)

(** ** The job store *)
Section StoreProperties.
Import Schema Storage.

Lemma spread_frame (existing : Download) (updates : PartialDownload) (now : Z)
    (f : Field) :
  f <> F_updatedAt -> hasKey f updates = false ->
  getField f (spread existing updates now) = getField f existing.
Proof.
  intros Hf Hkey.
  destruct f; simpl in *; try congruence;
    match goal with
    | H : bool_decide (is_Some ?o) = false |- _ =>
        destruct o; [ exfalso; apply bool_decide_eq_false in H; apply H; eauto
                    | reflexivity ]
    end.
Qed.

Lemma updateDownload_present (now : Z) (key : string) (updates : PartialDownload)
    (store : gmap string Download) (existing : Download) :
  store !! key = Some existing ->
  updateDownload now key updates store
  = (Some (spread existing updates now), <[key := spread existing updates now]> store).
Proof. intros H. unfold updateDownload. rewrite H. reflexivity. Qed.

Lemma updateDownload_absent (now : Z) (key : string) (updates : PartialDownload)
    (store : gmap string Download) :
  store !! key = None -> updateDownload now key updates store = (None, store).
Proof. intros H. unfold updateDownload. rewrite H. reflexivity. Qed.

(** C9 (as stated): an update that carries an [id] key replaces the id of
    the stored record, so the id is not retained for every partial-fields
    map. *)
Lemma C9_id_overwritten_by_update :
  ~ (forall (now : Z) (key : string) (updates : PartialDownload)
            (store : gmap string Download) (existing updated : Download),
        store !! key = Some existing ->
        fst (updateDownload now key updates store) = Some updated ->
        id updated = id existing).
Proof.
  intros H.
  specialize (H 2000 "job-1" Samples.renaming Samples.jobs Samples.job
                (spread Samples.job Samples.renaming 2000)).
  assert (Hl : Samples.jobs !! "job-1" = Some Samples.job) by (vm_compute; reflexivity).
  specialize (H Hl).
  rewrite (updateDownload_present _ _ _ _ _ Hl) in H.
  specialize (H eq_refl). vm_compute in H. discriminate H.
Qed.

(** C9 (amended): for every stored job and every partial-fields map without
    an [id] key, [updateDownload] returns and stores a record whose id is
    the id the job had before. *)
Theorem C9_id_retained_without_id_key (now : Z) (key : string)
    (updates : PartialDownload) (store : gmap string Download)
    (existing : Download) :
  store !! key = Some existing ->
  p_id updates = None ->
  exists updated,
    updateDownload now key updates store = (Some updated, <[key := updated]> store)
    /\ id updated = id existing.
Proof.
  intros Hl Hid. exists (spread existing updates now). split.
  - apply updateDownload_present; assumption.
  - simpl. rewrite Hid. reflexivity.
Qed.

Lemma C9_id_retained_witness :
  exists updated,
    updateDownload 2000 "job-1" (Runtime.setProgress 40) Samples.jobs
    = (Some updated, <["job-1" := updated]> Samples.jobs)
    /\ id updated = id Samples.job.
Proof.
  apply (C9_id_retained_without_id_key 2000 "job-1" (Runtime.setProgress 40)
           Samples.jobs Samples.job).
  - vm_compute; reflexivity.
  - reflexivity.
Defined.

(** C10: on a stored job, [updateDownload] returns the merged record and
    stores it under the same key, leaving the other keys of the map alone;
    [updatedAt] is the time of the update, and every other field that is not
    a key of the update keeps its value. On an id that is not stored it
    returns [undefined] and the map is unchanged. *)
Theorem C10_updateDownload_frame (now : Z) (key : string)
    (updates : PartialDownload) (store : gmap string Download) :
  (forall existing, store !! key = Some existing ->
     exists updated,
       updateDownload now key updates store = (Some updated, <[key := updated]> store)
       /\ snd (updateDownload now key updates store) !! key = Some updated
       /\ (forall other, other <> key ->
             snd (updateDownload now key updates store) !! other = store !! other)
       /\ updatedAt updated = Some now
       /\ (forall f, f <> F_updatedAt -> hasKey f updates = false ->
             getField f updated = getField f existing))
  /\ (store !! key = None ->
      updateDownload now key updates store = (None, store)).
Proof.
  split.
  - intros existing Hl. exists (spread existing updates now).
    rewrite (updateDownload_present _ _ _ _ _ Hl). simpl.
    repeat split.
    + apply lookup_insert_eq.
    + intros other Hne. apply lookup_insert_ne. congruence.
    + intros f Hf Hkey. apply spread_frame; assumption.
  - apply updateDownload_absent.
Qed.

Lemma C10_updateDownload_frame_witness :
  (exists updated,
     updateDownload 2000 "job-1" (Runtime.setProgress 40) Samples.jobs
     = (Some updated, <["job-1" := updated]> Samples.jobs)
     /\ updatedAt updated = Some 2000
     /\ getField F_status updated = getField F_status Samples.job)
  /\ updateDownload 2000 "job-9" (Runtime.setProgress 40) Samples.jobs
     = (None, Samples.jobs).
Proof.
  destruct (C10_updateDownload_frame 2000 "job-1" (Runtime.setProgress 40) Samples.jobs)
    as [Hpresent _].
  destruct (C10_updateDownload_frame 2000 "job-9" (Runtime.setProgress 40) Samples.jobs)
    as [_ Habsent].
  split.
  - destruct (Hpresent Samples.job) as (updated & Heq & _ & _ & Hat & Hframe).
    + vm_compute; reflexivity.
    + exists updated. repeat split; try assumption.
      apply Hframe; [ discriminate | reflexivity ].
  - apply Habsent. vm_compute; reflexivity.
Defined.

End StoreProperties.

(** ** Sorting and deduplication *)
Section SortProperties.
Context {A : Type} (cmp : A -> A -> Z).

Lemma insertSorted_Permutation (x : A) (l : list A) :
  Permutation (JS.insertSorted cmp x l) (x :: l).
Proof.
  induction l as [|y l IH]; simpl.
  - reflexivity.
  - destruct (0 <? cmp x y).
    + rewrite IH. apply perm_swap.
    + reflexivity.
Qed.

Lemma sort_Permutation (l : list A) : Permutation (JS.sort cmp l) l.
Proof.
  induction l as [|x l IH]; simpl.
  - reflexivity.
  - rewrite insertSorted_Permutation. apply perm_skip, IH.
Qed.

Lemma head_insertSorted (x y : A) (l : list A) :
  head (JS.insertSorted cmp x (y :: l)) = Some (if 0 <? cmp x y then y else x).
Proof. simpl. destruct (0 <? cmp x y); reflexivity. Qed.

Lemma head_sort_None (l : list A) : head (JS.sort cmp l) = None -> l = [].
Proof.
  intros H. destruct (JS.sort cmp l) as [|y r] eqn:E; [|discriminate].
  apply Permutation_nil. rewrite <- E. apply sort_Permutation.
Qed.

Lemma head_sort_In (l : list A) (f : A) : head (JS.sort cmp l) = Some f -> In f l.
Proof.
  intros H. apply (Permutation_in f (sort_Permutation l)).
  destruct (JS.sort cmp l); simpl in H; [discriminate|].
  injection H as ->. left; reflexivity.
Qed.

End SortProperties.

(** The first element of a list sorted by descending key has the largest key. *)
Lemma head_sort_byBitrate_max (l : list Ytdl.videoFormat) (f : Ytdl.videoFormat) :
  head (JS.sort Resolver.byBitrate l) = Some f ->
  forall g, In g l ->
    JS.orNum (Ytdl.audioBitrate g) 0 <= JS.orNum (Ytdl.audioBitrate f) 0.
Proof.
  revert f. induction l as [|x l IH]; intros f H g Hg.
  - destruct Hg.
  - simpl in H. destruct (JS.sort Resolver.byBitrate l) as [|y r] eqn:E.
    + simpl in H. injection H as <-.
      assert (l = []) as -> by (apply (head_sort_None Resolver.byBitrate); rewrite E; reflexivity).
      destruct Hg as [<-|[]]. lia.
    + rewrite head_insertSorted in H. injection H as <-.
      specialize (IH y eq_refl).
      unfold Resolver.byBitrate in *.
      destruct (0 <? _) eqn:Hc.
      * apply Z.ltb_lt in Hc. destruct Hg as [<-|Hg]; [lia | apply IH, Hg].
      * apply Z.ltb_ge in Hc. destruct Hg as [<-|Hg]; [lia|].
        specialize (IH g Hg). lia.
Qed.

Lemma fromSet_In (x : string) (l : list string) : In x (JS.fromSet l) -> In x l.
Proof.
  induction l as [|y l IH]; simpl; [tauto|].
  intros [->|H]; [left; reflexivity|].
  apply filter_In in H. right. apply IH, H.
Qed.

Lemma fromSet_NoDup (l : list string) : List.NoDup (JS.fromSet l).
Proof.
  induction l as [|x l IH]; simpl.
  - constructor.
  - constructor.
    + rewrite filter_In. intros [_ H].
      rewrite String.eqb_refl in H. discriminate H.
    + apply List.NoDup_filter, IH.
Qed.

(** ** The format resolver *)
Section ResolverProperties.
Import Ytdl Resolver.

Lemma resolveMux_quality (vofs afs : list videoFormat) (q : string) (o : FormatOption) :
  resolveMux vofs afs q = Some o -> o_quality o = q.
Proof.
  unfold resolveMux. intros H.
  repeat match type of H with
         | match ?x with _ => _ end = _ => destruct x; try discriminate H
         | (if ?b then _ else _) = _ => destruct b; try discriminate H
         end;
    injection H as <-; reflexivity.
Qed.

Lemma resolveQuality_quality (formats : list videoFormat) (q : string) (o : FormatOption) :
  resolveQuality formats q = Some o -> o_quality o = q.
Proof.
  unfold resolveQuality. intros H.
  destruct (findAtQuality (progressiveVideoFormats formats) q).
  - injection H as <-. reflexivity.
  - eapply resolveMux_quality, H.
Qed.

Lemma omap_quality_In (formats : list videoFormat) (qs : list string) (q : string) :
  In q (List.map o_quality (omap (resolveQuality formats) qs)) -> In q qs.
Proof.
  induction qs as [|x qs IH]; simpl; [tauto|].
  destruct (resolveQuality formats x) as [o|] eqn:E; simpl.
  - intros [H|H]; [left | right; apply IH, H].
    rewrite <- H. symmetry. eapply resolveQuality_quality, E.
  - intros H. right. apply IH, H.
Qed.

Lemma omap_quality_NoDup (formats : list videoFormat) (qs : list string) :
  List.NoDup qs -> List.NoDup (List.map o_quality (omap (resolveQuality formats) qs)).
Proof.
  induction 1 as [|x qs Hx Hqs IH]; simpl.
  - constructor.
  - destruct (resolveQuality formats x) as [o|] eqn:E; simpl; [|exact IH].
    constructor; [|exact IH].
    rewrite (resolveQuality_quality _ _ _ E).
    intros Hin. apply Hx. apply (omap_quality_In formats), Hin.
Qed.

Lemma allVideoQualities_NoDup (formats : list videoFormat) :
  List.NoDup (allVideoQualities formats).
Proof.
  unfold allVideoQualities.
  eapply Permutation_NoDup.
  - symmetry. apply sort_Permutation.
  - apply fromSet_NoDup.
Qed.

(** C8: whatever the catalogue, no two entries of the video part of the menu
    carry the same quality label. *)
Theorem C8_video_menu_unique_quality (formats : list videoFormat) :
  NoDup (List.map o_quality (processedVideoFormats formats)).
Proof.
  apply NoDup_ListNoDup. unfold processedVideoFormats.
  apply omap_quality_NoDup, allVideoQualities_NoDup.
Qed.

(** C1 (the code at the failing catalogue): with an mp4/avc1 and a webm/vp9
    video-only stream at 1080p and only an Opus audio stream, the resolver
    emits one mux entry with container webm whose video stream is the
    mp4/avc1 stream 137, not the webm stream 248. *)
Lemma C1_fallback_keeps_mp4_video :
  processedVideoFormats [Samples.v137; Samples.v248; Samples.a251]
  = [muxOption "1080p" Samples.v137 Samples.a251 "webm"]
  /\ o_videoItag (muxOption "1080p" Samples.v137 Samples.a251 "webm") = Some "137"
  /\ o_container (muxOption "1080p" Samples.v137 Samples.a251 "webm") = "webm"
  /\ container Samples.v137 = Some "mp4"
  /\ JS.toString (itag Samples.v248) = "248".
Proof. vm_compute. repeat split; reflexivity. Qed.

End ResolverProperties.

(** ** Updates of the job record through [Runtime.update] *)
Section UpdateProperties.
Import Schema Runtime.

Lemma update_lookup (now : Z) (key : string) (u : PartialDownload) (w : World)
    (job : Download) :
  store w !! key = Some job ->
  store (update now key u w) !! key = Some (Storage.spread job u now).
Proof.
  intros H. unfold update, Storage.updateDownload. rewrite H. simpl.
  apply lookup_insert_eq.
Qed.

Lemma update_lookup_None (now : Z) (key : string) (u : PartialDownload) (w : World) :
  store w !! key = None -> update now key u w = w.
Proof.
  intros H. unfold update, Storage.updateDownload. rewrite H. destruct w; reflexivity.
Qed.

Lemma update_files (now : Z) (key : string) (u : PartialDownload) (w : World) :
  files (update now key u w) = files w.
Proof. reflexivity. Qed.

Lemma createFile_store (path : string) (w : World) :
  store (createFile path w) = store w.
Proof. reflexivity. Qed.

Lemma unlinkIfExists_store (path : string) (w : World) :
  store (unlinkIfExists path w) = store w.
Proof. unfold unlinkIfExists. destruct (bool_decide _); reflexivity. Qed.

Lemma unlinkIfExists_files (path : string) (w : World) :
  files (unlinkIfExists path w) = files w ∖ {[path]}.
Proof.
  unfold unlinkIfExists. destruct (bool_decide_reflect (path ∈ files w)); simpl.
  - reflexivity.
  - apply set_eq. intros x. rewrite elem_of_difference, elem_of_singleton.
    split; [|tauto]. intros Hx. split; [assumption|]. intros ->. contradiction.
Qed.

End UpdateProperties.

(** ** Stream selection *)
Section SelectionProperties.
Import Schema Ytdl Runtime.

Lemma startsWith_avc1_not_vp9 (s : string) :
  JS.startsWith s "avc1" = true -> JS.startsWith s "vp9" = false.
Proof.
  unfold JS.startsWith. destruct s as [|c s]; [discriminate|].
  cbn -[ascii_dec].
  destruct (ascii_dec "a"%char c) as [<-|]; [|discriminate].
  intros _. destruct (ascii_dec "v"%char "a"%char); [discriminate|reflexivity].
Qed.

(** C3: once both streams are found, the container kept by the mux
    orchestrator is a function of the two streams' codecs and containers
    alone (any client format yields the same one): avc1 video with mp4a
    audio gives mp4; otherwise two webm streams give webm; opus audio with
    vp9 video gives webm; every remaining combination gives mp4. *)
Theorem C3_mux_container_rederived (now : Z) (a : Mux.Args)
    (formats : list videoFormat) (s : Mux.State)
    (videoFormat audioFormat : videoFormat) :
  List.find (fun f => String.eqb (JS.toString (itag f)) (Mux.videoItag a)) formats
  = Some videoFormat ->
  List.find (fun f => String.eqb (JS.toString (itag f)) (Mux.audioItag a)) formats
  = Some audioFormat ->
  let videoCodec' := JS.orString (videoCodec videoFormat) "" in
  let audioCodec' := JS.orString (audioCodec audioFormat) "" in
  let avcAac := JS.startsWith videoCodec' "avc1" && JS.includes audioCodec' "mp4a" in
  let bothWebm := JS.isStr (container videoFormat) "webm"
                  && JS.isStr (container audioFormat) "webm" in
  let opusVp9 := JS.includes audioCodec' "opus" && JS.startsWith videoCodec' "vp9" in
  let chosen := Mux.outputContainer (Mux.onInfo now a formats s) in
  (forall hint : string,
      Mux.outputContainer
        (Mux.onInfo now
           (Mux.mkArgs (Mux.cwd a) (Mux.downloadId a) (Mux.videoId a)
                       (Mux.videoItag a) (Mux.audioItag a) hint)
           formats s)
      = chosen)
  /\ (avcAac = true -> chosen = "mp4")
  /\ (avcAac = false -> bothWebm = true -> chosen = "webm")
  /\ (opusVp9 = true -> chosen = "webm")
  /\ (avcAac = false -> bothWebm = false -> opusVp9 = false -> chosen = "mp4").
Proof.
  intros Hv Ha. cbv zeta. unfold Mux.onInfo. simpl.
  rewrite Hv, Ha. simpl. unfold Mux.deriveOutputContainer.
  repeat split.
  - intros ->. reflexivity.
  - intros -> ->. reflexivity.
  - intros H. apply andb_true_iff in H as [Ho Hp].
    destruct (JS.startsWith _ "avc1") eqn:Havc.
    + apply startsWith_avc1_not_vp9 in Havc. congruence.
    + simpl. rewrite Ho, Hp. simpl.
      destruct (_ && _); reflexivity.
  - intros -> -> ->. reflexivity.
Qed.

Lemma C3_mux_container_witness :
  Mux.outputContainer
    (Mux.onInfo 2000 (Mux.mkArgs "/srv" "job-1" "dQw4w9WgXcQ" "137" "140" "webm")
       [Samples.v137; Samples.v248; Samples.a140; Samples.a251]
       (Mux.initial Samples.world0))
  = "mp4".
Proof.
  refine (proj1 (proj2
    (C3_mux_container_rederived 2000
       (Mux.mkArgs "/srv" "job-1" "dQw4w9WgXcQ" "137" "140" "webm")
       [Samples.v137; Samples.v248; Samples.a140; Samples.a251]
       (Mux.initial Samples.world0) Samples.v137 Samples.a140 _ _)) _);
    reflexivity.
Defined.

Lemma selectAudioFormat_None (formats : list videoFormat) (itag' : string) :
  Progressive.selectAudioFormat formats itag' = None <->
  (forall g, In g formats -> Progressive.isAudioOnly g = false).
Proof.
  unfold Progressive.selectAudioFormat, Resolver.orElse. split.
  - intros H g Hg.
    destruct (List.find _ formats) eqn:E1; [discriminate|].
    destruct (head _) eqn:E2; [discriminate|].
    apply (find_none _ _ H g Hg).
  - intros H.
    destruct (List.find _ formats) as [f|] eqn:E1.
    { apply find_some in E1 as [Hin Hp]. specialize (H f Hin).
      unfold Progressive.isAudioOnly in H.
      rewrite <- andb_assoc in Hp. apply andb_true_iff in Hp as [_ Hp]. congruence. }
    destruct (head _) as [f|] eqn:E2.
    { apply head_sort_In, filter_In in E2 as [Hin Hp].
      specialize (H f Hin). congruence. }
    destruct (List.find Progressive.isAudioOnly formats) as [f|] eqn:E3; [|reflexivity].
    apply find_some in E3 as [Hin Hp]. specialize (H f Hin). congruence.
Qed.

(** C7: for an audio-style target format the stream is chosen as follows.
    If some audio-only stream has the requested id, such a stream is chosen;
    if none has, but audio-only streams exist, an audio-only stream of the
    highest bitrate is chosen; nothing is chosen exactly when the catalogue
    has no audio-only stream. When a stream is chosen the fetch starts on it,
    and when nothing is chosen the job is marked failed with progress 0. *)
Theorem C7_audio_stream_selection (now : Z) (a : Progressive.Args)
    (formats : list videoFormat) (s : Progressive.State) :
  JS.arrayIncludes Progressive.audioStyle (Progressive.format a) = true ->
  let exactly f :=
    JS.toString (itag f) = Progressive.itag a /\ Progressive.isAudioOnly f = true in
  let chosen := Progressive.selectAudioFormat formats (Progressive.itag a) in
  let s' := Progressive.onInfo now a formats s in
  ((exists g, In g formats /\ exactly g) ->
     exists f, chosen = Some f /\ In f formats /\ exactly f)
  /\ ((forall g, In g formats -> ~ exactly g) ->
      (exists g, In g formats /\ Progressive.isAudioOnly g = true) ->
      exists f, chosen = Some f /\ In f formats /\ Progressive.isAudioOnly f = true
                /\ forall g, In g formats -> Progressive.isAudioOnly g = true ->
                     JS.orNum (audioBitrate g) 0 <= JS.orNum (audioBitrate f) 0)
  /\ (chosen = None <-> forall g, In g formats -> Progressive.isAudioOnly g = false)
  /\ (forall f, chosen = Some f ->
        Progressive.plan s' = Some (Progressive.audioPlan a f)
        /\ Progressive.stream s' = Active
        /\ store (Progressive.world s') = store (Progressive.world s))
  /\ (chosen = None ->
        s' = Progressive.catchAll now a s
        /\ forall job, store (Progressive.world s) !! Progressive.downloadId a = Some job ->
             exists job', store (Progressive.world s') !! Progressive.downloadId a = Some job'
                          /\ status job' = "failed" /\ progress job' = Some 0).
Proof.
  intros Haudio. cbv zeta.
  split; [|split; [|split; [|split]]].
  - intros (g & Hg & Hid & Haud).
    unfold Progressive.selectAudioFormat, Resolver.orElse.
    destruct (List.find _ formats) as [f|] eqn:E1.
    + exists f. apply find_some in E1 as [Hin Hp].
      rewrite <- andb_assoc in Hp. apply andb_true_iff in Hp as [Hi Hp].
      apply String.eqb_eq in Hi. repeat split; assumption.
    + exfalso. pose proof (find_none _ _ E1 g Hg) as Hn. simpl in Hn.
      rewrite Hid, String.eqb_refl in Hn. unfold Progressive.isAudioOnly in Haud.
      simpl in Hn. congruence.
  - intros Hno (g & Hg & Haud).
    unfold Progressive.selectAudioFormat, Resolver.orElse.
    destruct (List.find _ formats) as [f|] eqn:E1.
    { exfalso. apply find_some in E1 as [Hin Hp].
      rewrite <- andb_assoc in Hp. apply andb_true_iff in Hp as [Hi Hp].
      apply String.eqb_eq in Hi. apply (Hno f Hin). split; assumption. }
    destruct (head _) as [f|] eqn:E2.
    + exists f. pose proof (head_sort_In _ _ _ E2) as Hf.
      apply filter_In in Hf as [Hin Hp]. repeat split; try assumption.
      intros h Hh Hha. apply (head_sort_byBitrate_max _ _ E2).
      apply filter_In. split; assumption.
    + exfalso. apply head_sort_None in E2.
      assert (Hin : In g (List.filter Progressive.isAudioOnly formats))
        by (apply filter_In; split; assumption).
      rewrite E2 in Hin. destruct Hin.
  - apply selectAudioFormat_None.
  - intros f Hf. unfold Progressive.onInfo. rewrite Haudio, Hf. simpl.
    repeat split; reflexivity.
  - intros Hnone. unfold Progressive.onInfo. rewrite Haudio, Hnone.
    split; [reflexivity|].
    intros job Hjob. eexists. split.
    + unfold Progressive.catchAll. simpl. apply update_lookup, Hjob.
    + split; reflexivity.
Qed.

Lemma C7_audio_stream_selection_witness :
  Progressive.selectAudioFormat
    [Samples.p22; Samples.a140; Samples.a251] "140" = Some Samples.a140
  /\ Progressive.selectAudioFormat
       [Samples.p22; Samples.a140; Samples.a251] "999" = Some Samples.a251
  /\ (Progressive.selectAudioFormat [Samples.p22] "140" = None <->
      forall g, In g [Samples.p22] -> Progressive.isAudioOnly g = false).
Proof.
  split; [reflexivity | split; [reflexivity|]].
  exact (proj1 (proj2 (proj2
    (C7_audio_stream_selection 2000
       (Progressive.mkArgs "/srv" "job-1" "dQw4w9WgXcQ" "140" "mp3")
       [Samples.p22] (Progressive.initial Samples.world0) eq_refl)))).
Defined.

End SelectionProperties.

(** ** Numbers: rounding to the nearest double

    [JS.nearest] is checked against the definition of the IEEE-754 rounding
    it stands for: its value is a double ([nearest_representable]), no
    double is closer to the exact result ([nearest_closest]), and it never
    crosses a double ([nearest_le], [nearest_ge]). The bounds and the error
    of the progress computations follow from these. *)
Section Numbers.
Import JS.

Lemma two_pos (e : Z) : (0 < two e)%Q.
Proof. apply Qpower_0_lt. reflexivity. Qed.

Lemma two_plus (a b : Z) : (two (a + b) == two a * two b)%Q.
Proof. apply Qpower_plus. discriminate. Qed.

Lemma two_Z (k : Z) : 0 <= k -> (two k == inject_Z (2 ^ k))%Q.
Proof. intros Hk. unfold two. rewrite (Zpower_Qpower 2 k Hk). reflexivity. Qed.

Lemma two_le (a b : Z) : a <= b -> (two a <= two b)%Q.
Proof. intros H. apply Qpower_le_compat_l; [exact H|]. discriminate. Qed.

Lemma binade_le (x : Q) : (0 < x)%Q -> (two (binade x) <= x)%Q.
Proof.
  intros Hx. unfold binade.
  destruct (Qle_bool (two (Z.log2 (Qnum x) - Z.log2 (Z.pos (Qden x)))) x) eqn:E.
  - apply Qle_bool_iff. exact E.
  - clear E. destruct x as [n d]. cbn [Qnum Qden].
    assert (Hn : 0 < n) by (unfold Qlt in Hx; cbn in Hx; lia).
    pose proof (Z.log2_spec n Hn) as [Ha _].
    pose proof (Z.log2_spec (Z.pos d) (Pos2Z.is_pos d)) as [_ Hb].
    pose proof (Z.log2_nonneg n) as Ha0.
    pose proof (Z.log2_nonneg (Z.pos d)) as Hb0.
    set (a := Z.log2 n) in *. set (b := Z.log2 (Z.pos d)) in *.
    replace (a - b - 1) with (a - (b + 1)) by lia.
    unfold two. rewrite Qpower_minus by discriminate.
    fold (two a). fold (two (b + 1)).
    rewrite (two_Z a Ha0), (two_Z (b + 1)) by lia.
    rewrite (Qmake_Qdiv n d).
    assert (Hp : 0 < 2 ^ (b + 1)) by (apply Z.pow_pos_nonneg; lia).
    apply Qle_shift_div_r; [rewrite <- (Zlt_Qlt 0); exact Hp|].
    unfold Qdiv. rewrite <- Qmult_assoc, (Qmult_comm (/ _)), Qmult_assoc.
    apply Qle_shift_div_l; [rewrite <- (Zlt_Qlt 0); lia|].
    rewrite <- !inject_Z_mult, <- Zle_Qle. nia.
Qed.

Lemma roundHalfEven_cases (t : Q) :
  roundHalfEven t = Qfloor t \/ roundHalfEven t = Qfloor t + 1.
Proof.
  unfold roundHalfEven. destruct (_ ?= _)%Q; [destruct (Z.even _)| |]; auto.
Qed.

Lemma roundHalfEven_le (t : Q) (k : Z) : (t <= inject_Z k)%Q -> roundHalfEven t <= k.
Proof.
  intros H. pose proof (Qfloor_le t) as Hf.
  assert (Hfk : Qfloor t <= k) by (rewrite Zle_Qle; lra).
  unfold roundHalfEven.
  destruct (Qcompare_spec (t - inject_Z (Qfloor t)) (1 # 2)) as [E|E|E].
  - destruct (Z.even (Qfloor t)); [exact Hfk|].
    assert (Qfloor t < k); [|lia]. rewrite Zlt_Qlt. lra.
  - exact Hfk.
  - assert (Qfloor t < k); [|lia]. rewrite Zlt_Qlt. lra.
Qed.

Lemma roundHalfEven_ge (t : Q) (k : Z) : (inject_Z k <= t)%Q -> k <= roundHalfEven t.
Proof.
  intros H.
  assert (Hfk : k <= Qfloor t).
  { rewrite <- (Qfloor_Z k). apply Qfloor_resp_le. exact H. }
  destruct (roundHalfEven_cases t) as [-> | ->]; lia.
Qed.

Lemma roundHalfEven_near (t : Q) :
  (t - (1 # 2) <= inject_Z (roundHalfEven t))%Q
  /\ (inject_Z (roundHalfEven t) <= t + (1 # 2))%Q.
Proof.
  pose proof (Qfloor_le t) as Hf. pose proof (Qlt_floor t) as Hc.
  rewrite inject_Z_plus in Hc. change (inject_Z 1) with 1%Q in Hc.
  unfold roundHalfEven.
  destruct (Qcompare_spec (t - inject_Z (Qfloor t)) (1 # 2)) as [E|E|E].
  - destruct (Z.even (Qfloor t)).
    + split; lra.
    + rewrite inject_Z_plus. change (inject_Z 1) with 1%Q. split; lra.
  - split; lra.
  - rewrite inject_Z_plus. change (inject_Z 1) with 1%Q. split; lra.
Qed.

(** A multiple of the unit in the last place bounds the rounded value as it
    bounds the value. *)
Lemma nearest_le_multiple (x : Q) (k : Z) :
  (x <= inject_Z k * two (ulp x))%Q -> (nearest x <= inject_Z k * two (ulp x))%Q.
Proof.
  intros H. unfold nearest. pose proof (two_pos (ulp x)) as Hu.
  apply Qmult_le_compat_r; [|lra].
  rewrite <- Zle_Qle. apply roundHalfEven_le.
  apply Qle_shift_div_r; assumption.
Qed.

Lemma nearest_ge_multiple (x : Q) (k : Z) :
  (inject_Z k * two (ulp x) <= x)%Q -> (inject_Z k * two (ulp x) <= nearest x)%Q.
Proof.
  intros H. unfold nearest. pose proof (two_pos (ulp x)) as Hu.
  apply Qmult_le_compat_r; [|lra].
  rewrite <- Zle_Qle. apply roundHalfEven_ge.
  apply Qle_shift_div_l; assumption.
Qed.

Lemma multiple_of_ulp (m eb e : Z) :
  e <= eb -> (inject_Z m * two eb == inject_Z (m * 2 ^ (eb - e)) * two e)%Q.
Proof.
  intros H. replace eb with ((eb - e) + e) at 1 by lia.
  rewrite two_plus, (two_Z (eb - e)) by lia. rewrite inject_Z_mult. ring.
Qed.

Lemma ulp_binade (x : Q) :
  ~ (x == 0)%Q -> -1074 < ulp x -> (two (ulp x + 52) <= Qabs x)%Q.
Proof.
  intros Hx He. unfold ulp in *.
  assert (Hb : Z.max (binade (Qabs x) - 52) (-1074) = binade (Qabs x) - 52) by lia.
  rewrite Hb. replace (binade (Qabs x) - 52 + 52) with (binade (Qabs x)) by lia.
  apply binade_le.
  destruct (Qlt_le_dec 0 x) as [Hp|Hp]; [rewrite Qabs_pos; lra|].
  destruct (Qlt_le_dec x 0) as [Hn|Hn]; [rewrite Qabs_neg; lra|].
  exfalso. apply Hx. lra.
Qed.

Lemma small_representable (x b : Q) :
  representable b -> ~ (x == 0)%Q ->
  (exists k, b == inject_Z k * two (ulp x))%Q
  \/ ((- two (ulp x + 52) <= b)%Q /\ (b <= two (ulp x + 52))%Q
      /\ (two (ulp x + 52) <= Qabs x)%Q).
Proof.
  intros (m & eb & Hm & Heb & Hb) Hx.
  destruct (Z_le_gt_dec (ulp x) eb) as [Hle|Hgt].
  - left. exists (m * 2 ^ (eb - ulp x)). rewrite Hb. apply multiple_of_ulp. exact Hle.
  - right. pose proof (ulp_binade x Hx ltac:(lia)) as Hbin.
    assert (Hpow : (inject_Z (2 ^ 53) * two eb <= two (ulp x + 52))%Q).
    { rewrite <- (two_Z 53) by lia. rewrite <- two_plus. apply two_le. lia. }
    pose proof (two_pos eb) as Hpos.
    assert (H1 : (inject_Z m * two eb <= inject_Z (2 ^ 53) * two eb)%Q).
    { apply Qmult_le_compat_r; [rewrite <- Zle_Qle; lia | lra]. }
    assert (H2 : (inject_Z (- 2 ^ 53) * two eb <= inject_Z m * two eb)%Q).
    { apply Qmult_le_compat_r; [rewrite <- Zle_Qle; lia | lra]. }
    rewrite inject_Z_opp in H2.
    split; [|split; [|exact Hbin]]; rewrite Hb; lra.
Qed.

Lemma binade_multiple (e : Z) : (two (e + 52) == inject_Z (2 ^ 52) * two e)%Q.
Proof. rewrite Z.add_comm, two_plus, (two_Z 52) by lia. reflexivity. Qed.

Lemma nearest_zero (x : Q) : (x == 0)%Q -> (nearest x == 0)%Q.
Proof.
  intros Hx. pose proof (two_pos (ulp x)) as Hu.
  pose proof (nearest_le_multiple x 0) as H1. pose proof (nearest_ge_multiple x 0) as H2.
  change (inject_Z 0) with 0%Q in *. lra.
Qed.

Theorem nearest_le (x b : Q) : representable b -> (x <= b)%Q -> (nearest x <= b)%Q.
Proof.
  intros Hb Hxb.
  destruct (Qeq_dec x 0) as [Hx|Hx]; [rewrite (nearest_zero x Hx); lra|].
  destruct (small_representable x b Hb Hx) as [[k Hk]|(Hlo & Hhi & Hbin)].
  - rewrite Hk in *. apply nearest_le_multiple. exact Hxb.
  - rewrite binade_multiple in *.
    destruct (Qlt_le_dec 0 x) as [Hpos|Hneg].
    + rewrite Qabs_pos in Hbin by lra.
      assert (Hbx : (b == inject_Z (2 ^ 52) * two (ulp x))%Q) by lra.
      rewrite Hbx in *. apply nearest_le_multiple. exact Hxb.
    + rewrite Qabs_neg in Hbin by lra.
      assert (Hx' : (x <= inject_Z (- 2 ^ 52) * two (ulp x))%Q).
      { rewrite inject_Z_opp. lra. }
      apply nearest_le_multiple in Hx'. rewrite inject_Z_opp in Hx'. lra.
Qed.

Theorem nearest_ge (x b : Q) : representable b -> (b <= x)%Q -> (b <= nearest x)%Q.
Proof.
  intros Hb Hxb.
  destruct (Qeq_dec x 0) as [Hx|Hx]; [rewrite (nearest_zero x Hx); lra|].
  destruct (small_representable x b Hb Hx) as [[k Hk]|(Hlo & Hhi & Hbin)].
  - rewrite Hk in *. apply nearest_ge_multiple. exact Hxb.
  - rewrite binade_multiple in *.
    destruct (Qlt_le_dec 0 x) as [Hpos|Hneg].
    + rewrite Qabs_pos in Hbin by lra.
      apply nearest_ge_multiple in Hbin. lra.
    + rewrite Qabs_neg in Hbin by lra.
      assert (Hbx : (b == inject_Z (- 2 ^ 52) * two (ulp x))%Q)
        by (rewrite inject_Z_opp; lra).
      rewrite Hbx in *. apply nearest_ge_multiple. exact Hxb.
Qed.

Lemma integer_representable (k : Z) : - 2 ^ 53 <= k <= 2 ^ 53 -> representable (inject_Z k).
Proof.
  intros Hk. exists k, 0. split; [exact Hk|]. split; [lia|].
  unfold two. rewrite Qpower_0_r. ring.
Qed.

Lemma rnd_within (x : Q) (lo hi : Z) :
  - 2 ^ 53 <= lo -> hi <= 2 ^ 53 ->
  (inject_Z lo <= x)%Q -> (x <= inject_Z hi)%Q -> within lo hi (rnd x).
Proof.
  intros Hlo Hhi Hx1 Hx2.
  assert (Hle : lo <= hi) by (rewrite Zle_Qle; lra).
  pose proof (nearest_ge x (inject_Z lo) (integer_representable lo ltac:(lia)) Hx1) as H1.
  pose proof (nearest_le x (inject_Z hi) (integer_representable hi ltac:(lia)) Hx2) as H2.
  unfold rnd.
  assert (Hbig : (inject_Z (2 ^ 53) < two 1024)%Q).
  { rewrite <- (two_Z 53) by lia. apply Qpower_lt_compat_l; [lia|reflexivity]. }
  assert (Hhi' : (inject_Z hi <= inject_Z (2 ^ 53))%Q) by (rewrite <- Zle_Qle; lia).
  assert (Hlo' : (inject_Z (- 2 ^ 53) <= inject_Z lo)%Q) by (rewrite <- Zle_Qle; lia).
  rewrite inject_Z_opp in Hlo'.
  destruct (Qle_bool (two 1024) (Qabs (nearest x))) eqn:E.
  - exfalso. apply Qle_bool_iff in E. revert E. apply Qabs_case; intros; lra.
  - exists (Qred (nearest x)). split; [reflexivity|]. rewrite Qred_correct. split; assumption.
Qed.

Lemma binade_lt (x : Q) : (0 < x)%Q -> (x < two (binade x + 1))%Q.
Proof.
  intros Hx. unfold binade.
  destruct (Qle_bool (two (Z.log2 (Qnum x) - Z.log2 (Z.pos (Qden x)))) x) eqn:E.
  - clear E. destruct x as [n d]. cbn [Qnum Qden].
    assert (Hn : 0 < n) by (unfold Qlt in Hx; cbn in Hx; lia).
    pose proof (Z.log2_spec n Hn) as [_ Ha].
    pose proof (Z.log2_spec (Z.pos d) (Pos2Z.is_pos d)) as [Hb _].
    pose proof (Z.log2_nonneg n) as Ha0.
    pose proof (Z.log2_nonneg (Z.pos d)) as Hb0.
    set (a := Z.log2 n) in *. set (b := Z.log2 (Z.pos d)) in *.
    replace (a - b + 1) with ((a + 1) - b) by lia.
    unfold two. rewrite Qpower_minus by discriminate.
    fold (two (a + 1)). fold (two b).
    rewrite (two_Z (a + 1)), (two_Z b) by lia.
    rewrite (Qmake_Qdiv n d).
    assert (Hp : 0 < 2 ^ b) by (apply Z.pow_pos_nonneg; lia).
    replace (Z.succ a) with (a + 1) in Ha by lia.
    apply Qlt_shift_div_l; [rewrite <- (Zlt_Qlt 0); exact Hp|].
    unfold Qdiv. rewrite <- Qmult_assoc, (Qmult_comm (/ _)), Qmult_assoc.
    apply Qlt_shift_div_r; [rewrite <- (Zlt_Qlt 0); lia|].
    rewrite <- !inject_Z_mult, <- Zlt_Qlt. nia.
  - replace (Z.log2 (Qnum x) - Z.log2 (Z.pos (Qden x)) - 1 + 1)
      with (Z.log2 (Qnum x) - Z.log2 (Z.pos (Qden x))) by lia.
    apply Qnot_le_lt. intros H. apply Qle_bool_iff in H. congruence.
Qed.

Lemma Qabs_pos_lt (x : Q) : ~ (x == 0)%Q -> (0 < Qabs x)%Q.
Proof.
  intros Hx.
  destruct (Qlt_le_dec 0 x) as [Hp|Hp]; [rewrite Qabs_pos; lra|].
  destruct (Qlt_le_dec x 0) as [Hn|Hn]; [rewrite Qabs_neg; lra|].
  exfalso. apply Hx. lra.
Qed.

(** The rounded value is a double: 53 bits of mantissa at an exponent in range. *)
Theorem nearest_representable (x : Q) : representable (nearest x).
Proof.
  exists (roundHalfEven (x / two (ulp x))), (ulp x).
  split; [|split; [unfold ulp; lia | reflexivity]].
  pose proof (two_pos (ulp x)) as Hu.
  assert (Hb : (Qabs x <= inject_Z (2 ^ 53) * two (ulp x))%Q).
  { destruct (Qeq_dec x 0) as [Hx|Hx].
    - assert (H0 : (0 <= inject_Z (2 ^ 53) * two (ulp x))%Q).
      { apply Qmult_le_0_compat; [|lra]. rewrite <- (Zle_Qle 0). lia. }
      apply Qabs_case; intros; lra.
    - pose proof (binade_lt (Qabs x) (Qabs_pos_lt x Hx)) as Hlt.
      rewrite <- (two_Z 53) by lia. rewrite <- two_plus.
      apply Qlt_le_weak. eapply Qlt_le_trans; [exact Hlt|].
      apply two_le. unfold ulp. lia. }
  split.
  - apply roundHalfEven_ge. apply Qle_shift_div_l; [exact Hu|].
    rewrite inject_Z_opp. revert Hb. apply Qabs_case; intros; lra.
  - apply roundHalfEven_le. apply Qle_shift_div_r; [exact Hu|].
    revert Hb. apply Qabs_case; intros; lra.
Qed.

Lemma roundHalfEven_closest (t : Q) (k : Z) :
  (Qabs (inject_Z (roundHalfEven t) - t) <= Qabs (inject_Z k - t))%Q.
Proof.
  pose proof (Qfloor_le t) as Hf. pose proof (Qlt_floor t) as Hc.
  rewrite inject_Z_plus in Hc. change (inject_Z 1) with 1%Q in Hc.
  assert (Hk : (inject_Z k <= inject_Z (Qfloor t))%Q
               \/ (inject_Z (Qfloor t) + 1 <= inject_Z k)%Q).
  { destruct (Z_le_gt_dec k (Qfloor t)) as [H|H].
    - left. rewrite <- Zle_Qle. exact H.
    - right. change 1%Q with (inject_Z 1). rewrite <- inject_Z_plus, <- Zle_Qle. lia. }
  unfold roundHalfEven.
  destruct (Qcompare_spec (t - inject_Z (Qfloor t)) (1 # 2)) as [E|E|E];
    [destruct (Z.even (Qfloor t))| |];
    try (rewrite inject_Z_plus; change (inject_Z 1) with 1%Q);
    destruct Hk; do 2 (apply Qabs_case; intros); lra.
Qed.

(** No double is closer to the value than the rounded one. *)
Theorem nearest_closest (x b : Q) :
  representable b -> (Qabs (nearest x - x) <= Qabs (b - x))%Q.
Proof.
  intros Hb. pose proof (two_pos (ulp x)) as Hu.
  assert (Hmult : forall k,
             (Qabs (nearest x - x) <= Qabs (inject_Z k * two (ulp x) - x))%Q).
  { intros k. pose proof (roundHalfEven_closest (x / two (ulp x)) k) as H.
    assert (E1 : (nearest x - x
                  == (inject_Z (roundHalfEven (x / two (ulp x))) - x / two (ulp x))
                     * two (ulp x))%Q) by (unfold nearest; field; lra).
    assert (E2 : (inject_Z k * two (ulp x) - x
                  == (inject_Z k - x / two (ulp x)) * two (ulp x))%Q) by (field; lra).
    rewrite E1, E2, !Qabs_Qmult, (Qabs_pos (two (ulp x))) by lra.
    apply Qmult_le_compat_r; [exact H|lra]. }
  destruct (Qeq_dec x 0) as [Hx|Hx].
  { rewrite (nearest_zero x Hx), Hx. apply Qabs_case; intros; apply Qabs_case; intros; lra. }
  destruct (small_representable x b Hb Hx) as [[k Hk]|(Hlo & Hhi & Hbin)].
  - rewrite Hk. apply Hmult.
  - rewrite binade_multiple in *.
    destruct (Qlt_le_dec 0 x) as [Hpos|Hneg].
    + rewrite Qabs_pos in Hbin by lra.
      eapply Qle_trans; [apply (Hmult (2 ^ 52))|].
      do 2 (apply Qabs_case; intros); lra.
    + rewrite Qabs_neg in Hbin by lra.
      eapply Qle_trans; [apply (Hmult (- 2 ^ 52))|].
      rewrite inject_Z_opp.
      do 2 (apply Qabs_case; intros); lra.
Qed.

(** At a tie the integer picked is the even one. *)
Lemma roundHalfEven_tie (t : Q) :
  (t - inject_Z (Qfloor t) == 1 # 2)%Q -> Z.even (roundHalfEven t) = true.
Proof.
  intros H. unfold roundHalfEven. apply Qeq_alt in H. rewrite H.
  destruct (Z.even (Qfloor t)) eqn:E; [exact E|].
  rewrite Z.even_add, E. reflexivity.
Qed.

(** The rounding at values whose doubles are well known: 0.1, 0.1 + 0.2
    (which is 0.30000000000000004), 1/3, and two integers past 2^53 that
    lie halfway between two doubles. *)
Lemma rnd_examples :
  literal (1 # 10) = Finite (3602879701896397 # 36028797018963968)
  /\ add (literal (1 # 10)) (literal (2 # 10))
     = Finite (1351079888211149 # 4503599627370496)
  /\ div (num 1) 3 = Finite (6004799503160661 # 18014398509481984)
  /\ rnd (inject_Z (2 ^ 53 + 1)) = num (2 ^ 53)
  /\ rnd (inject_Z (2 ^ 53 + 3)) = num (2 ^ 53 + 4).
Proof. vm_compute. repeat split; reflexivity. Qed.

Lemma nearest_half_ulp (x : Q) :
  (Qabs (nearest x - x) <= two (ulp x - 1))%Q.
Proof.
  pose proof (two_pos (ulp x)) as Hu.
  pose proof (roundHalfEven_near (x / two (ulp x))) as [H1 H2].
  assert (E1 : (nearest x - x
                == (inject_Z (roundHalfEven (x / two (ulp x))) - x / two (ulp x))
                   * two (ulp x))%Q) by (unfold nearest; field; lra).
  assert (E2 : (two (ulp x - 1) == (1 # 2) * two (ulp x))%Q).
  { unfold Z.sub. rewrite Z.add_comm, two_plus. reflexivity. }
  rewrite E1, E2, Qabs_Qmult, (Qabs_pos (two (ulp x))) by lra.
  apply Qmult_le_compat_r; [|lra].
  apply Qabs_case; intros; lra.
Qed.

(** The error of one operation whose exact result lies in [0, 2^k]. *)
Lemma rnd_error (y z : Q) (k : Z) :
  rnd y = Finite z -> (0 <= y)%Q -> (y <= two k)%Q -> -1022 <= k ->
  (Qabs (z - y) <= two (k - 53))%Q.
Proof.
  intros Hz H0 Hk Hmin.
  assert (Ez : (z == nearest y)%Q).
  { unfold rnd in Hz. destruct (Qle_bool _ _); [discriminate|].
    assert (E : z = Qred (nearest y)) by congruence.
    rewrite E. apply Qred_correct. }
  rewrite Ez.
  destruct (Qeq_dec y 0) as [Hy|Hy].
  { rewrite (nearest_zero y Hy), Hy. pose proof (two_pos (k - 53)).
    apply Qabs_case; intros; lra. }
  eapply Qle_trans; [apply nearest_half_ulp|]. apply two_le.
  assert (Hb : binade (Qabs y) <= k).
  { apply (Qpower_le_compat_l_inv 2); [|reflexivity].
    fold (two (binade (Qabs y))). fold (two k).
    eapply Qle_trans; [apply binade_le, Qabs_pos_lt, Hy|].
    rewrite Qabs_pos by exact H0. exact Hk. }
  unfold ulp. lia.
Qed.

End Numbers.

(** ** Rounding *)
Section Rounding.
Lemma Math_round_bounds (x : Q) (lo hi : Z) :
  (inject_Z lo <= x)%Q -> (x <= inject_Z hi)%Q -> lo <= JS.Math_round x <= hi.
Proof.
  intros Hlo Hhi. unfold JS.Math_round. split.
  - rewrite <- (Qfloor_Z lo). apply Qfloor_resp_le. lra.
  - apply Z.lt_succ_r. rewrite Zlt_Qlt.
    eapply Qle_lt_trans; [apply Qfloor_le|].
    replace (Z.succ hi) with (hi + 1) by lia.
    rewrite inject_Z_plus. change (inject_Z 1) with 1%Q. lra.
Qed.

Lemma rounded_within (lo hi : Z) (n : JS.Number) :
  JS.within lo hi n -> exists p, JS.rounded n = Some p /\ lo <= p <= hi.
Proof.
  intros (y & -> & H1 & H2). exists (JS.Math_round y). split; [reflexivity|].
  apply Math_round_bounds; assumption.
Qed.

(** [Math.round] picks the integer within a half of the value, the upper
    one at a tie. *)
Lemma Math_round_spec (x : Q) (p : Z) :
  JS.Math_round x = p <-> (inject_Z p - (1 # 2) <= x)%Q /\ (x < inject_Z p + (1 # 2))%Q.
Proof.
  unfold JS.Math_round.
  pose proof (Qfloor_le (x + (1 # 2))) as Hf. pose proof (Qlt_floor (x + (1 # 2))) as Hc.
  rewrite inject_Z_plus in Hc. change (inject_Z 1) with 1%Q in Hc.
  split.
  - intros <-. split; lra.
  - intros [H1 H2].
    assert (Hle : p <= Qfloor (x + (1 # 2))).
    { rewrite <- (Qfloor_Z p). apply Qfloor_resp_le. lra. }
    assert (Hlt : Qfloor (x + (1 # 2)) < p + 1).
    { rewrite Zlt_Qlt, inject_Z_plus. change (inject_Z 1) with 1%Q. lra. }
    lia.
Qed.

Lemma ratio_within (d t : Z) :
  0 <= d <= t -> 0 < t -> JS.within 0 1 (Runtime.ratio d t).
Proof.
  intros Hd Ht. unfold Runtime.ratio, JS.div, JS.num.
  assert (Hpos : (0 < inject_Z t)%Q) by (rewrite <- (Zlt_Qlt 0); exact Ht).
  destruct (Qeq_bool (inject_Z t) 0) eqn:E.
  - apply Qeq_bool_iff in E. lra.
  - apply rnd_within; try lia.
    + apply Qle_shift_div_l; [exact Hpos|].
      rewrite <- inject_Z_mult, <- Zle_Qle. lia.
    + apply Qle_shift_div_r; [exact Hpos|].
      rewrite <- inject_Z_mult, <- Zle_Qle. lia.
Qed.

Lemma scaled_within (r : JS.Number) (scale : Z) :
  0 <= scale <= 2 ^ 53 -> JS.within 0 1 r ->
  JS.within 0 scale (JS.mul r (JS.num scale)).
Proof.
  intros Hs (y & -> & H0 & H1). cbn [JS.mul JS.num].
  assert (Hsc : (0 <= inject_Z scale)%Q) by (rewrite <- (Zle_Qle 0); lia).
  change (inject_Z 0) with 0%Q in H0. change (inject_Z 1) with 1%Q in H1.
  apply rnd_within; try lia.
  - change (inject_Z 0) with 0%Q. apply Qmult_le_0_compat; assumption.
  - rewrite <- (Qmult_1_l (inject_Z scale)) at 2.
    apply Qmult_le_compat_r; assumption.
Qed.
(** The two phases driven by the tool's [percent]: [base + percent * step]
    stays between [base] and [base + top]. *)
Lemma percent_within (percent : option Q) (base top : Z) (step : Q) :
  (forall q, percent = Some q -> (0 <= q)%Q /\ (q <= 100)%Q) ->
  0 <= base -> 0 <= top -> base + top <= 2 ^ 53 ->
  (exists c, JS.literal step = JS.Finite c /\ (0 <= c)%Q /\ (100 * c <= inject_Z top)%Q) ->
  JS.within base (base + top)
    (JS.add (JS.num base) (JS.mul (JS.Finite (JS.orZeroQ percent)) (JS.literal step))).
Proof.
  intros Hwf Hbase Htop Hsum (c & -> & Hc0 & Hc1).
  assert (Hq : (0 <= JS.orZeroQ percent)%Q /\ (JS.orZeroQ percent <= 100)%Q).
  { destruct percent as [q|]; cbn [JS.orZeroQ]; [apply (Hwf q eq_refl) | split; lra]. }
  destruct Hq as [Hq0 Hq1]. cbn [JS.mul JS.add JS.num].
  assert (Hprod : (0 <= JS.orZeroQ percent * c)%Q /\ (JS.orZeroQ percent * c <= 100 * c)%Q).
  { split; [apply Qmult_le_0_compat; assumption|].
    apply Qmult_le_compat_r; assumption. }
  destruct (rnd_within (JS.orZeroQ percent * c) 0 top) as (z & -> & Hz0 & Hz1);
    try lia; try (change (inject_Z 0) with 0%Q; lra).
  change (inject_Z 0) with 0%Q in Hz0.
  apply rnd_within; try lia; rewrite ?inject_Z_plus; lra.
Qed.

Lemma convert_bounds (percent : option Q) :
  (forall q, percent = Some q -> (0 <= q)%Q /\ (q <= 100)%Q) ->
  exists p,
    JS.rounded
      (JS.add (JS.num 75)
         (JS.mul (JS.Finite (JS.orZeroQ percent)) (JS.literal (25 # 100)))) = Some p
    /\ 75 <= p <= 100.
Proof.
  intros Hwf. apply (rounded_within 75 (75 + 25)).
  apply percent_within; try lia; [exact Hwf|].
  eexists. split; [vm_compute; reflexivity|]. split; unfold Qle; cbn; lia.
Qed.

Lemma mux_phase_bounds (percent : option Q) :
  (forall q, percent = Some q -> (0 <= q)%Q /\ (q <= 100)%Q) ->
  exists p,
    JS.rounded
      (JS.add (JS.num 81)
         (JS.mul (JS.Finite (JS.orZeroQ percent)) (JS.literal (18 # 100)))) = Some p
    /\ 81 <= p <= 99.
Proof.
  intros Hwf. apply (rounded_within 81 (81 + 18)).
  apply percent_within; try lia; [exact Hwf|].
  eexists. split; [vm_compute; reflexivity|]. split; unfold Qle; cbn; lia.
Qed.

Lemma progress_bounds (d t scale : Z) :
  0 <= d <= t -> 0 < t -> 0 <= scale <= 2 ^ 53 ->
  exists p,
    JS.rounded (JS.mul (Runtime.ratio d t) (JS.num scale)) = Some p /\ 0 <= p <= scale.
Proof.
  intros Hd Ht Hs. apply rounded_within, scaled_within; [exact Hs|].
  apply ratio_within; assumption.
Qed.

End Rounding.

(** Reduction of the object literals handed to [updateDownload]. *)
Tactic Notation "fields_cbn" :=
  cbn [from_option Schema.p_progress Schema.p_status Runtime.setProgressAndSize
       Runtime.setProgress Runtime.setStatus Runtime.setFailed Runtime.setCompleted
       Runtime.setComputedProgress Runtime.setComputedProgressAndSize
       Runtime.fields Runtime.fieldsOf fmap option_fmap option_map id].

Tactic Notation "fields_cbn" "in" hyp(H) :=
  cbn [from_option Schema.p_progress Schema.p_status Runtime.setProgressAndSize
       Runtime.setProgress Runtime.setStatus Runtime.setFailed Runtime.setCompleted
       Runtime.setComputedProgress Runtime.setComputedProgressAndSize
       Runtime.fields Runtime.fieldsOf fmap option_fmap option_map id] in H.

(** Reduction of the state accessors only: the store lookups stay folded. *)
Ltac mux_cbn :=
  cbn [Mux.world Mux.pc Mux.videoStream Mux.videoWriteStream Mux.audioStream
       Mux.audioWriteStream Mux.command Mux.videoPromise Mux.audioPromise
       Mux.outputContainer Mux.videoDownloaded Mux.audioDownloaded
       Mux.videoBytes Mux.audioBytes Mux.totalVideoBytes Mux.totalAudioBytes
       Mux.catchAll Mux.onCall Mux.afterDownloads Mux.onMuxProgress
       Mux.onMuxError Mux.withPc Mux.withWorld Mux.withCommand Mux.withStream
       Mux.withWriteStream Mux.settle Mux.streamOf Mux.writeStreamOf
       Mux.promiseOf Mux.initial Mux.advance Runtime.store Runtime.files
       Runtime.createFile Runtime.stateOf].

Tactic Notation "mux_cbn" "in" "*" :=
  cbn [Mux.world Mux.pc Mux.videoStream Mux.videoWriteStream Mux.audioStream
       Mux.audioWriteStream Mux.command Mux.videoPromise Mux.audioPromise
       Mux.outputContainer Mux.videoDownloaded Mux.audioDownloaded
       Mux.videoBytes Mux.audioBytes Mux.totalVideoBytes Mux.totalAudioBytes
       Mux.catchAll Mux.onCall Mux.afterDownloads Mux.onMuxProgress
       Mux.onMuxError Mux.withPc Mux.withWorld Mux.withCommand Mux.withStream
       Mux.withWriteStream Mux.settle Mux.streamOf Mux.writeStreamOf
       Mux.promiseOf Mux.initial Mux.advance Runtime.store Runtime.files
       Runtime.createFile Runtime.stateOf] in *.

(** ** The mux orchestrator: invariant *)
Section MuxInvariant.
Import Schema Ytdl Runtime Mux MuxSpec.

Lemma job_after_update (now : Z) (key : string) (u : PartialDownload)
    (w' w : World) (job' : Download) :
  store w' = store w ->
  store (update now key u w') !! key = Some job' ->
  exists job, store w !! key = Some job
              /\ status job' = default (status job) (p_status u)
              /\ progress job' = default (progress job) (p_progress u).
Proof.
  intros Hw H. unfold update, Storage.updateDownload in H. rewrite Hw in H.
  destruct (store w !! key) as [job|] eqn:E; simpl in H.
  - rewrite lookup_insert_eq in H. injection H as <-. exists job.
    repeat split; reflexivity.
  - congruence.
Qed.

Lemma cleanup_store (a : Args) (w : World) : store (cleanup a w) = store w.
Proof. unfold cleanup. rewrite !unlinkIfExists_store. reflexivity. Qed.

Lemma cleanup_files (a : Args) (w : World) :
  files (cleanup a w)
  = files w ∖ {[videoTempPath a]} ∖ {[audioTempPath a]} ∖ {[mp4Path a]} ∖ {[webmPath a]}.
Proof. unfold cleanup. rewrite !unlinkIfExists_files. reflexivity. Qed.

Lemma initial_inv (a : Args) (w : World) :
  (forall job, store w !! downloadId a = Some job ->
     status job = "pending" /\ progress job = Some 0) ->
  MuxInv a (initial w).
Proof.
  intros Hpending. split; mux_cbn.
  - intros job Hjob. destruct (Hpending job Hjob) as [Hs Hp].
    unfold jobOk. rewrite Hs, Hp. repeat split; try discriminate.
    exists 0. split; [reflexivity|lia].
  - intros _. split; [reflexivity|]. intros job Hjob.
    destruct (Hpending job Hjob) as [Hs _]. rewrite Hs. discriminate.
  - lia.
  - intros []; discriminate.
  - discriminate.
  - congruence.
Qed.

Lemma catchAll_inv_from (now : Z) (a : Args) (s : State) :
  0 <= videoBytes s <= totalVideoBytes s /\ 0 <= audioBytes s <= totalAudioBytes s ->
  (forall leg, promiseOf leg s = Resolved ->
     streamOf leg s = Ended /\ writeStreamOf leg s = Ended) ->
  (command s <> Idle ->
     forall leg, streamOf leg s = Ended /\ writeStreamOf leg s = Ended) ->
  MuxInv a (catchAll now a s).
Proof.
  intros Hbytes Hprom Hcmd. split; mux_cbn.
  - intros job' H. apply job_after_update with (w := world s) in H as (job & Hj & Hs & Hp);
      [|apply cleanup_store].
    simpl in Hs, Hp. unfold jobOk. rewrite Hs, Hp.
    repeat split; try discriminate. exists 0. split; [reflexivity|lia].
  - intros [|]; discriminate.
  - exact Hbytes.
  - exact Hprom.
  - discriminate.
  - exact Hcmd.
Qed.

Lemma catchAll_inv (now : Z) (a : Args) (s : State) :
  MuxInv a s -> MuxInv a (catchAll now a s).
Proof.
  intros [Hjob Hearly Hbytes Hprom Hawait Hcmd].
  apply catchAll_inv_from; assumption.
Qed.

Lemma onCall_inv (now : Z) (a : Args) (s : State) :
  MuxInv a s -> pc s = NotCalled -> MuxInv a (onCall now a s).
Proof.
  intros [Hjob Hearly Hbytes Hprom Hawait Hcmd] Hpc.
  destruct (Hearly (or_introl Hpc)) as [Hidle Hnot].
  split; mux_cbn.
  - intros job' H.
    apply job_after_update with (w := world s) in H as (job & Hj & Hs & Hp);
      [|reflexivity].
    simpl in Hs, Hp. destruct (Hjob job Hj) as (Hr & Hh & Hc).
    unfold jobOk. rewrite Hs, Hp. repeat split; try discriminate; try assumption.
    intros H100. exfalso. apply (Hnot job Hj), Hh, H100.
  - intros _. split; [assumption|]. intros job' H.
    apply job_after_update with (w := world s) in H as (job & Hj & Hs & Hp);
      [|reflexivity].
    simpl in Hs. rewrite Hs. discriminate.
  - exact Hbytes.
  - exact Hprom.
  - discriminate.
  - exact Hcmd.
Qed.

Lemma onInfo_inv (now : Z) (a : Args) (formats : list videoFormat) (s : State) :
  MuxInv a s -> pc s = AwaitInfo -> MuxInv a (onInfo now a formats s).
Proof.
  intros Hinv Hpc. unfold onInfo.
  destruct (List.find _ formats) as [vf|]; [|apply catchAll_inv, Hinv].
  destruct (List.find _ formats) as [af|]; [|apply catchAll_inv, Hinv].
  destruct Hinv as [Hjob Hearly Hbytes Hprom Hawait Hcmd].
  destruct (Hearly (or_intror Hpc)) as [Hidle Hnot].
  split; mux_cbn.
  - intros job Hj. destruct (Hjob job Hj) as (Hr & Hh & Hc).
    repeat split; try assumption; exfalso; apply (Hnot job Hj); assumption.
  - intros [|]; discriminate.
  - lia.
  - intros []; discriminate.
  - intros _. split; [assumption|]. intros []; discriminate.
  - congruence.
Qed.

Lemma quiet_not_stream (s : State) (leg : Leg) : quiet s -> streamOf leg s <> Active.
Proof. intros (H1 & H2 & _). destruct leg; assumption. Qed.

Lemma quiet_not_write (s : State) (leg : Leg) : quiet s -> writeStreamOf leg s <> Active.
Proof. intros (_ & _ & H1 & H2 & _). destruct leg; assumption. Qed.

Lemma mux_progress_bounds (vb vt ab at' : Z) :
  0 <= vb <= vt -> 0 <= ab <= at' -> 0 < vt -> 0 < at' ->
  exists p,
    JS.rounded
      (JS.mul (JS.div (JS.add (ratio vb vt) (ratio ab at')) (inject_Z 2)) (JS.num 80))
    = Some p
    /\ 0 <= p <= 80.
Proof.
  intros Hv Ha Hvt Hat.
  apply rounded_within, scaled_within; [lia|].
  destruct (ratio_within vb vt Hv Hvt) as (x & -> & Hx0 & Hx1).
  destruct (ratio_within ab at' Ha Hat) as (y & -> & Hy0 & Hy1).
  cbn [JS.add].
  destruct (rnd_within (x + y) 0 2) as (z & -> & Hz0 & Hz1);
    try lia; try (unfold inject_Z in *; lra).
  cbn [JS.div]. change (Qeq_bool (inject_Z 2) 0) with false. cbv iota.
  apply rnd_within; try lia; unfold inject_Z, Qdiv in *;
    change (/ (2 # 1))%Q with (1 # 2)%Q; lra.
Qed.

Lemma ratio_rnd (d t : Z) :
  0 < t -> ratio d t = JS.rnd (inject_Z d / inject_Z t).
Proof.
  intros Ht. unfold ratio, JS.div, JS.num.
  destruct (Qeq_bool (inject_Z t) 0) eqn:E; [|reflexivity].
  apply Qeq_bool_iff in E. assert (0 < inject_Z t)%Q by (rewrite <- (Zlt_Qlt 0); exact Ht).
  lra.
Qed.

(** The aggregate of the mux path on sane counters: a finite Number in
    0..80, within 2^-44 of the exact value of the formula. *)
Lemma mux_progress_error (vb vt ab at' : Z) :
  0 <= vb <= vt -> 0 <= ab <= at' -> 0 < vt -> 0 < at' ->
  exists x,
    JS.mul (JS.div (JS.add (ratio vb vt) (ratio ab at')) (inject_Z 2)) (JS.num 80)
    = JS.Finite x
    /\ (0 <= x)%Q /\ (x <= 80)%Q
    /\ (Qabs (x - ((inject_Z vb / inject_Z vt + inject_Z ab / inject_Z at') / 2) * 80)
        <= JS.two (-44))%Q.
Proof.
  intros Hv Ha Hvt Hat.
  destruct (ratio_within vb vt Hv Hvt) as (x1 & E1 & Hx0 & Hx1).
  destruct (ratio_within ab at' Ha Hat) as (x2 & E2 & Hy0 & Hy1).
  rewrite E1, E2. rewrite ratio_rnd in E1, E2 by assumption.
  set (v := (inject_Z vb / inject_Z vt)%Q) in *.
  set (w := (inject_Z ab / inject_Z at')%Q) in *.
  unfold inject_Z in Hx0, Hx1, Hy0, Hy1.
  assert (Hv01 : (0 <= v)%Q /\ (v <= 1)%Q).
  { assert (Hpos : (0 < inject_Z vt)%Q) by (rewrite <- (Zlt_Qlt 0); exact Hvt).
    subst v. split.
    - apply Qle_shift_div_l; [exact Hpos|]. rewrite Qmult_0_l, <- (Zle_Qle 0). lia.
    - apply Qle_shift_div_r; [exact Hpos|]. rewrite Qmult_1_l, <- Zle_Qle. lia. }
  assert (Hw01 : (0 <= w)%Q /\ (w <= 1)%Q).
  { assert (Hpos : (0 < inject_Z at')%Q) by (rewrite <- (Zlt_Qlt 0); exact Hat).
    subst w. split.
    - apply Qle_shift_div_l; [exact Hpos|]. rewrite Qmult_0_l, <- (Zle_Qle 0). lia.
    - apply Qle_shift_div_r; [exact Hpos|]. rewrite Qmult_1_l, <- Zle_Qle. lia. }
  destruct Hv01 as [Hv0 Hv1]. destruct Hw01 as [Hw0 Hw1].
  pose proof (rnd_error v x1 0 E1 Hv0 Hv1 ltac:(lia)) as R1.
  pose proof (rnd_error w x2 0 E2 Hw0 Hw1 ltac:(lia)) as R2.
  cbn [JS.add].
  destruct (rnd_within (x1 + x2) 0 2) as (x3 & E3 & Hs0 & Hs1);
    try lia; try (unfold inject_Z; lra).
  unfold inject_Z in Hs0, Hs1.
  pose proof (rnd_error (x1 + x2) x3 1 E3 ltac:(lra) ltac:(cbn; lra) ltac:(lia)) as R3.
  rewrite E3. cbn [JS.div]. change (Qeq_bool (inject_Z 2) 0) with false. cbv iota.
  assert (Hhalf : (x3 / inject_Z 2 == x3 * (1 # 2))%Q) by (unfold inject_Z; field).
  destruct (rnd_within (x3 / inject_Z 2) 0 1) as (x4 & E4 & Hh0 & Hh1);
    try lia; try (rewrite Hhalf; unfold inject_Z; lra).
  unfold inject_Z in Hh0, Hh1.
  pose proof (rnd_error (x3 / inject_Z 2) x4 0 E4
                ltac:(rewrite Hhalf; lra) ltac:(rewrite Hhalf; cbn; lra) ltac:(lia)) as R4.
  rewrite E4. cbn [JS.mul JS.num].
  destruct (rnd_within (x4 * inject_Z 80) 0 80) as (x & E & Hx0' & Hx1');
    try lia; try (unfold inject_Z; lra).
  unfold inject_Z in Hx0', Hx1'.
  pose proof (rnd_error (x4 * inject_Z 80) x 7 E
                ltac:(unfold inject_Z; lra) ltac:(unfold inject_Z; cbn; lra) ltac:(lia)) as R5.
  exists x. split; [exact E|]. split; [exact Hx0'|]. split; [exact Hx1'|].
  rewrite Hhalf in R4.
  assert (T53 : (JS.two (0 - 53) == 1 # 9007199254740992)%Q) by (vm_compute; reflexivity).
  assert (T52 : (JS.two (1 - 53) == 1 # 4503599627370496)%Q) by (vm_compute; reflexivity).
  assert (T46 : (JS.two (7 - 53) == 1 # 70368744177664)%Q) by (vm_compute; reflexivity).
  assert (T44 : (JS.two (-44) == 1 # 17592186044416)%Q) by (vm_compute; reflexivity).
  rewrite T53 in R1, R2, R4. rewrite T52 in R3. rewrite T46 in R5. rewrite T44.
  apply Qabs_Qle_condition in R1, R2, R3, R4, R5. apply Qabs_Qle_condition.
  unfold inject_Z in R5. clearbody v w. clear E1 E2 E3 E4 E Hhalf T53 T52 T46 T44.
  destruct R1, R2, R3, R4, R5.
  assert (Hexact : ((v + w) / 2 * 80 == (v + w) * 40)%Q) by field.
  rewrite Hexact. split; lra.
Qed.

Lemma updateProgress_inv (now : Z) (a : Args) (s : State) (leg : Leg) :
  MuxInv a s -> streamOf leg s = Active -> MuxInv a (updateProgress now a s).
Proof.
  intros Hinv Hact. unfold updateProgress.
  destruct (0 <? totalVideoBytes s) eqn:Hv; [|exact Hinv].
  destruct (0 <? totalAudioBytes s) eqn:Ha; [|exact Hinv].
  apply Z.ltb_lt in Hv, Ha. mux_cbn.
  destruct Hinv as [Hjob Hearly Hbytes Hprom Hawait Hcmd].
  split; mux_cbn; try assumption.
  - intros job' H.
    apply job_after_update with (w := world s) in H as (job & Hj & Hs & Hp);
      [|reflexivity].
    destruct (mux_progress_bounds _ _ _ _ (proj1 Hbytes) (proj2 Hbytes) Hv Ha)
      as (p & Hround & Hb).
    rewrite Hround in Hp. fields_cbn in Hs. fields_cbn in Hp.
    destruct (Hjob job Hj) as (Hr & Hh & Hc).
    unfold jobOk. rewrite Hs, Hp. split; [|split].
    + eexists. split; [reflexivity|lia].
    + intros [= H100]. lia.
    + intros Hcomp. exfalso. destruct (Hc Hcomp) as [_ Hq].
      apply (quiet_not_stream _ leg Hq), Hact.
  - intros Hpc. destruct (Hearly Hpc) as [Hidle Hnot]. split; [assumption|].
    intros job' H.
    apply job_after_update with (w := world s) in H as (job & Hj & Hs & Hp);
      [|reflexivity].
    simpl in Hs. rewrite Hs. apply (Hnot job Hj).
Qed.

Lemma onProgress_inv (now : Z) (a : Args) (leg : Leg) (d t : Z) (s : State) :
  MuxInv a s -> streamOf leg s = Active -> 0 <= d <= t ->
  MuxInv a (onProgress now a leg d t s).
Proof.
  intros [Hjob Hearly Hbytes Hprom Hawait Hcmd] Hact Hd.
  unfold onProgress. apply (updateProgress_inv now a _ leg).
  - destruct leg; split; mux_cbn; try assumption; lia.
  - destruct leg; exact Hact.
Qed.

Lemma advance_stream_inv (a : Args) (leg : Leg) (l : Life) (s : State) :
  MuxInv a s -> streamOf leg s = Active -> l <> Active ->
  MuxInv a (withStream leg l s)
  /\ promiseOf leg (withStream leg l s) <> Resolved
  /\ command (withStream leg l s) = Idle.
Proof.
  intros [Hjob Hearly Hbytes Hprom Hawait Hcmd] Hact Hl.
  assert (Hnr : promiseOf leg s <> Resolved).
  { intros Hr. destruct (Hprom leg Hr) as [He _]. congruence. }
  assert (Hidle : command s = Idle).
  { destruct (decide (command s = Idle)) as [|Hn]; [assumption|].
    destruct (Hcmd Hn leg) as [He _]. congruence. }
  split; [|split].
  - split.
    + intros job Hj. assert (Hj' : store (world s) !! downloadId a = Some job)
        by (destruct leg; exact Hj).
      destruct (Hjob job Hj') as (Hr & Hh & Hc). split; [|split]; try assumption.
      intros Hcomp. destruct (Hc Hcomp) as [H100 Hq]. exfalso.
      apply (quiet_not_stream _ leg Hq), Hact.
    + destruct leg; exact Hearly.
    + destruct leg; exact Hbytes.
    + intros leg' Hr. destruct leg, leg'; mux_cbn in *;
        try (exfalso; apply Hnr, Hr);
        first [ exact (Hprom VideoLeg Hr) | exact (Hprom AudioLeg Hr) ].
    + destruct leg; exact Hawait.
    + intros Hn. exfalso. destruct leg; apply Hn, Hidle.
  - destruct leg; exact Hnr.
  - destruct leg; exact Hidle.
Qed.
Lemma advance_write_inv (a : Args) (leg : Leg) (l : Life) (s : State) :
  MuxInv a s -> writeStreamOf leg s = Active -> l <> Active ->
  (l = Ended -> streamOf leg s = Ended) ->
  MuxInv a (withWriteStream leg l s)
  /\ promiseOf leg (withWriteStream leg l s) <> Resolved
  /\ command (withWriteStream leg l s) = Idle
  /\ (forall job, store (world s) !! downloadId a = Some job ->
        status job <> "completed").
Proof.
  intros [Hjob Hearly Hbytes Hprom Hawait Hcmd] Hact Hl Hend.
  assert (Hnr : promiseOf leg s <> Resolved).
  { intros Hr. destruct (Hprom leg Hr) as [_ He]. congruence. }
  assert (Hidle : command s = Idle).
  { destruct (decide (command s = Idle)) as [|Hn]; [assumption|].
    destruct (Hcmd Hn leg) as [_ He]. congruence. }
  split; [|split].
  - split.
    + intros job Hj. assert (Hj' : store (world s) !! downloadId a = Some job)
        by (destruct leg; exact Hj).
      destruct (Hjob job Hj') as (Hr & Hh & Hc). split; [|split]; try assumption.
      intros Hcomp. destruct (Hc Hcomp) as [H100 Hq]. exfalso.
      apply (quiet_not_write _ leg Hq), Hact.
    + destruct leg; exact Hearly.
    + destruct leg; exact Hbytes.
    + intros leg' Hr. destruct leg, leg'; mux_cbn in *;
        try (exfalso; apply Hnr, Hr);
        first [ exact (Hprom VideoLeg Hr) | exact (Hprom AudioLeg Hr) ].
    + destruct leg; exact Hawait.
    + intros Hn. exfalso. destruct leg; apply Hn, Hidle.
  - destruct leg; exact Hnr.
  - split; [destruct leg; exact Hidle|].
    intros job Hj Hcomp. destruct (Hjob job Hj) as (_ & _ & Hc).
    destruct (Hc Hcomp) as [_ Hq]. apply (quiet_not_write _ leg Hq), Hact.
Qed.

Lemma onLegError_inv (now : Z) (a : Args) (leg : Leg) (s : State) :
  MuxInv a s -> promiseOf leg s <> Resolved ->
  MuxInv a (onLegError now a leg s).
Proof.
  intros [Hjob Hearly Hbytes Hprom Hawait Hcmd] Hnr.
  assert (Hp' : forall leg', promiseOf leg' (settle leg Rejected s) = Resolved ->
                  promiseOf leg' s = Resolved).
  { intros leg'. destruct leg, leg'; mux_cbn; try tauto;
      destruct (bool_decide _); mux_cbn in *; congruence. }
  unfold onLegError.
  destruct (bool_decide_reflect (pc (settle leg Rejected s) = AwaitDownloads)) as [Hpc|Hpc];
    mux_cbn.
  - destruct (bool_decide_reflect (promiseOf leg (settle leg Rejected s) = Rejected))
      as [Hrej|Hrej].
    + apply catchAll_inv_from.
      * destruct leg; exact Hbytes.
      * intros leg' Hr. apply Hp' in Hr. destruct leg, leg'; apply (Hprom _ Hr).
      * destruct leg; exact Hcmd.
    + exfalso. apply Hrej.
      assert (Hpc' : pc s = AwaitDownloads) by (destruct leg; exact Hpc).
      destruct (Hawait Hpc') as [_ Hnrej].
      specialize (Hnrej leg).
      destruct leg; mux_cbn in *;
        [destruct (videoPromise s)|destruct (audioPromise s)];
        first [reflexivity | congruence].
  - split.
    + intros job Hj. assert (Hj' : store (world s) !! downloadId a = Some job)
        by (destruct leg; exact Hj).
      destruct (Hjob job Hj') as (Hr & Hh & Hc). split; [|split]; try assumption.
      intros Hcomp. destruct (Hc Hcomp) as [H100 Hq]. split; [assumption|].
      destruct leg; exact Hq.
    + destruct leg; exact Hearly.
    + destruct leg; exact Hbytes.
    + intros leg' Hr. apply Hp' in Hr. destruct leg, leg'; apply (Hprom _ Hr).
    + intros Hpc'. exfalso. apply Hpc. destruct leg; exact Hpc'.
    + destruct leg; exact Hcmd.
Qed.
Lemma onWriteFinish_inv (now : Z) (a : Args) (leg : Leg) (s : State) :
  MuxInv a s -> promiseOf leg s <> Resolved -> command s = Idle ->
  streamOf leg s = Ended -> writeStreamOf leg s = Ended ->
  (forall job, store (world s) !! downloadId a = Some job ->
     status job <> "completed") ->
  MuxInv a (onWriteFinish now a leg s).
Proof.
  intros [Hjob Hearly Hbytes Hprom Hawait Hcmd] Hnr Hidle Hse Hwe Hnot.
  unfold onWriteFinish.
  set (s1 := match leg with VideoLeg => _ | AudioLeg => _ end).
  set (s2 := settle leg Resolved s1).
  assert (Hw : world s2 = world s) by (destruct leg; reflexivity).
  assert (Hc2 : command s2 = command s) by (destruct leg; reflexivity).
  assert (Hpc2 : pc s2 = pc s) by (destruct leg; reflexivity).
  assert (Hb2 : videoBytes s2 = videoBytes s /\ totalVideoBytes s2 = totalVideoBytes s
                /\ audioBytes s2 = audioBytes s /\ totalAudioBytes s2 = totalAudioBytes s)
    by (destruct leg; repeat split; reflexivity).
  assert (Hl2 : forall leg', streamOf leg' s2 = streamOf leg' s
                             /\ writeStreamOf leg' s2 = writeStreamOf leg' s)
    by (intros leg'; destruct leg, leg'; split; reflexivity).
  assert (Hp2 : forall leg', promiseOf leg' s2 = Resolved ->
                  streamOf leg' s2 = Ended /\ writeStreamOf leg' s2 = Ended).
  { intros leg' Hr. destruct (Hl2 leg') as [-> ->].
    destruct leg, leg'; simpl in Hr; try (split; assumption);
      first [ exact (Hprom VideoLeg Hr) | exact (Hprom AudioLeg Hr) ]. }
  assert (Hq2 : quiet s2 <-> quiet s).
  { unfold quiet. rewrite Hc2.
    destruct (Hl2 VideoLeg) as [Hv1 Hv2]. destruct (Hl2 AudioLeg) as [Ha1 Ha2].
    simpl in Hv1, Hv2, Ha1, Ha2. rewrite Hv1, Hv2, Ha1, Ha2. reflexivity. }
  assert (Hr2 : forall leg', promiseOf leg' s <> Rejected ->
                  promiseOf leg' s2 <> Rejected).
  { intros leg' Hn. destruct leg, leg'; try exact Hn; unfold s2, s1; mux_cbn;
      cbn [promiseOf] in Hn;
      [destruct (videoPromise s)|destruct (audioPromise s)];
      first [exact Hn | discriminate]. }
  destruct Hb2 as (Hb21 & Hb22 & Hb23 & Hb24).
  clearbody s2. clear s1.
  destruct (bool_decide_reflect (pc s2 = AwaitDownloads)) as [Hpc|Hpc]; cbn [andb];
    [destruct (bool_decide_reflect (videoPromise s2 = Resolved)) as [Hvr|Hvr]; cbn [andb];
     [destruct (bool_decide_reflect (audioPromise s2 = Resolved)) as [Har|Har]|]|].
  1: { unfold afterDownloads. split; mux_cbn.
       - intros job' H.
         apply job_after_update with (w := world s) in H as (job & Hj & Hs & Hp);
           [|rewrite Hw; reflexivity].
         simpl in Hs, Hp. unfold jobOk. rewrite Hs, Hp. split; [|split].
         + exists 81. split; [reflexivity|lia].
         + intros [=].
         + intros Hcomp. exfalso. apply (Hnot job Hj), Hcomp.
       - intros [|]; discriminate.
       - rewrite Hb21, Hb22, Hb23, Hb24. exact Hbytes.
       - exact Hp2.
       - discriminate.
       - intros _ leg'. destruct leg'; [apply (Hp2 VideoLeg Hvr)|apply (Hp2 AudioLeg Har)]. }
  all: split;
    [ intros job Hj; rewrite Hw in Hj; destruct (Hjob job Hj) as (Hr & Hh & Hc);
      split; [|split]; try assumption;
      intros Hcomp; exfalso; apply (Hnot job Hj), Hcomp
    | rewrite Hpc2, Hc2, Hw; exact Hearly
    | rewrite Hb21, Hb22, Hb23, Hb24; exact Hbytes
    | exact Hp2
    | rewrite Hpc2, Hc2; intros Hpc'; destruct (Hawait Hpc') as [Hi Hnrej];
      split; [assumption|];
      intros leg'; apply Hr2, Hnrej
    | rewrite Hc2; intros Hn; congruence ].
Qed.

Lemma onMuxProgress_inv (now : Z) (a : Args) (percent : option Q) (s : State) :
  MuxInv a s -> command s = Active ->
  (forall q, percent = Some q -> (0 <= q)%Q /\ (q <= 100)%Q) ->
  MuxInv a (onMuxProgress now a percent s).
Proof.
  intros [Hjob Hearly Hbytes Hprom Hawait Hcmd] Hact Hwf.
  destruct (mux_phase_bounds percent Hwf) as (p & Hround & Hb).
  unfold onMuxProgress. rewrite Hround. split; mux_cbn; try assumption.
  - intros job' H.
    apply job_after_update with (w := world s) in H as (job & Hj & Hs & Hp);
      [|reflexivity].
    fields_cbn in Hs. fields_cbn in Hp. destruct (Hjob job Hj) as (Hr & Hh & Hc).
    unfold jobOk. rewrite Hs, Hp. split; [|split].
    + eexists. split; [reflexivity|lia].
    + intros [= H100]. lia.
    + intros Hcomp. exfalso. destruct (Hc Hcomp) as (_ & _ & _ & _ & _ & Hq).
      apply Hq, Hact.
  - intros Hpc. destruct (Hearly Hpc) as [Hidle _]. congruence.
Qed.

Lemma onMuxEnd_inv (now : Z) (a : Args) (size : Z) (s : State) :
  MuxInv a s -> command s = Active ->
  MuxInv a (onMuxEnd now a size (withCommand Ended s)).
Proof.
  intros [Hjob Hearly Hbytes Hprom Hawait Hcmd] Hact.
  assert (Hn : command s <> Idle) by congruence.
  specialize (Hcmd Hn).
  unfold onMuxEnd. mux_cbn. destruct (bool_decide _).
  - split; mux_cbn.
    + intros job' H.
      apply job_after_update with (w := world s) in H as (job & Hj & Hs & Hp);
        [|rewrite !unlinkIfExists_store; reflexivity].
      simpl in Hs, Hp. unfold jobOk. rewrite Hs, Hp. split; [|split].
      * exists 100. split; [reflexivity|lia].
      * reflexivity.
      * intros _. split; [reflexivity|].
        destruct (Hcmd VideoLeg) as [Hv1 Hv2]. destruct (Hcmd AudioLeg) as [Ha1 Ha2].
        mux_cbn in *. unfold quiet. mux_cbn. rewrite Hv1, Hv2, Ha1, Ha2.
        repeat split; discriminate.
    + intros [|]; discriminate.
    + exact Hbytes.
    + exact Hprom.
    + discriminate.
    + intros _. exact Hcmd.
  - apply catchAll_inv_from; mux_cbn; try assumption. intros _. exact Hcmd.
Qed.

Lemma onMuxError_inv (now : Z) (a : Args) (s : State) :
  MuxInv a s -> command s = Active ->
  MuxInv a (onMuxError now a (withCommand Errored s)).
Proof.
  intros [Hjob Hearly Hbytes Hprom Hawait Hcmd] Hact.
  assert (Hn : command s <> Idle) by congruence.
  apply catchAll_inv_from; mux_cbn; try assumption. intros _. exact (Hcmd Hn).
Qed.

Lemma step_inv (now : Z) (a : Args) (s : State) (e : Event) (o : Outcome State) :
  MuxInv a s -> wellFormed e -> step now a s e = Some o ->
  MuxInv a (stateOf o) /\ o = Continue (stateOf o).
Proof.
  intros Hinv Hwf Hstep. unfold step in Hstep.
  destruct (enabled s e) eqn:Hen; [|discriminate]. injection Hstep as <-.
  destruct e; simpl in Hen |- *; split; try reflexivity.
  - apply bool_decide_eq_true in Hen. apply onCall_inv; assumption.
  - apply bool_decide_eq_true in Hen. apply onInfo_inv; assumption.
  - apply catchAll_inv, Hinv.
  - apply bool_decide_eq_true in Hen. apply onProgress_inv; [assumption..|apply Hwf].
  - apply bool_decide_eq_true in Hen.
    apply (advance_stream_inv a leg Ended s Hinv Hen). discriminate.
  - apply bool_decide_eq_true in Hen.
    destruct (advance_stream_inv a leg Errored s Hinv Hen) as (H1 & H2 & H3);
      [discriminate|].
    apply onLegError_inv; assumption.
  - apply andb_true_iff in Hen as [Hw Hs]. apply bool_decide_eq_true in Hw, Hs.
    destruct (advance_write_inv a leg Ended s Hinv Hw) as (H1 & H2 & H3 & H4);
      [discriminate|intros _; exact Hs|].
    apply onWriteFinish_inv; try assumption.
    + destruct leg; exact Hs.
    + destruct leg; reflexivity.
    + intros job Hj. apply H4. destruct leg; exact Hj.
  - apply bool_decide_eq_true in Hen.
    destruct (advance_write_inv a leg Errored s Hinv Hen) as (H1 & H2 & H3 & H4);
      [discriminate|discriminate|].
    apply onLegError_inv; assumption.
  - apply bool_decide_eq_true in Hen. apply onMuxProgress_inv; try assumption.
    intros q ->. exact Hwf.
  - apply bool_decide_eq_true in Hen. apply onMuxEnd_inv; assumption.
  - apply bool_decide_eq_true in Hen. apply onMuxError_inv; assumption.
Qed.

Lemma run_inv (a : Args) (trace : list (Z * Event)) (s : State) (o : Outcome State) :
  MuxInv a s -> Forall (fun te => wellFormed (snd te)) trace ->
  run a s trace = Some o ->
  MuxInv a (stateOf o) /\ o = Continue (stateOf o).
Proof.
  revert s. induction trace as [|[now e] trace IH]; intros s Hinv Hwf Hrun.
  - injection Hrun as <-. split; [exact Hinv|reflexivity].
  - simpl in Hrun. apply Forall_cons in Hwf as [Hwf1 Hwf].
    destruct (step now a s e) as [o1|] eqn:Hstep; [|discriminate].
    destruct (step_inv _ _ _ _ _ Hinv Hwf1 Hstep) as [Hinv1 Ho1].
    rewrite Ho1 in Hrun. apply (IH _ Hinv1 Hwf Hrun).
Qed.
End MuxInvariant.

(** ** The mux orchestrator: progress, failure, completion *)
Section MuxProperties.
Import Schema Ytdl Runtime Mux MuxSpec.

(** C4: a progress event of either stream records the stream's latest
    counters. When both recorded totals are then positive, the job's
    progress becomes Math.round(((videoBytes/totalVideoBytes +
    audioBytes/totalAudioBytes) / 2) * 80), the formula evaluated as the
    source evaluates it, in double arithmetic: the integer stored is the one
    within a half of that Number (the upper one at a tie), the status is
    left as it is, and for counters with 0 <= bytes <= total that Number is
    finite and within 2^-44 of the exact value of the formula. When one of
    the totals is not positive, nothing is written. *)
Theorem C4_mux_progress_aggregation (now : Z) (a : Args) (s : State) (leg : Leg)
    (downloaded total : Z) :
  streamOf leg s = Active ->
  let vb := match leg with VideoLeg => downloaded | AudioLeg => videoBytes s end in
  let vt := match leg with VideoLeg => total | AudioLeg => totalVideoBytes s end in
  let ab := match leg with VideoLeg => audioBytes s | AudioLeg => downloaded end in
  let at' := match leg with VideoLeg => totalAudioBytes s | AudioLeg => total end in
  let aggregate :=
    JS.mul (JS.div (JS.add (ratio vb vt) (ratio ab at')) (inject_Z 2)) (JS.num 80) in
  let exact :=
    ((inject_Z vb / inject_Z vt + inject_Z ab / inject_Z at') / 2 * 80)%Q in
  exists s',
    step now a s (Progress leg downloaded total) = Some (Continue s')
    /\ videoBytes s' = vb /\ totalVideoBytes s' = vt
    /\ audioBytes s' = ab /\ totalAudioBytes s' = at'
    /\ (0 < vt -> 0 < at' ->
        (forall x, aggregate = JS.Finite x ->
           exists p,
             (inject_Z p - (1 # 2) <= x)%Q /\ (x < inject_Z p + (1 # 2))%Q
             /\ world s' = update now (downloadId a)
                             (setProgressAndSize p (JS.mbLabel (vt + at'))) (world s)
             /\ forall job, store (world s) !! downloadId a = Some job ->
                  exists job', store (world s') !! downloadId a = Some job'
                               /\ progress job' = Some p
                               /\ status job' = status job)
        /\ (0 <= vb <= vt -> 0 <= ab <= at' ->
            exists x, aggregate = JS.Finite x
                      /\ (Qabs (x - exact) <= JS.two (-44))%Q))
    /\ (vt <= 0 \/ at' <= 0 -> world s' = world s).
Proof.
  intros Hact. cbv zeta.
  assert (Hstored : forall vb vt ab at' x,
             JS.mul (JS.div (JS.add (ratio vb vt) (ratio ab at')) (inject_Z 2))
               (JS.num 80) = JS.Finite x ->
             exists p,
               (inject_Z p - (1 # 2) <= x)%Q /\ (x < inject_Z p + (1 # 2))%Q
               /\ update now (downloadId a)
                    (setComputedProgressAndSize
                       (JS.rounded
                          (JS.mul (JS.div (JS.add (ratio vb vt) (ratio ab at'))
                                     (inject_Z 2)) (JS.num 80)))
                       (JS.mbLabel (vt + at'))) (world s)
                  = update now (downloadId a)
                      (setProgressAndSize p (JS.mbLabel (vt + at'))) (world s)
               /\ forall job, store (world s) !! downloadId a = Some job ->
                    exists job',
                      store (update now (downloadId a)
                               (setComputedProgressAndSize
                                  (JS.rounded
                                     (JS.mul (JS.div (JS.add (ratio vb vt) (ratio ab at'))
                                                (inject_Z 2)) (JS.num 80)))
                                  (JS.mbLabel (vt + at'))) (world s))
                        !! downloadId a = Some job'
                      /\ progress job' = Some p /\ status job' = status job).
  { intros vb vt ab at' x Hx. rewrite Hx. cbn [JS.rounded].
    exists (JS.Math_round x).
    destruct (proj1 (Math_round_spec x _) eq_refl) as [Hlo Hhi].
    split; [exact Hlo|]. split; [exact Hhi|]. split; [reflexivity|].
    intros job Hj. eexists. split; [apply update_lookup, Hj|]. split; reflexivity. }
  unfold step. cbn [enabled]. rewrite (bool_decide_eq_true_2 _ Hact).
  cbn [dispatch listener advance]. unfold onProgress, updateProgress.
  destruct leg; mux_cbn.
  - destruct (Z.ltb_spec 0 total) as [H1|H1]; cbn [andb];
      [destruct (Z.ltb_spec 0 (totalAudioBytes s)) as [H2|H2]|];
      eexists; (split; [reflexivity|]); mux_cbn;
      repeat (split; [reflexivity|]); split;
      try (intros; lia); try (intros; reflexivity).
    intros _ _. split; [apply Hstored|].
    intros Hvb Hab.
    destruct (mux_progress_error _ _ _ _ Hvb Hab H1 H2) as (x & Hx & _ & _ & Herr).
    exists x. split; assumption.
  - destruct (Z.ltb_spec 0 (totalVideoBytes s)) as [H1|H1]; cbn [andb];
      [destruct (Z.ltb_spec 0 total) as [H2|H2]|];
      eexists; (split; [reflexivity|]); mux_cbn;
      repeat (split; [reflexivity|]); split;
      try (intros; lia); try (intros; reflexivity).
    intros _ _. split; [apply Hstored|].
    intros Hvb Hab.
    destruct (mux_progress_error _ _ _ _ Hvb Hab H1 H2) as (x & Hx & _ & _ & Herr).
    exists x. split; assumption.
Qed.

(** Three reports of the video stream: one where the exact value of the
    formula is 13.5 and the doubles give 13.499999999999998, one that rounds
    up (26.67), and one at an exact tie (2.5). *)
Lemma C4_mux_progress_witness :
  (exists s' job',
     step 1004 Samples.muxArgs (Samples.stateAfter (Samples.audioAt 13000000 48000000))
          (Progress VideoLeg 1000000 15000000) = Some (Continue s')
     /\ store (world s') !! "job-1" = Some job' /\ progress job' = Some 13)
  /\ (exists s' job',
        step 1004 Samples.muxArgs (Samples.stateAfter (Samples.audioAt 1 3))
             (Progress VideoLeg 1 3) = Some (Continue s')
        /\ store (world s') !! "job-1" = Some job' /\ progress job' = Some 27)
  /\ (exists s' job',
        step 1004 Samples.muxArgs (Samples.stateAfter (Samples.audioAt 0 1))
             (Progress VideoLeg 1 16) = Some (Continue s')
        /\ store (world s') !! "job-1" = Some job' /\ progress job' = Some 3).
Proof.
  split; [|split].
  - destruct (C4_mux_progress_aggregation 1004 Samples.muxArgs
                (Samples.stateAfter (Samples.audioAt 13000000 48000000))
                VideoLeg 1000000 15000000)
      as (s' & Hstep & _ & _ & _ & _ & Hupd & _); [reflexivity|].
    destruct Hupd as [Hval _]; [lia | vm_compute; reflexivity |].
    edestruct Hval as (p & Hlo & Hhi & _ & Hjob); [vm_compute; reflexivity|].
    destruct (store (world (Samples.stateAfter (Samples.audioAt 13000000 48000000)))
                !! "job-1") as [job|] eqn:Hj; [|vm_compute in Hj; discriminate Hj].
    destruct (Hjob job Hj) as (job' & Hj' & Hp & _).
    exists s', job'. split; [exact Hstep|]. split; [exact Hj'|].
    rewrite Hp. f_equal. unfold Qle, Qlt in Hlo, Hhi. cbn in Hlo, Hhi. lia.
  - destruct (C4_mux_progress_aggregation 1004 Samples.muxArgs
                (Samples.stateAfter (Samples.audioAt 1 3)) VideoLeg 1 3)
      as (s' & Hstep & _ & _ & _ & _ & Hupd & _); [reflexivity|].
    destruct Hupd as [Hval _]; [lia | vm_compute; reflexivity |].
    edestruct Hval as (p & Hlo & Hhi & _ & Hjob); [vm_compute; reflexivity|].
    destruct (store (world (Samples.stateAfter (Samples.audioAt 1 3))) !! "job-1")
      as [job|] eqn:Hj; [|vm_compute in Hj; discriminate Hj].
    destruct (Hjob job Hj) as (job' & Hj' & Hp & _).
    exists s', job'. split; [exact Hstep|]. split; [exact Hj'|].
    rewrite Hp. f_equal. unfold Qle, Qlt in Hlo, Hhi. cbn in Hlo, Hhi. lia.
  - destruct (C4_mux_progress_aggregation 1004 Samples.muxArgs
                (Samples.stateAfter (Samples.audioAt 0 1)) VideoLeg 1 16)
      as (s' & Hstep & _ & _ & _ & _ & Hupd & _); [reflexivity|].
    destruct Hupd as [Hval _]; [lia | vm_compute; reflexivity |].
    edestruct Hval as (p & Hlo & Hhi & _ & Hjob); [vm_compute; reflexivity|].
    destruct (store (world (Samples.stateAfter (Samples.audioAt 0 1))) !! "job-1")
      as [job|] eqn:Hj; [|vm_compute in Hj; discriminate Hj].
    destruct (Hjob job Hj) as (job' & Hj' & Hp & _).
    exists s', job'. split; [exact Hstep|]. split; [exact Hj'|].
    rewrite Hp. f_equal. unfold Qle, Qlt in Hlo, Hhi. cbn in Hlo, Hhi. lia.
Defined.

End MuxProperties.

Section MuxShapeProperties.
Import Schema Ytdl Runtime Mux MuxSpec.

Lemma deriveOutputContainer_cases (vf af : videoFormat) :
  deriveOutputContainer vf af = "mp4" \/ deriveOutputContainer vf af = "webm".
Proof.
  unfold deriveOutputContainer.
  repeat match goal with |- context [if ?b then _ else _] => destruct b end; auto.
Qed.

Lemma initial_shape (w : World) : MuxShape (initial w).
Proof.
  split; mux_cbn.
  - reflexivity.
  - intros []; discriminate.
  - discriminate.
  - congruence.
  - left; reflexivity.
Qed.

Lemma catchAll_shape (now : Z) (a : Args) (s : State) :
  (forall leg, promiseOf leg s = Resolved ->
     streamOf leg s = Ended /\ writeStreamOf leg s = Ended) ->
  (command s <> Idle ->
     forall leg, streamOf leg s = Ended /\ writeStreamOf leg s = Ended) ->
  outputContainer s = "mp4" \/ outputContainer s = "webm" ->
  MuxShape (catchAll now a s).
Proof.
  intros Hprom Hcmd Hoc. split; mux_cbn; try assumption.
  - intros [|]; discriminate.
  - discriminate.
Qed.

Lemma settle_Rejected_Resolved (leg leg' : Leg) (s : State) :
  promiseOf leg' (settle leg Rejected s) = Resolved -> promiseOf leg' s = Resolved.
Proof.
  destruct leg, leg'; mux_cbn; try tauto;
    [destruct (videoPromise s)|destruct (audioPromise s)]; cbv; congruence.
Qed.

Lemma settle_Rejected_pending (leg : Leg) (s : State) :
  promiseOf leg s <> Resolved -> promiseOf leg s <> Rejected ->
  promiseOf leg (settle leg Rejected s) = Rejected.
Proof.
  destruct leg; mux_cbn;
    [destruct (videoPromise s)|destruct (audioPromise s)]; cbv; congruence.
Qed.

Lemma onLegError_shape (now : Z) (a : Args) (leg : Leg) (s : State) :
  MuxShape s -> MuxShape (onLegError now a leg s).
Proof.
  intros [Hearly Hprom Hawait Hcmd Hoc]. unfold onLegError.
  destruct (bool_decide_reflect (pc (settle leg Rejected s) = AwaitDownloads)) as [Hpc|Hpc];
    cbn [andb].
  - destruct (bool_decide (promiseOf leg (settle leg Rejected s) = Rejected)) eqn:Hrej.
    + apply catchAll_shape.
      * intros leg' Hr. apply settle_Rejected_Resolved in Hr.
        destruct leg, leg'; apply (Hprom _ Hr).
      * destruct leg; exact Hcmd.
      * destruct leg; exact Hoc.
    + split.
      * destruct leg; exact Hearly.
      * intros leg' Hr. apply settle_Rejected_Resolved in Hr.
        destruct leg, leg'; apply (Hprom _ Hr).
      * intros _. assert (Hpc' : pc s = AwaitDownloads) by (destruct leg; exact Hpc).
        destruct (Hawait Hpc') as [Hidle Hnrej]. split; [destruct leg; exact Hidle|].
        intros leg' Hr. apply bool_decide_eq_false in Hrej.
        destruct leg, leg'; mux_cbn in *;
          first [ exact (Hrej Hr) | exact (Hnrej VideoLeg Hr) | exact (Hnrej AudioLeg Hr) ].
      * destruct leg; exact Hcmd.
      * destruct leg; exact Hoc.
  - split.
    + destruct leg; exact Hearly.
    + intros leg' Hr. apply settle_Rejected_Resolved in Hr.
      destruct leg, leg'; apply (Hprom _ Hr).
    + intros Hpc'. exfalso. apply Hpc. destruct leg; exact Hpc'.
    + destruct leg; exact Hcmd.
    + destruct leg; exact Hoc.
Qed.

Lemma step_shape (now : Z) (a : Args) (s : State) (e : Event) (o : Outcome State) :
  MuxShape s -> step now a s e = Some o ->
  MuxShape (stateOf o) /\ o = Continue (stateOf o).
Proof.
  intros Hsh Hstep. unfold step in Hstep.
  destruct (enabled s e) eqn:Hen; [|discriminate]. injection Hstep as <-.
  pose proof Hsh as [Hearly Hprom Hawait Hcmd Hoc].
  destruct e; cbn [enabled] in Hen; cbn [dispatch listener isErrorEvent stateOf advance];
    (split; [|reflexivity]).
  - apply bool_decide_eq_true in Hen. split; mux_cbn; try assumption.
    + intros _. apply Hearly. left; assumption.
    + discriminate.
  - apply bool_decide_eq_true in Hen. unfold onInfo.
    destruct (List.find _ formats) as [vf|];
      [|apply catchAll_shape; assumption].
    destruct (List.find _ formats) as [af|];
      [|apply catchAll_shape; assumption].
    split; mux_cbn.
    + intros [|]; discriminate.
    + intros []; discriminate.
    + intros _. split; [apply Hearly; right; assumption|]. intros []; discriminate.
    + intros Hn. exfalso. apply Hn, Hearly. right; assumption.
    + apply deriveOutputContainer_cases.
  - apply catchAll_shape; assumption.
  - unfold onProgress, updateProgress.
    destruct leg; mux_cbn; destruct (_ && _); split; mux_cbn; assumption.
  - apply bool_decide_eq_true in Hen.
    assert (Hidle : command s = Idle).
    { destruct (decide (command s = Idle)) as [|Hn]; [assumption|].
      destruct (Hcmd Hn leg) as [He _]. congruence. }
    assert (Hnr : promiseOf leg s <> Resolved).
    { intros Hr. destruct (Hprom leg Hr) as [He _]. congruence. }
    split.
    + destruct leg; exact Hearly.
    + intros leg' Hr. destruct leg, leg'; mux_cbn in *;
        try (exfalso; apply Hnr, Hr);
        first [ exact (Hprom VideoLeg Hr) | exact (Hprom AudioLeg Hr) ].
    + destruct leg; exact Hawait.
    + intros Hn. exfalso. destruct leg; apply Hn, Hidle.
    + destruct leg; exact Hoc.
  - apply bool_decide_eq_true in Hen.
    assert (Hidle : command s = Idle).
    { destruct (decide (command s = Idle)) as [|Hn]; [assumption|].
      destruct (Hcmd Hn leg) as [He _]. congruence. }
    assert (Hnr : promiseOf leg s <> Resolved).
    { intros Hr. destruct (Hprom leg Hr) as [He _]. congruence. }
    apply onLegError_shape. split.
    + destruct leg; exact Hearly.
    + intros leg' Hr. destruct leg, leg'; mux_cbn in *;
        try (exfalso; apply Hnr, Hr);
        first [ exact (Hprom VideoLeg Hr) | exact (Hprom AudioLeg Hr) ].
    + destruct leg; exact Hawait.
    + intros Hn. exfalso. destruct leg; apply Hn, Hidle.
    + destruct leg; exact Hoc.
  - apply andb_true_iff in Hen as [Hw Hs]. apply bool_decide_eq_true in Hw, Hs.
    assert (Hidle : command s = Idle).
    { destruct (decide (command s = Idle)) as [|Hn]; [assumption|].
      destruct (Hcmd Hn leg) as [_ He]. congruence. }
    assert (Hnr : promiseOf leg s <> Resolved).
    { intros Hr. destruct (Hprom leg Hr) as [_ He]. congruence. }
    unfold onWriteFinish.
    set (s1 := match leg with VideoLeg => _ | AudioLeg => _ end).
    set (s2 := settle leg Resolved s1).
    assert (Hc2 : command s2 = command s) by (destruct leg; reflexivity).
    assert (Hpc2 : pc s2 = pc s) by (destruct leg; reflexivity).
    assert (Hoc2 : outputContainer s2 = outputContainer s) by (destruct leg; reflexivity).
    assert (Hp2 : forall leg', promiseOf leg' s2 = Resolved ->
                    streamOf leg' s2 = Ended /\ writeStreamOf leg' s2 = Ended).
    { intros leg' Hr. destruct leg, leg'; unfold s2, s1 in *; mux_cbn in *;
        try (split; [assumption|reflexivity]);
        first [ exact (Hprom VideoLeg Hr) | exact (Hprom AudioLeg Hr) ]. }
    assert (Hr2 : forall leg', promiseOf leg' s <> Rejected ->
                    promiseOf leg' s2 <> Rejected).
    { intros leg' Hn. destruct leg, leg'; try exact Hn; unfold s2, s1; mux_cbn;
        cbn [promiseOf] in Hn;
        [destruct (videoPromise s)|destruct (audioPromise s)];
        first [exact Hn | discriminate]. }
    clearbody s2. clear s1.
    destruct (bool_decide_reflect (pc s2 = AwaitDownloads)) as [Hpc|Hpc]; cbn [andb];
      [destruct (bool_decide_reflect (videoPromise s2 = Resolved)) as [Hvr|Hvr]; cbn [andb];
       [destruct (bool_decide_reflect (audioPromise s2 = Resolved)) as [Har|Har]|]|].
    1: { split; mux_cbn.
         - intros [|]; discriminate.
         - exact Hp2.
         - discriminate.
         - intros _ leg'. destruct leg'; [apply (Hp2 VideoLeg Hvr)|apply (Hp2 AudioLeg Har)].
         - rewrite Hoc2. exact Hoc. }
    all: split;
      [ rewrite Hpc2, Hc2; exact Hearly
      | exact Hp2
      | rewrite Hpc2, Hc2; intros Hpc'; destruct (Hawait Hpc') as [Hi Hnrej];
        split; [assumption|]; intros leg'; apply Hr2, Hnrej
      | rewrite Hc2; intros Hn; congruence
      | rewrite Hoc2; exact Hoc ].
  - apply bool_decide_eq_true in Hen.
    assert (Hidle : command s = Idle).
    { destruct (decide (command s = Idle)) as [|Hn]; [assumption|].
      destruct (Hcmd Hn leg) as [_ He]. congruence. }
    assert (Hnr : promiseOf leg s <> Resolved).
    { intros Hr. destruct (Hprom leg Hr) as [_ He]. congruence. }
    apply onLegError_shape. split.
    + destruct leg; exact Hearly.
    + intros leg' Hr. destruct leg, leg'; mux_cbn in *;
        try (exfalso; apply Hnr, Hr);
        first [ exact (Hprom VideoLeg Hr) | exact (Hprom AudioLeg Hr) ].
    + destruct leg; exact Hawait.
    + intros Hn. exfalso. destruct leg; apply Hn, Hidle.
    + destruct leg; exact Hoc.
  - apply bool_decide_eq_true in Hen. split; mux_cbn; try assumption.
  - apply bool_decide_eq_true in Hen.
    assert (Hn : command s <> Idle) by congruence.
    unfold onMuxEnd. destruct (bool_decide _).
    + split; mux_cbn; try assumption.
      * intros [|]; discriminate.
      * discriminate.
      * intros _. exact (Hcmd Hn).
    + apply catchAll_shape; mux_cbn; try assumption. intros _. exact (Hcmd Hn).
  - apply bool_decide_eq_true in Hen.
    assert (Hn : command s <> Idle) by congruence.
    apply catchAll_shape; mux_cbn; try assumption. intros _. exact (Hcmd Hn).
Qed.

Lemma run_shape (a : Args) (trace : list (Z * Event)) (s : State) (o : Outcome State) :
  MuxShape s -> run a s trace = Some o ->
  MuxShape (stateOf o) /\ o = Continue (stateOf o).
Proof.
  revert s. induction trace as [|[now e] trace IH]; intros s Hsh Hrun.
  - injection Hrun as <-. split; [exact Hsh|reflexivity].
  - cbn [run] in Hrun.
    destruct (step now a s e) as [o1|] eqn:Hstep; [|discriminate].
    destruct (step_shape _ _ _ _ _ Hsh Hstep) as [Hsh1 Ho1].
    rewrite Ho1 in Hrun. apply (IH _ Hsh1 Hrun).
Qed.

End MuxShapeProperties.

Section MuxFailure.
Import Schema Ytdl Runtime Mux MuxSpec.

Lemma step_quiescent (now : Z) (a : Args) (s : State) (e : Event) (o : Outcome State) :
  quiescent s -> step now a s e = Some o ->
  o = Continue (stateOf o) /\ world (stateOf o) = world s /\ quiescent (stateOf o).
Proof.
  intros (Hpc & Hv & Ha & Hc) Hstep. unfold step in Hstep.
  destruct (enabled s e) eqn:Hen; [|discriminate]. injection Hstep as <-.
  destruct e; cbn [enabled] in Hen;
    try (apply bool_decide_eq_true in Hen; try congruence;
         destruct leg; cbn [streamOf] in Hen; congruence).
  - apply andb_true_iff in Hen as [Hw Hs]. apply bool_decide_eq_true in Hw, Hs.
    cbn [dispatch listener isErrorEvent stateOf advance]. unfold onWriteFinish.
    destruct leg; mux_cbn; rewrite Hpc;
      (destruct (bool_decide_reflect (Returned = AwaitDownloads)) as [|_]; [discriminate|]);
      cbn [andb]; (split; [reflexivity|]); (split; [reflexivity|]);
      unfold quiescent; mux_cbn; auto.
  - apply bool_decide_eq_true in Hen.
    cbn [dispatch listener isErrorEvent stateOf advance]. unfold onLegError.
    destruct leg; mux_cbn; rewrite Hpc;
      (destruct (bool_decide_reflect (Returned = AwaitDownloads)) as [|_]; [discriminate|]);
      cbn [andb]; (split; [reflexivity|]); (split; [reflexivity|]);
      unfold quiescent; mux_cbn; auto.
Qed.

Lemma run_quiescent (a : Args) (trace : list (Z * Event)) (s : State) (o : Outcome State) :
  quiescent s -> run a s trace = Some o ->
  o = Continue (stateOf o) /\ world (stateOf o) = world s.
Proof.
  revert s. induction trace as [|[now e] trace IH]; intros s Hq Hrun.
  - injection Hrun as <-. split; reflexivity.
  - cbn [run] in Hrun.
    destruct (step now a s e) as [o1|] eqn:Hstep; [|discriminate].
    destruct (step_quiescent _ _ _ _ _ Hq Hstep) as (Ho1 & Hw1 & Hq1).
    rewrite Ho1 in Hrun. destruct (IH _ Hq1 Hrun) as [Ho Hw].
    split; [exact Ho|]. rewrite Hw. exact Hw1.
Qed.

(** What the [catch] block leaves behind. *)
Lemma catchAll_effect (now : Z) (a : Args) (s : State) :
  outputContainer s = "mp4" \/ outputContainer s = "webm" ->
  let s' := catchAll now a s in
  pc s' = Returned
  /\ (videoTempPath a ∉ files (world s'))
  /\ (audioTempPath a ∉ files (world s'))
  /\ (mp4Path a ∉ files (world s'))
  /\ (webmPath a ∉ files (world s'))
  /\ (finalFilepath a (outputContainer s') ∉ files (world s'))
  /\ (forall job, store (world s) !! downloadId a = Some job ->
        exists job', store (world s') !! downloadId a = Some job'
                     /\ status job' = "failed" /\ progress job' = Some 0).
Proof.
  intros Hoc. cbv zeta. mux_cbn. rewrite update_files, cleanup_files.
  split; [reflexivity|].
  assert (Hgone : forall p,
            p = videoTempPath a \/ p = audioTempPath a \/ p = mp4Path a \/ p = webmPath a ->
            p ∉ files (world s) ∖ {[videoTempPath a]} ∖ {[audioTempPath a]}
                  ∖ {[mp4Path a]} ∖ {[webmPath a]}).
  { intros p Hp H. rewrite !elem_of_difference, !elem_of_singleton in H.
    intuition congruence. }
  repeat split.
  - apply Hgone. auto.
  - apply Hgone. auto.
  - apply Hgone. auto.
  - apply Hgone. auto.
  - apply Hgone. unfold finalFilepath, mp4Path, webmPath.
    destruct Hoc as [-> | ->]; auto.
  - intros job Hj. eexists. split.
    + apply update_lookup. rewrite cleanup_store. exact Hj.
    + split; reflexivity.
Qed.
Lemma raises_catch (now : Z) (a : Args) (s : State) (e : Event) (o : Outcome State) :
  MuxShape s -> raisesError a s e = true -> step now a s e = Some o ->
  exists s1,
    o = Continue (catchAll now a s1)
    /\ world s1 = world s
    /\ (outputContainer s1 = "mp4" \/ outputContainer s1 = "webm")
    /\ (e = StreamError VideoLeg ->
        videoStream s1 = Errored /\ audioStream s1 = audioStream s
        /\ command s1 = command s).
Proof.
  intros [Hearly Hprom Hawait Hcmd Hoc] Hraise Hstep. unfold step in Hstep.
  destruct (enabled s e) eqn:Hen; [|discriminate]. injection Hstep as <-.
  destruct e; cbn [raisesError] in Hraise; try discriminate Hraise;
    cbn [enabled] in Hen; cbn [dispatch listener isErrorEvent advance].
  - exists s. unfold onInfo.
    destruct (List.find _ formats) as [vf|];
      [destruct (List.find _ formats) as [af|]|].
    + exfalso. rewrite !bool_decide_eq_true_2 in Hraise by eauto. discriminate Hraise.
    + repeat split; try assumption; discriminate.
    + repeat split; try assumption; discriminate.
  - exists s. repeat split; try assumption; discriminate.
  - apply bool_decide_eq_true in Hen, Hraise.
    destruct (Hawait Hraise) as [Hidle Hnrej].
    assert (Hnr : promiseOf leg s <> Resolved).
    { intros Hr. destruct (Hprom leg Hr) as [He _]. congruence. }
    exists (settle leg Rejected (withStream leg Errored s)).
    unfold onLegError.
    rewrite (bool_decide_eq_true_2 (pc _ = AwaitDownloads)) by (destruct leg; exact Hraise).
    rewrite (bool_decide_eq_true_2 (promiseOf leg _ = Rejected)).
    2: { pose proof (settle_Rejected_pending leg s Hnr (Hnrej leg)) as Hp.
         destruct leg; exact Hp. }
    cbn [andb]. split; [reflexivity|]. split; [destruct leg; reflexivity|].
    split; [destruct leg; exact Hoc|].
    intros [= ->]. repeat split; reflexivity.
  - apply bool_decide_eq_true in Hen, Hraise.
    destruct (Hawait Hraise) as [Hidle Hnrej].
    assert (Hnr : promiseOf leg s <> Resolved).
    { intros Hr. destruct (Hprom leg Hr) as [_ He]. congruence. }
    exists (settle leg Rejected (withWriteStream leg Errored s)).
    unfold onLegError.
    rewrite (bool_decide_eq_true_2 (pc _ = AwaitDownloads)) by (destruct leg; exact Hraise).
    rewrite (bool_decide_eq_true_2 (promiseOf leg _ = Rejected)).
    2: { pose proof (settle_Rejected_pending leg s Hnr (Hnrej leg)) as Hp.
         destruct leg; exact Hp. }
    cbn [andb]. split; [reflexivity|]. split; [destruct leg; reflexivity|].
    split; [destruct leg; exact Hoc|]. discriminate.
  - exists (withCommand Errored s). repeat split; try assumption; discriminate.
Qed.

(** C5: in any run of [startMuxDownload], an event that makes the function
    body throw (a failed catalogue lookup, a stream or write error of either
    download, an error of the mux command) is handled: afterwards the two
    temporary files and the final file under both extensions, and so under
    the chosen one, do not exist, and the job, if stored, is failed with
    progress 0. When it is the video fetch that fails after the audio
    download was written out, this is how the job ends: no later event
    changes the store or the files. *)
Theorem C5_mux_failure_cleanup (a : Args) (w : World) (trace : list (Z * Event))
    (s : State) (now : Z) (e : Event) (o : Outcome State) :
  run a (initial w) trace = Some (Continue s) ->
  raisesError a s e = true ->
  step now a s e = Some o ->
  exists s',
    o = Continue s'
    /\ pc s' = Returned
    /\ (videoTempPath a ∉ files (world s'))
    /\ (audioTempPath a ∉ files (world s'))
    /\ (mp4Path a ∉ files (world s'))
    /\ (webmPath a ∉ files (world s'))
    /\ (finalFilepath a (outputContainer s') ∉ files (world s'))
    /\ (forall job, store (world s) !! downloadId a = Some job ->
          exists job', store (world s') !! downloadId a = Some job'
                       /\ status job' = "failed" /\ progress job' = Some 0)
    /\ (e = StreamError VideoLeg -> audioPromise s = Resolved ->
        forall later o', run a s' later = Some o' ->
          o' = Continue (stateOf o') /\ world (stateOf o') = world s').
Proof.
  intros Hrun Hraise Hstep.
  destruct (run_shape a trace _ _ (initial_shape w) Hrun) as [Hsh _].
  cbn [stateOf] in Hsh.
  destruct (raises_catch _ _ _ _ _ Hsh Hraise Hstep) as (s1 & -> & Hw & Hoc & Hvideo).
  exists (catchAll now a s1). split; [reflexivity|].
  destruct (catchAll_effect now a s1 Hoc) as (H1 & H2 & H3 & H4 & H5 & H6 & H7).
  repeat (split; [assumption|]). split.
  - intros job Hj. apply (H7 job). rewrite Hw. exact Hj.
  - intros He Hap later o' Hlater.
    destruct (Hvideo He) as (Hvs & Has & Hcs). subst e.
    cbn [raisesError] in Hraise. apply bool_decide_eq_true in Hraise.
    destruct Hsh as [Hearly Hprom Hawait Hcmd _].
    destruct (Hawait Hraise) as [Hidle _].
    destruct (Hprom AudioLeg Hap) as [Hae _]. cbn [streamOf] in Hae.
    apply (run_quiescent a later (catchAll now a s1)); [|exact Hlater].
    unfold quiescent. mux_cbn. rewrite Hvs, Has, Hcs, Hae, Hidle.
    repeat split; discriminate.
Qed.

Lemma C5_mux_failure_witness :
  exists s',
    step 1008 Samples.muxArgs (Samples.stateAfter Samples.audioDone)
         (StreamError VideoLeg) = Some (Continue s')
    /\ pc s' = Returned
    /\ (videoTempPath Samples.muxArgs ∉ files (world s'))
    /\ (audioTempPath Samples.muxArgs ∉ files (world s'))
    /\ (forall job,
          store (world (Samples.stateAfter Samples.audioDone)) !! "job-1" = Some job ->
          exists job', store (world s') !! "job-1" = Some job'
                       /\ status job' = "failed" /\ progress job' = Some 0).
Proof.
  destruct (step 1008 Samples.muxArgs (Samples.stateAfter Samples.audioDone)
              (StreamError VideoLeg)) as [o|] eqn:Hstep;
    [|vm_compute in Hstep; discriminate Hstep].
  destruct (C5_mux_failure_cleanup Samples.muxArgs Samples.world0 Samples.audioDone
              (Samples.stateAfter Samples.audioDone) 1008 (StreamError VideoLeg) o)
    as (s' & -> & Hpc & Hv & Ha & _ & _ & _ & Hjob & _).
  - vm_compute. reflexivity.
  - vm_compute. reflexivity.
  - exact Hstep.
  - exists s'. repeat (split; [first [reflexivity | assumption]|]). exact Hjob.
Defined.
End MuxFailure.

(** Reduction of the state accessors of the single-stream orchestrator. *)
Ltac prog_cbn :=
  cbn [Progressive.world Progressive.info Progressive.stream Progressive.writeStream
       Progressive.command Progressive.plan Progressive.totalBytes
       Progressive.downloadedBytes Progressive.withWorld Progressive.catchAll
       Progressive.onCall Progressive.advance Progressive.initial
       Progressive.onAudioError Progressive.onVideoStreamError
       Progressive.onVideoStreamEnd Progressive.onConvertProgress
       Progressive.onConvertError Progressive.onStreamProgress
       Runtime.store Runtime.files Runtime.createFile Runtime.stateOf].

(** ** The single-stream orchestrator: invariant *)
Section ProgressiveInvariant.
Import Schema Ytdl Runtime Progressive ProgressiveSpec.

Lemma prog_initial_inv (a : Args) (w : World) :
  pendingJob (downloadId a) w -> ProgInv a (initial w).
Proof.
  intros Hpending. split; prog_cbn.
  - intros job Hjob. destruct (Hpending job Hjob) as [Hs Hp].
    unfold jobOk. rewrite Hs, Hp. split; [|discriminate].
    exists 0. split; [reflexivity|lia].
  - intros _. repeat split. intros job Hjob.
    destruct (Hpending job Hjob) as [Hs _]. rewrite Hs. discriminate.
  - discriminate.
Qed.

(** An update of the job record that leaves the life cycles alone. *)
Lemma prog_update_inv (a : Args) (now : Z) (u : PartialDownload) (w' : World)
    (s s' : State) :
  ProgInv a s ->
  (info s' = Idle \/ info s' = Active -> info s = Idle \/ info s = Active) ->
  stream s' = stream s -> writeStream s' = writeStream s ->
  command s' = command s -> plan s' = plan s ->
  world s' = update now (downloadId a) u w' -> store w' = store (world s) ->
  (forall job, store (world s) !! downloadId a = Some job ->
     (exists p, default (progress job) (p_progress u) = Some p /\ 0 <= p <= 100)
     /\ (default (status job) (p_status u) = "completed" ->
         default (progress job) (p_progress u) = Some 100 /\ quiet s)) ->
  (info s' = Idle \/ info s' = Active -> p_status u <> Some "completed") ->
  ProgInv a s'.
Proof.
  intros [Hjob Hearly Hcmd] Hi Hs Hw Hc Hp Hworld Hstore Hnew Hst.
  split.
  - intros job' H. rewrite Hworld in H.
    apply job_after_update with (w := world s) in H as (job & Hj & Hst' & Hpr');
      [|exact Hstore].
    destruct (Hnew job Hj) as [Hr Hcomp]. unfold jobOk. rewrite Hst', Hpr'.
    split; [exact Hr|]. intros Hc'. destruct (Hcomp Hc') as [H100 Hq].
    split; [exact H100|]. unfold quiet in *. rewrite Hs, Hc, Hp, Hw. exact Hq.
  - rewrite Hs, Hw, Hc. intros Hinfo'. pose proof (Hi Hinfo') as Hinfo.
    destruct (Hearly Hinfo) as (H1 & H2 & H3 & H4). repeat split; try assumption.
    intros job' H. rewrite Hworld in H.
    apply job_after_update with (w := world s) in H as (job & Hj & Hst' & _);
      [|exact Hstore].
    rewrite Hst'. specialize (Hst Hinfo'). specialize (H4 job Hj).
    destruct (p_status u) as [x|]; cbn; congruence.
  - rewrite Hc, Hs, Hw. exact Hcmd.
Qed.

(** Marking the job failed keeps the invariant, wherever it happens. *)
Lemma prog_failed_inv (a : Args) (now : Z) (w' : World) (s s' : State) :
  ProgInv a s ->
  (info s' = Idle \/ info s' = Active -> info s = Idle \/ info s = Active) ->
  stream s' = stream s -> writeStream s' = writeStream s ->
  command s' = command s -> plan s' = plan s ->
  world s' = update now (downloadId a) setFailed w' -> store w' = store (world s) ->
  ProgInv a s'.
Proof.
  intros Hinv Hi Hs Hw Hc Hp Hworld Hstore.
  apply (prog_update_inv a now setFailed w' s s'); try assumption.
  - intros job Hj. cbn. split; [|discriminate]. exists 0. split; [reflexivity|lia].
  - intros _. cbn. discriminate.
Qed.

(** The life cycles alone may advance: the invariant is kept, and a source
    that was still active shows that the job is not completed yet. *)
Lemma prog_advance_inv (a : Args) (s : State) (e : Event) :
  ProgInv a s -> enabled s e = true ->
  match e with Call | InfoResolved _ | InfoRejected => False | _ => True end ->
  ProgInv a (advance s e).
Proof.
  intros [Hjob Hearly Hcmd] Hen He.
  destruct e; try destruct He; cbn [enabled] in Hen;
    try apply andb_true_iff in Hen as [Hen Hen'];
    apply bool_decide_eq_true in Hen; try apply bool_decide_eq_true in Hen';
    try (split; assumption).
  all: split; prog_cbn;
    [ intros job Hj; destruct (Hjob job Hj) as [Hr Hc]; split; [exact Hr|];
      intros Hcomp; destruct (Hc Hcomp) as (H100 & Hq1 & Hq2 & Hq3);
      split; [exact H100|]; unfold quiet; prog_cbn;
      repeat split; first [assumption | discriminate | intros; discriminate]
    | intros Hinfo; exfalso; destruct (Hearly Hinfo) as (H1 & H2 & H3 & _); congruence
    | intros Hc; first [discriminate Hc | exfalso; destruct (Hcmd Hc); congruence] ].
Qed.

Lemma prog_step_inv (now : Z) (a : Args) (s : State) (e : Event) (o : Outcome State) :
  ProgInv a s -> wellFormed e -> step now a s e = Some o -> ProgInv a (stateOf o).
Proof.
  intros Hinv Hwf Hstep. unfold step in Hstep.
  destruct (enabled s e) eqn:Hen; [|discriminate]. injection Hstep as <-.
  pose proof Hinv as [Hjob Hearly Hcmd].
  destruct e.
  - (* Call *)
    cbn [enabled] in Hen. apply bool_decide_eq_true in Hen.
    cbn [dispatch stateOf].
    apply (prog_update_inv a now (setStatus "downloading") (world s) s);
      try reflexivity; try assumption.
    + intros _. left; exact Hen.
    + intros job Hj. destruct (Hjob job Hj) as [Hr _]. cbn. split; [exact Hr|].
      discriminate.
    + intros _. fields_cbn. discriminate.
  - (* InfoResolved *)
    cbn [enabled] in Hen. apply bool_decide_eq_true in Hen.
    destruct (Hearly (or_intror Hen)) as (Hs0 & Hw0 & Hc0 & Hnot).
    cbn [dispatch stateOf]. unfold onInfo.
    assert (Hfail : ProgInv a (catchAll now a (advance s (InfoResolved formats)))).
    { apply (prog_failed_inv a now (world s) s); try reflexivity; try assumption.
      prog_cbn. intros [|]; discriminate. }
    assert (Hok : forall p,
              ProgInv a (mkState (createFile (tempFilepath p)
                                    (world (advance s (InfoResolved formats))))
                           (info (advance s (InfoResolved formats))) Active Active
                           (command (advance s (InfoResolved formats))) (Some p) 0 0)).
    { intros p. split; prog_cbn.
      - intros job Hj. destruct (Hjob job Hj) as [Hr _]. split; [exact Hr|].
        intros Hcomp. exfalso. apply (Hnot job Hj), Hcomp.
      - intros [|]; discriminate.
      - intros Hc. congruence. }
    destruct (JS.arrayIncludes audioStyle (format a)).
    + destruct (selectAudioFormat formats (itag a)); [apply Hok | exact Hfail].
    + destruct (selectVideoFormat formats (itag a)); [apply Hok | exact Hfail].
  - (* InfoRejected *)
    cbn [dispatch stateOf].
    apply (prog_failed_inv a now (world s) s); try reflexivity; try assumption.
    prog_cbn. intros [|]; discriminate.
  - (* StreamProgress *)
    cbn [enabled] in Hen. apply bool_decide_eq_true in Hen.
    cbn [dispatch advance]. destruct (plan s) as [p|] eqn:Hplan; [|exact Hinv].
    cbn [listener stateOf]. destruct Hwf as [Hd Ht].
    eapply (prog_update_inv a now _ (world s) s); try reflexivity; try assumption.
    + tauto.
    + intros job Hj. destruct (Hjob job Hj) as [Hr Hc]. fields_cbn. split.
      * destruct (isMP3Conversion p).
        -- destruct (progress_bounds downloaded total 70 Hd Ht ltac:(lia))
             as (q & -> & Hq).
           exists q. split; [reflexivity|lia].
        -- destruct (progress_bounds downloaded total 100 Hd Ht ltac:(lia))
             as (q & -> & Hq).
           exists q. split; [reflexivity|lia].
      * intros Hcomp. exfalso. destruct (Hc Hcomp) as (_ & Hq & _). apply Hq, Hen.
    + intros _. fields_cbn. discriminate.
  - (* StreamEnd *)
    pose proof (prog_advance_inv a s StreamEnd Hinv Hen I) as Hadv.
    cbn [enabled] in Hen. apply bool_decide_eq_true in Hen.
    cbn [dispatch]. destruct (plan (advance s StreamEnd)) as [p|] eqn:Hplan;
      [|exact Hadv].
    cbn [listener]. destruct (audioBranch p) eqn:Hab; [exact Hadv|].
    cbn [stateOf].
    apply (prog_update_inv a now (setCompleted (finalFilepath p) (JS.mbLabel (totalBytes (advance s StreamEnd))))
             (world s) (advance s StreamEnd));
      try reflexivity; try assumption.
    + tauto.
    + intros job Hj. destruct (Hjob job Hj) as [Hr Hc]. fields_cbn. split.
      * exists 100. split; [reflexivity|lia].
      * intros _. split; [reflexivity|]. unfold quiet. prog_cbn.
        split; [discriminate|]. split.
        -- intros Hc'. destruct (Hcmd Hc'). congruence.
        -- intros p' Hp' Hab'. cbn [plan advance] in Hplan. congruence.
    + prog_cbn. intros Hinfo. exfalso.
      destruct (Hearly Hinfo) as (H1 & _). congruence.
  - (* StreamError *)
    pose proof (prog_advance_inv a s StreamError Hinv Hen I) as Hadv.
    cbn [dispatch]. destruct (plan (advance s StreamError)) as [p|] eqn:Hplan;
      [|exact Hadv].
    cbn [listener]. destruct (audioBranch p); cbn [stateOf].
    + eapply (prog_failed_inv a now _ (advance s StreamError));
        try reflexivity; try assumption; [tauto|].
      destruct (isMP3Conversion p); [apply unlinkIfExists_store|reflexivity].
    + apply (prog_failed_inv a now (world s) (advance s StreamError));
        try reflexivity; try assumption. tauto.
  - (* WriteFinish *)
    pose proof (prog_advance_inv a s WriteFinish Hinv Hen I) as Hadv.
    cbn [enabled] in Hen. apply andb_true_iff in Hen as [Hw Hs].
    apply bool_decide_eq_true in Hw, Hs.
    cbn [dispatch]. destruct (plan (advance s WriteFinish)) as [p|] eqn:Hplan;
      [|exact Hadv].
    cbn [plan advance] in Hplan.
    cbn [listener]. destruct (audioBranch p) eqn:Hab; [|exact Hadv].
    cbn [stateOf]. unfold onAudioFinish.
    assert (Hnot : forall job, store (world s) !! downloadId a = Some job ->
                     status job <> "completed").
    { intros job Hj Hcomp. destruct (Hjob job Hj) as [_ Hc].
      destruct (Hc Hcomp) as (_ & _ & _ & Hq). apply (Hq p Hplan Hab), Hw. }
    destruct (isMP3Conversion p).
    + split; prog_cbn.
      * intros job' H.
        apply job_after_update with (w := world s) in H as (job & Hj & Hst & Hpr);
          [|reflexivity].
        fields_cbn in Hst; fields_cbn in Hpr. unfold jobOk. rewrite Hst, Hpr. split.
        -- exists 75. split; [reflexivity|lia].
        -- intros Hcomp. exfalso. apply (Hnot job Hj), Hcomp.
      * intros Hinfo. exfalso. destruct (Hearly Hinfo) as (H1 & _). congruence.
      * intros _. split; [exact Hs|reflexivity].
    + apply (prog_update_inv a now (setCompleted (finalFilepath p) (JS.mbLabel (totalBytes (advance s WriteFinish))))
               (world s) (advance s WriteFinish));
        try reflexivity; try assumption.
      * tauto.
      * intros job Hj. fields_cbn. split.
        -- exists 100. split; [reflexivity|lia].
        -- intros _. split; [reflexivity|]. unfold quiet. prog_cbn.
           split; [congruence|]. split.
           ++ intros Hc'. destruct (Hcmd Hc'). congruence.
           ++ intros; discriminate.
      * prog_cbn. intros Hinfo. exfalso.
        destruct (Hearly Hinfo) as (H1 & _). congruence.
  - (* WriteError *)
    pose proof (prog_advance_inv a s WriteError Hinv Hen I) as Hadv.
    cbn [dispatch]. destruct (plan (advance s WriteError)) as [p|] eqn:Hplan;
      [|exact Hadv].
    cbn [listener isErrorEvent]. destruct (audioBranch p); cbn [stateOf];
      [|exact Hadv].
    eapply (prog_failed_inv a now _ (advance s WriteError));
      try reflexivity; try assumption; [tauto|].
    destruct (isMP3Conversion p); [apply unlinkIfExists_store|reflexivity].
  - (* FfmpegProgress *)
    cbn [enabled] in Hen. apply bool_decide_eq_true in Hen.
    cbn [dispatch advance]. destruct (plan s) as [p|] eqn:Hplan; [|exact Hinv].
    cbn [listener stateOf].
    eapply (prog_update_inv a now _ (world s) s); try reflexivity; try assumption.
    + tauto.
    + intros job Hj. destruct (Hjob job Hj) as [Hr Hc]. fields_cbn. split.
      * assert (Hwf' : forall q, percent = Some q -> (0 <= q)%Q /\ (q <= 100)%Q)
          by (intros q ->; exact Hwf).
        destruct (convert_bounds percent Hwf') as (q & -> & Hq).
        exists q. split; [reflexivity|lia].
      * intros Hcomp. exfalso. destruct (Hc Hcomp) as (_ & _ & Hq & _). apply Hq, Hen.
    + intros _. fields_cbn. discriminate.
  - (* FfmpegEnd *)
    pose proof (prog_advance_inv a s (FfmpegEnd size) Hinv Hen I) as Hadv.
    cbn [enabled] in Hen. apply bool_decide_eq_true in Hen.
    destruct (Hcmd Hen) as [Hse Hwe].
    cbn [dispatch]. destruct (plan (advance s (FfmpegEnd size))) as [p|] eqn:Hplan;
      [|exact Hadv].
    cbn [listener stateOf]. unfold onConvertEnd. destruct (bool_decide _).
    + eapply (prog_update_inv a now _ _ (advance s (FfmpegEnd size)));
        try reflexivity; try assumption.
      * tauto.
      * apply unlinkIfExists_store.
      * intros job Hj. fields_cbn. split.
        -- exists 100. split; [reflexivity|lia].
        -- intros _. split; [reflexivity|]. unfold quiet. prog_cbn.
           rewrite Hse, Hwe. repeat split; first [discriminate | intros; discriminate].
      * prog_cbn. intros Hinfo. exfalso.
        destruct (Hearly Hinfo) as (H1 & _). congruence.
    + eapply (prog_failed_inv a now _ (advance s (FfmpegEnd size)));
        try reflexivity; try assumption; [tauto|].
      rewrite !unlinkIfExists_store. reflexivity.
  - (* FfmpegError *)
    pose proof (prog_advance_inv a s FfmpegError Hinv Hen I) as Hadv.
    cbn [dispatch]. destruct (plan (advance s FfmpegError)) as [p|] eqn:Hplan;
      [|exact Hadv].
    cbn [listener stateOf].
    eapply (prog_failed_inv a now _ (advance s FfmpegError));
      try reflexivity; try assumption; [tauto|].
    apply unlinkIfExists_store.
Qed.

Lemma prog_run_inv (a : Args) (trace : list (Z * Event)) (s : State)
    (o : Outcome State) :
  ProgInv a s -> Forall (fun te => wellFormed (snd te)) trace ->
  run a s trace = Some o -> ProgInv a (stateOf o).
Proof.
  revert s. induction trace as [|[now e] trace IH]; intros s Hinv Hwf Hrun.
  - injection Hrun as <-. exact Hinv.
  - cbn [run] in Hrun. apply Forall_cons in Hwf as [Hwf1 Hwf].
    destruct (step now a s e) as [o1|] eqn:Hstep; [|discriminate].
    pose proof (prog_step_inv _ _ _ _ _ Hinv Hwf1 Hstep) as Hinv1.
    destruct o1 as [s1|s1]; cbn [stateOf] in Hinv1.
    + apply (IH _ Hinv1 Hwf Hrun).
    + injection Hrun as <-. exact Hinv1.
Qed.

End ProgressiveInvariant.

(** ** Progress and status of the job across the three paths *)
Section ProgressProperties.
Import Schema Ytdl Runtime.

Lemma world0_pending : pendingJob "job-1" Samples.world0.
Proof.
  intros job Hj. vm_compute in Hj. injection Hj as <-. split; reflexivity.
Qed.

(** C2 (as stated): in the progressive path the last progress report of the
    fetch writes progress 100 while the job is still downloading, so
    "progress is 100 if and only if the status is completed" does not hold
    across the runs of [startDownload]. *)
Lemma C2_progress_100_while_downloading :
  ~ (forall (a : Progressive.Args) (w : World)
            (trace : list (Z * Progressive.Event)) (o : Outcome Progressive.State),
        pendingJob (Progressive.downloadId a) w ->
        Forall (fun te => Progressive.wellFormed (snd te)) trace ->
        Progressive.run a (Progressive.initial w) trace = Some o ->
        forall job,
          store (Progressive.world (stateOf o)) !! Progressive.downloadId a = Some job ->
          (exists p, progress job = Some p /\ 0 <= p <= 100)
          /\ (progress job = Some 100 <-> status job = "completed")).
Proof.
  intros H.
  destruct (Progressive.run Samples.videoArgs (Progressive.initial Samples.world0)
              Samples.fetched) as [o|] eqn:Hrun;
    [|vm_compute in Hrun; discriminate Hrun].
  specialize (H Samples.videoArgs Samples.world0 Samples.fetched o world0_pending).
  assert (Hwf : Forall (fun te => Progressive.wellFormed (snd te)) Samples.fetched).
  { repeat constructor; cbn; lia. }
  specialize (H Hwf Hrun).
  assert (Hst : stateOf o = Samples.progressiveAfter Samples.videoArgs Samples.fetched)
    by (unfold Samples.progressiveAfter; rewrite Hrun; reflexivity).
  rewrite Hst in H.
  destruct (store (Progressive.world
                     (Samples.progressiveAfter Samples.videoArgs Samples.fetched))
              !! "job-1") as [job|] eqn:Hj;
    [|vm_compute in Hj; discriminate Hj].
  destruct (H job Hj) as [_ [Hiff _]].
  vm_compute in Hj. injection Hj as <-.
  specialize (Hiff eq_refl). discriminate Hiff.
Qed.

(** C2 (amended): for a job created pending with progress 0, and events
    whose progress reports satisfy 0 <= downloaded <= total (with
    total > 0 in the single-stream paths) and whose tool percentages lie in
    0..100, after every run of either orchestrator the job's progress is an
    integer in 0..100 and a completed job has progress 100; in the mux path
    progress is 100 exactly when the job is completed. *)
Theorem C2_progress_range_and_completion :
  (forall (a : Progressive.Args) (w : World)
          (trace : list (Z * Progressive.Event)) (o : Outcome Progressive.State),
      pendingJob (Progressive.downloadId a) w ->
      Forall (fun te => Progressive.wellFormed (snd te)) trace ->
      Progressive.run a (Progressive.initial w) trace = Some o ->
      forall job,
        store (Progressive.world (stateOf o)) !! Progressive.downloadId a = Some job ->
        (exists p, progress job = Some p /\ 0 <= p <= 100)
        /\ (status job = "completed" -> progress job = Some 100))
  /\ (forall (a : Mux.Args) (w : World)
             (trace : list (Z * Mux.Event)) (o : Outcome Mux.State),
        pendingJob (Mux.downloadId a) w ->
        Forall (fun te => Mux.wellFormed (snd te)) trace ->
        Mux.run a (Mux.initial w) trace = Some o ->
        forall job,
          store (Mux.world (stateOf o)) !! Mux.downloadId a = Some job ->
          (exists p, progress job = Some p /\ 0 <= p <= 100)
          /\ (progress job = Some 100 <-> status job = "completed")).
Proof.
  split.
  - intros a w trace o Hpending Hwf Hrun job Hj.
    pose proof (prog_run_inv a trace _ o (prog_initial_inv a w Hpending) Hwf Hrun)
      as [Hjob _ _].
    destruct (Hjob job Hj) as [Hr Hc]. split; [exact Hr|].
    intros Hcomp. apply (Hc Hcomp).
  - intros a w trace o Hpending Hwf Hrun job Hj.
    destruct (run_inv a trace _ o (initial_inv a w Hpending) Hwf Hrun)
      as [[Hjob _ _ _ _ _] _].
    destruct (Hjob job Hj) as (Hr & Hh & Hc). split; [exact Hr|].
    split; [exact Hh|]. intros Hcomp. apply (Hc Hcomp).
Qed.

Lemma C2_progress_range_witness :
  (forall job,
      store (Progressive.world
               (Samples.progressiveAfter Samples.mp3Args Samples.converted))
        !! "job-1" = Some job ->
      (exists p, progress job = Some p /\ 0 <= p <= 100)
      /\ (status job = "completed" -> progress job = Some 100))
  /\ (forall job,
        store (Mux.world (Samples.stateAfter Samples.muxed)) !! "job-1" = Some job ->
        (exists p, progress job = Some p /\ 0 <= p <= 100)
        /\ (progress job = Some 100 <-> status job = "completed")).
Proof.
  destruct C2_progress_range_and_completion as [Hprog Hmux]. split.
  - intros job Hj.
    destruct (Progressive.run Samples.mp3Args (Progressive.initial Samples.world0)
                Samples.converted) as [o|] eqn:Hrun;
      [|vm_compute in Hrun; discriminate Hrun].
    apply (Hprog Samples.mp3Args Samples.world0 Samples.converted o world0_pending).
    + repeat constructor; cbn; try lia; unfold Qle; cbn; lia.
    + exact Hrun.
    + unfold Samples.progressiveAfter in Hj. rewrite Hrun in Hj. exact Hj.
  - intros job Hj.
    destruct (Mux.run Samples.muxArgs (Mux.initial Samples.world0) Samples.muxed)
      as [o|] eqn:Hrun; [|vm_compute in Hrun; discriminate Hrun].
    apply (Hmux Samples.muxArgs Samples.world0 Samples.muxed o world0_pending).
    + repeat constructor; cbn; try lia; unfold Qle; cbn; lia.
    + exact Hrun.
    + unfold Samples.stateAfter in Hj. rewrite Hrun in Hj. exact Hj.
Defined.

(** C6 (the code at the failing run): when the destination file of the
    video branch of [startDownload] raises an error, no listener is
    registered for it: the run ends in an uncaught error and the job is left
    downloading, with the progress last written. *)
Lemma C6_write_error_uncaught_in_video_branch :
  exists s,
    Progressive.run Samples.videoArgs (Progressive.initial Samples.world0)
      Samples.writeFails = Some (Crashed s)
    /\ status <$> (store (Progressive.world s) !! "job-1") = Some "downloading"
    /\ progress <$> (store (Progressive.world s) !! "job-1") = Some (Some 10).
Proof.
  eexists. split; [vm_compute; reflexivity|].
  split; vm_compute; reflexivity.
Qed.

End ProgressProperties.

(** ** The job store: round trips and composition *)
Section StoreExtras.
Import Schema Storage StoreSpec.

(** X1: a created record is found under the generated id, carries that id
    and the creation time in both timestamps, never holds an empty string in
    an optional text column that the method normalises, and leaves every
    other key of the map as it was. *)
Theorem X1_createDownload_roundtrip (uuid : string) (now : Z) (ins : InsertDownload)
    (store : gmap string Download) :
  let d := fst (createDownload uuid now ins store) in
  let store' := snd (createDownload uuid now ins store) in
  getDownload uuid store' = Some d
  /\ id d = uuid /\ createdAt d = Some now /\ updatedAt d = Some now
  /\ status d = i_status ins /\ progress d = i_progress ins
  /\ thumbnail d <> Some "" /\ duration d <> Some "" /\ views d <> Some ""
  /\ author d <> Some "" /\ filePath d <> Some "" /\ fileSize d <> Some ""
  /\ itag d <> Some ""
  /\ (forall other, other <> uuid -> getDownload other store' = getDownload other store).
Proof.
  assert (Hnull : forall o, JS.orNull o <> Some "").
  { intros [t|]; cbn; [|discriminate].
    destruct (String.eqb_spec t ""); [discriminate|congruence]. }
  cbv zeta. unfold createDownload, getDownload. cbn [fst snd].
  split; [apply lookup_insert_eq|].
  cbn [id createdAt updatedAt status progress thumbnail duration views author
       filePath fileSize itag].
  repeat (split; [first [reflexivity | apply Hnull]|]).
  intros other Hne. apply lookup_insert_ne. congruence.
Qed.

(** X2: [deleteDownload] reports whether the id was stored; afterwards the id
    is absent and every other key is unchanged; deleting an id that is not
    stored reports [false] and changes nothing. *)
Theorem X2_deleteDownload_effect (key : string) (store : gmap string Download) :
  let found := fst (deleteDownload key store) in
  let store' := snd (deleteDownload key store) in
  (found = true <-> is_Some (getDownload key store))
  /\ getDownload key store' = None
  /\ (forall other, other <> key -> getDownload other store' = getDownload other store)
  /\ (getDownload key store = None -> found = false /\ store' = store).
Proof.
  cbv zeta. unfold deleteDownload, getDownload. cbn [fst snd].
  split; [apply bool_decide_eq_true|].
  split; [apply lookup_delete_eq|].
  split.
  - intros other Hne. apply lookup_delete_ne. congruence.
  - intros Hnone. split.
    + apply bool_decide_eq_false. rewrite Hnone. intros [x Hx]. discriminate Hx.
    + apply delete_id. exact Hnone.
Qed.

Lemma applyOp_keyed (store : gmap string Download) (op : Op) :
  keyed store -> idFree op -> keyed (applyOp store op).
Proof.
  intros Hk Hfree. destruct op as [uuid now ins|now key updates|key|]; cbn [applyOp].
  - unfold createDownload. cbn [snd]. intros k d.
    rewrite lookup_insert. case_decide as Heq.
    + intros [= <-]. exact Heq.
    + apply Hk.
  - unfold updateDownload. destruct (store !! key) as [existing|] eqn:He; cbn [snd].
    + intros k d. rewrite lookup_insert. case_decide as Heq.
      * intros [= <-]. cbn [id spread]. cbn in Hfree. rewrite Hfree. cbn.
        rewrite <- Heq. apply (Hk key existing He).
      * apply Hk.
    + exact Hk.
  - unfold deleteDownload. cbn [snd]. intros k d.
    rewrite lookup_delete. case_decide; [discriminate|apply Hk].
  - unfold clearDownloads. intros k d. rewrite lookup_empty. discriminate.
Qed.

(** X3: starting from the empty store, after any sequence of creations,
    deletions, clears and updates that do not name the [id] column, every
    record is stored under its own id. *)
Theorem X3_records_stored_under_their_id (ops : list Op) :
  Forall idFree ops -> keyed (applyOps ∅ ops).
Proof.
  intros Hfree. unfold applyOps.
  assert (Hgen : forall store, keyed store -> keyed (foldl applyOp store ops)).
  { induction Hfree as [|op ops Hop Hops IH]; intros store Hk; cbn [foldl].
    - exact Hk.
    - apply IH, applyOp_keyed; assumption. }
  apply Hgen. intros k d. rewrite lookup_empty. discriminate.
Qed.

Lemma X3_records_stored_under_their_id_witness :
  keyed (applyOps ∅ [OpCreate "job-1" 1000 Samples.request;
                     OpUpdate 2000 "job-1" (Runtime.setProgress 40);
                     OpCreate "job-2" 3000 Samples.request;
                     OpDelete "job-1"]).
Proof.
  apply X3_records_stored_under_their_id.
  repeat constructor.
Defined.



End StoreExtras.

(** ** The route module: helpers and handlers *)
Section RouteExtras.
Import Schema Runtime Routes.

Lemma padStart_two_digits (m : Z) :
  0 <= m < 60 -> String.length (padStart 2 (JS.toString m)) = 2%nat.
Proof.
  intros Hm.
  assert (Hall : forallb (fun n => Nat.eqb (String.length
                            (padStart 2 (JS.toString (Z.of_nat n)))) 2)
                   (seq 0 60) = true) by (vm_compute; reflexivity).
  rewrite forallb_forall in Hall.
  specialize (Hall (Z.to_nat m)). rewrite Z2Nat.id in Hall by lia.
  apply Nat.eqb_eq, Hall, in_seq. lia.
Qed.

(** X5: for a non-negative number of seconds, [formatDuration] renders the
    hours, minutes and seconds that recompose to the input, with minutes and
    seconds below 60 and always written with two digits; the hours field is
    left out when it is zero. *)
Theorem X5_formatDuration_fields (seconds : Z) :
  0 <= seconds ->
  exists h m s,
    0 <= h /\ 0 <= m < 60 /\ 0 <= s < 60
    /\ h * 3600 + m * 60 + s = seconds
    /\ String.length (padStart 2 (JS.toString m)) = 2%nat
    /\ String.length (padStart 2 (JS.toString s)) = 2%nat
    /\ formatDuration seconds
       = if 0 <? h
         then JS.toString h +:+ ":" +:+ padStart 2 (JS.toString m)
              +:+ ":" +:+ padStart 2 (JS.toString s)
         else JS.toString m +:+ ":" +:+ padStart 2 (JS.toString s).
Proof.
  intros Hs.
  exists (seconds / 3600), (Z.rem seconds 3600 / 60), (Z.rem seconds 60).
  assert (H1 : Z.rem seconds 3600 = seconds mod 3600) by (apply Z.rem_mod_nonneg; lia).
  assert (H2 : Z.rem seconds 60 = seconds mod 60) by (apply Z.rem_mod_nonneg; lia).
  pose proof (Z.mod_pos_bound seconds 3600 ltac:(lia)) as Hb1.
  pose proof (Z.mod_pos_bound seconds 60 ltac:(lia)) as Hb2.
  assert (Hm : 0 <= Z.rem seconds 3600 / 60 < 60).
  { rewrite H1. split; [apply Z.div_pos; lia|].
    apply Z.div_lt_upper_bound; lia. }
  assert (Hsec : 0 <= Z.rem seconds 60 < 60) by (rewrite H2; exact Hb2).
  split; [apply Z.div_pos; lia|]. split; [exact Hm|]. split; [exact Hsec|].
  split.
  { rewrite H1, H2.
    pose proof (Z.div_mod seconds 3600 ltac:(lia)) as D1.
    pose proof (Z.div_mod (seconds mod 3600) 60 ltac:(lia)) as D2.
    assert (D3 : (seconds mod 3600) mod 60 = seconds mod 60).
    { apply Z.mod_mod_divide. exists 60. reflexivity. }
    rewrite D3 in D2. lia. }
  split; [apply padStart_two_digits, Hm|].
  split; [apply padStart_two_digits, Hsec|].
  reflexivity.
Qed.

Lemma X5_formatDuration_witness :
  formatDuration 3725 = "1:02:05" /\ formatDuration 59 = "0:59".
Proof.
  destruct (X5_formatDuration_fields 3725) as (h & m & s & _); [lia|].
  split; vm_compute; reflexivity.
Defined.

(** X6: [POST /api/download] stores the new record under the generated id,
    pending with progress 0 (the state the orchestrators start from), leaves
    the files and every other record alone, and starts the orchestrator of
    the request's method on that id with the request's stream ids. *)
Theorem X6_startRoute_creates_pending_job (cwd uuid : string) (now : Z)
    (downloadData : DownloadRequest) (w : World) :
  let download := fst (fst (startRoute cwd uuid now downloadData w)) in
  let w' := snd (fst (startRoute cwd uuid now downloadData w)) in
  let started := snd (startRoute cwd uuid now downloadData w) in
  store w' !! uuid = Some download
  /\ id download = uuid
  /\ status download = "pending" /\ progress download = Some 0
  /\ pendingJob uuid w'
  /\ files w' = files w
  /\ (forall other, other <> uuid -> store w' !! other = store w !! other)
  /\ match downloadData, started with
     | ProgressiveRequest videoId _ _ _ _ _ _ format itag', StartDownload a =>
         Progressive.downloadId a = uuid /\ Progressive.videoId a = videoId
         /\ Progressive.itag a = itag' /\ Progressive.format a = format
         /\ downloadMethod download = "progressive"
     | MuxRequest videoId _ _ _ _ _ _ format videoItag' audioItag', StartMuxDownload a =>
         Mux.downloadId a = uuid /\ Mux.videoId a = videoId
         /\ Mux.videoItag a = videoItag' /\ Mux.audioItag a = audioItag'
         /\ downloadMethod download = "mux"
         /\ videoItag download = Some videoItag' /\ audioItag download = Some audioItag'
     | _, _ => False
     end.
Proof.
  cbv zeta. destruct downloadData; unfold startRoute, Storage.createDownload;
    cbn [fst snd store files insertOf i_status i_progress id status progress
         downloadMethod videoItag audioItag i_downloadMethod i_videoItag i_audioItag
         Progressive.downloadId Progressive.videoId Progressive.itag Progressive.format
         Mux.downloadId Mux.videoId Mux.videoItag Mux.audioItag].
  all: split; [apply lookup_insert_eq|].
  all: repeat (split; [reflexivity|]).
  all: split;
    [ unfold pendingJob; cbn [store]; intros job Hj;
      rewrite lookup_insert_eq in Hj; injection Hj as <-;
      split; reflexivity |].
  all: split; [reflexivity|].
  all: split; [intros other Hne; apply lookup_insert_ne; congruence|].
  all: repeat split; reflexivity.
Qed.

(** X7: [DELETE /api/download/:id] answers 404 and changes nothing when the
    id is not stored; otherwise it answers 200, the record is gone, its
    recorded file (if any) no longer exists, and every other record and
    every other file is as before. *)
Theorem X7_deleteRoute_effect (key : string) (w : World) :
  (store w !! key = None -> deleteRoute key w = (404, w))
  /\ (forall download, store w !! key = Some download ->
        let w' := snd (deleteRoute key w) in
        fst (deleteRoute key w) = 200
        /\ store w' !! key = None
        /\ (forall other, other <> key -> store w' !! other = store w !! other)
        /\ (forall path, filePath download = Some path -> path <> "" ->
              path ∉ files w')
        /\ (forall path, filePath download <> Some path ->
              (path ∈ files w' <-> path ∈ files w))).
Proof.
  unfold deleteRoute, Storage.getDownload, Storage.deleteDownload. split.
  - intros ->. reflexivity.
  - intros download ->. cbv zeta. cbn [fst snd].
    set (w1 := match filePath download with Some _ => _ | None => _ end).
    assert (Hs : store w1 = store w).
    { unfold w1. destruct (filePath download) as [p|]; [|reflexivity].
      destruct (_ && _); reflexivity. }
    cbn [store files]. rewrite Hs.
    split; [reflexivity|].
    split; [apply lookup_delete_eq|].
    split; [intros other Hne; apply lookup_delete_ne; congruence|].
    split.
    + intros path Hp Hne. unfold w1. rewrite Hp.
      destruct (String.eqb_spec path ""); [contradiction|]. cbn [negb andb].
      destruct (bool_decide_reflect (path ∈ files w)) as [Hin|Hin]; cbn [files].
      * rewrite elem_of_difference, elem_of_singleton. tauto.
      * exact Hin.
    + intros path Hp. unfold w1. destruct (filePath download) as [p|]; [|reflexivity].
      destruct (_ && _); [|reflexivity]. cbn [files].
      rewrite elem_of_difference, elem_of_singleton. split; [tauto|].
      intros Hin. split; [exact Hin|]. congruence.
Qed.

Lemma X7_deleteRoute_witness :
  fst (deleteRoute "job-1" Samples.world0) = 200
  /\ store (snd (deleteRoute "job-1" Samples.world0)) !! "job-1" = None
  /\ deleteRoute "job-9" Samples.world0 = (404, Samples.world0).
Proof.
  destruct (X7_deleteRoute_effect "job-1" Samples.world0) as [_ Hpresent].
  destruct (X7_deleteRoute_effect "job-9" Samples.world0) as [Habsent _].
  destruct (Hpresent Samples.job) as (H1 & H2 & _); [vm_compute; reflexivity|].
  split; [exact H1|]. split; [exact H2|].
  apply Habsent. vm_compute. reflexivity.
Defined.

End RouteExtras.

(** ** Sorting by a key, largest first *)
Section SortedByKey.
Context {A : Type} (key : A -> Z) (cmp : A -> A -> Z).
Hypothesis cmp_key : forall a b, cmp a b = key b - key a.

Lemma insertSorted_In (x y : A) (l : list A) :
  In y (JS.insertSorted cmp x l) <-> y = x \/ In y l.
Proof.
  split.
  - intros H. apply (Permutation_in y (insertSorted_Permutation cmp x l)) in H.
    destruct H as [<-|H]; auto.
  - intros H. apply (Permutation_in y (Permutation_sym (insertSorted_Permutation cmp x l))).
    destruct H as [->|H]; [left; reflexivity|right; exact H].
Qed.

Lemma insertSorted_sorted (x : A) (l : list A) :
  StronglySorted (fun a b => key b <= key a) l ->
  StronglySorted (fun a b => key b <= key a) (JS.insertSorted cmp x l).
Proof.
  induction 1 as [|y l Hl IH Hy]; cbn [JS.insertSorted].
  - constructor; constructor.
  - rewrite cmp_key. destruct (Z.ltb_spec 0 (key y - key x)) as [Hlt|Hge].
    + constructor; [exact IH|].
      apply List.Forall_forall. intros z Hz. apply insertSorted_In in Hz as [->|Hz].
      * lia.
      * rewrite List.Forall_forall in Hy. apply Hy, Hz.
    + constructor; [constructor; assumption|].
      constructor; [lia|].
      apply List.Forall_forall. intros z Hz. rewrite List.Forall_forall in Hy.
      specialize (Hy z Hz). lia.
Qed.

Lemma sort_sorted (l : list A) :
  StronglySorted (fun a b => key b <= key a) (JS.sort cmp l).
Proof.
  induction l as [|x l IH]; cbn [JS.sort].
  - constructor.
  - apply insertSorted_sorted, IH.
Qed.

End SortedByKey.

(** ** The format resolver: the menu beyond the claims *)
Section ResolverExtras.
Import Ytdl Resolver.

Lemma fromSet_complete (x : string) (l : list string) : In x l -> In x (JS.fromSet l).
Proof.
  induction l as [|y l IH]; cbn [JS.fromSet]; [tauto|].
  intros [->|H]; [left; reflexivity|].
  destruct (String.eqb_spec x y) as [->|Hne]; [left; reflexivity|].
  right. apply filter_In. split; [apply IH, H|].
  destruct (String.eqb_spec x y); [contradiction|reflexivity].
Qed.

Lemma omap_quality_sorted (formats : list videoFormat) (R : string -> string -> Prop)
    (qs : list string) :
  StronglySorted R qs ->
  StronglySorted R (List.map o_quality (omap (resolveQuality formats) qs)).
Proof.
  induction 1 as [|x qs Hqs IH Hx]; cbn [omap list_omap List.map].
  - constructor.
  - fold (omap (resolveQuality formats) qs).
    destruct (resolveQuality formats x) as [o|] eqn:E; cbn [List.map]; [|exact IH].
    constructor; [exact IH|].
    rewrite (resolveQuality_quality _ _ _ E).
    apply List.Forall_forall. intros q Hq. rewrite List.Forall_forall in Hx.
    apply Hx. apply (omap_quality_In formats), Hq.
Qed.

(** X8: the video part of the menu is ordered by resolution priority,
    highest first (2160p/4K before 1440p/2K before 1080p ... before labels
    that name no known resolution). *)
Theorem X8_video_menu_sorted_by_resolution (formats : list videoFormat) :
  StronglySorted
    (fun a b => getResolutionPriority b <= getResolutionPriority a)
    (List.map o_quality (processedVideoFormats formats)).
Proof.
  unfold processedVideoFormats, allVideoQualities.
  apply omap_quality_sorted.
  apply (sort_sorted getResolutionPriority byResolution). reflexivity.
Qed.

(** X9: the quality bucket of an audio option grows with the bitrate of its
    stream: every label is one of the three buckets, a stream at least as
    fast as one labelled 320kbps (192kbps) is labelled 320kbps (192kbps or
    320kbps), and a stream without a bitrate is labelled 128kbps. *)
Theorem X9_audio_bucket_monotone (f g : videoFormat) (b1 b2 : Z) :
  audioBitrate f = Some b1 -> audioBitrate g = Some b2 -> b1 <= b2 ->
  (o_quality (audioOption f) = "320kbps (mp3)"
   \/ o_quality (audioOption f) = "192kbps (mp3)"
   \/ o_quality (audioOption f) = "128kbps (mp3)")
  /\ (o_quality (audioOption f) = "320kbps (mp3)" ->
      o_quality (audioOption g) = "320kbps (mp3)")
  /\ (o_quality (audioOption f) = "192kbps (mp3)" ->
      o_quality (audioOption g) = "192kbps (mp3)"
      \/ o_quality (audioOption g) = "320kbps (mp3)")
  /\ (forall h, audioBitrate h = None ->
        o_quality (audioOption h) = "128kbps (mp3)").
Proof.
  intros Hf Hg Hle. unfold audioOption. cbn [o_quality]. rewrite Hf, Hg.
  unfold JS.orNum.
  destruct (Z.eqb_spec b1 0) as [->|H1]; destruct (Z.eqb_spec b2 0) as [->|H2];
    repeat match goal with
           | |- context [?a <=? ?b] => destruct (Z.leb_spec a b)
           end;
    try lia;
    (split; [cbn; auto|]); (split; [cbn; intros; first [reflexivity | discriminate]|]);
    (split; [cbn; intros; first [discriminate | auto]|]);
    intros h ->; reflexivity.
Qed.

Lemma X9_audio_bucket_witness :
  o_quality (audioOption Samples.a251) = "192kbps (mp3)"
  /\ o_quality (audioOption Samples.a140) = "128kbps (mp3)".
Proof.
  destruct (X9_audio_bucket_monotone Samples.a140 Samples.a251 128 160)
    as (_ & _ & _ & _); [reflexivity|reflexivity|lia|].
  split; reflexivity.
Defined.

Lemma findIndex_Some {A} (p : A -> bool) (arr : list A) (i : nat) :
  findIndex p arr = Some i -> exists x, arr !! i = Some x /\ p x = true.
Proof.
  revert i. induction arr as [|y arr IH]; intros i; cbn [findIndex]; [discriminate|].
  destruct (p y) eqn:Hy.
  - intros [= <-]. exists y. split; [reflexivity|exact Hy].
  - destruct (findIndex p arr) as [j|]; [|discriminate].
    intros [= <-]. apply (IH j eq_refl).
Qed.

Lemma findIndex_exists {A} (p : A -> bool) (arr : list A) (x : A) :
  In x arr -> p x = true -> exists i, findIndex p arr = Some i.
Proof.
  induction arr as [|y arr IH]; intros Hin Hp; [destruct Hin|].
  cbn [findIndex]. destruct (p y) eqn:Hy; [eauto|].
  destruct Hin as [->|Hin]; [congruence|].
  destruct (IH Hin Hp) as [i ->]. eauto.
Qed.

Lemma imap_pair_NoDup {A} (arr : list A) : List.NoDup (imap pair arr).
Proof.
  apply NoDup_ListNoDup, NoDup_alt. intros i j [k x] Hi Hj.
  rewrite list_lookup_imap in Hi, Hj.
  destruct (arr !! i); [|discriminate]. destruct (arr !! j); [|discriminate].
  cbn in Hi, Hj. congruence.
Qed.

Lemma imap_pair_In {A} (arr : list A) (i : nat) (x : A) :
  In (i, x) (imap pair arr) <-> arr !! i = Some x.
Proof.
  rewrite <- list_elem_of_In, elem_of_lookup_imap. split.
  - intros (j & y & [= -> ->] & H). exact H.
  - intros H. eauto.
Qed.

(** The streams kept for the audio menu, before sorting. *)
Lemma kept_In (arr : list videoFormat) (i : nat) (f : videoFormat) :
  In (i, f)
     (List.filter
        (fun '(index, format) =>
           bool_decide (findIndex (fun g => itag g =? itag format) arr = Some index))
        (imap pair arr))
  <-> arr !! i = Some f
      /\ findIndex (fun g => itag g =? itag f) arr = Some i.
Proof.
  rewrite filter_In, imap_pair_In, bool_decide_eq_true. reflexivity.
Qed.

Lemma uniqueAudioFormats_In (formats : list videoFormat) (f : videoFormat) :
  In f (uniqueAudioFormats formats) <->
  exists i, audioFormats formats !! i = Some f
            /\ findIndex (fun g => itag g =? itag f) (audioFormats formats) = Some i.
Proof.
  unfold uniqueAudioFormats. cbv zeta. split.
  - intros H. apply (Permutation_in f (sort_Permutation byBitrate _)) in H.
    apply in_map_iff in H as ([i g] & <- & H). exists i.
    apply kept_In, H.
  - intros (i & H). apply kept_In in H.
    apply (Permutation_in f (Permutation_sym (sort_Permutation byBitrate _))).
    apply in_map_iff. exists (i, f). split; [reflexivity|exact H].
Qed.

Lemma uniqueAudioFormats_NoDup (formats : list videoFormat) :
  List.NoDup (List.map itag (uniqueAudioFormats formats)).
Proof.
  unfold uniqueAudioFormats. cbv zeta.
  eapply Permutation_NoDup.
  - apply Permutation_map. symmetry. apply sort_Permutation.
  - rewrite List.map_map. apply NoDup_map_NoDup_ForallPairs.
    + intros [i f] [j g] Hf Hg Heq. cbn [snd] in Heq.
      apply kept_In in Hf as [Hfi Hff]. apply kept_In in Hg as [Hgi Hgf].
      rewrite Heq in Hff. rewrite Hff in Hgf. injection Hgf as ->.
      congruence.
    + apply List.NoDup_filter, imap_pair_NoDup.
Qed.

(** X10: the audio part of the menu offers exactly the audio-only streams of
    the catalogue, one entry per stream id: every entry is an mp3 audio
    option named after an audio-only stream, no two entries share a stream
    id, and every audio-only stream id of the catalogue has its entry. *)
Theorem X10_audio_menu_contents (formats : list videoFormat) :
  (forall o, In o (processedAudioFormats formats) ->
     o_format o = "mp3" /\ o_container o = "mp3" /\ o_type o = audio
     /\ exists f, In f formats /\ hasAudio f = true /\ hasVideo f = false
                  /\ o_itag o = Some (JS.toString (itag f)))
  /\ List.NoDup (List.map o_itag (processedAudioFormats formats))
  /\ (forall f, In f formats -> hasAudio f = true -> hasVideo f = false ->
        exists o, In o (processedAudioFormats formats)
                  /\ o_itag o = Some (JS.toString (itag f))).
Proof.
  unfold processedAudioFormats. split; [|split].
  - intros o Ho. apply in_map_iff in Ho as (f & <- & Hf).
    repeat (split; [reflexivity|]).
    apply uniqueAudioFormats_In in Hf as (i & Hi & _).
    exists f. assert (Hin : In f (audioFormats formats)).
    { apply list_elem_of_In. eapply list_elem_of_lookup_2, Hi. }
    apply filter_In in Hin as [Hin Hp]. apply andb_true_iff in Hp as [Ha Hv].
    apply negb_true_iff in Hv. repeat split; assumption.
  - rewrite List.map_map.
    assert (Hinj : forall l : list videoFormat,
               List.NoDup (List.map itag l) ->
               List.NoDup (List.map (fun x => o_itag (audioOption x)) l)).
    { induction l as [|x l IH]; cbn [List.map]; intros Hnd; [constructor|].
      inversion Hnd as [|? ? Hx Hl]; subst. constructor; [|apply IH, Hl].
      intros Hin. apply Hx. apply in_map_iff in Hin as (y & Hy & Hin).
      apply in_map_iff. exists y. split; [|exact Hin].
      cbn [audioOption o_itag] in Hy. injection Hy as Hy.
      unfold JS.toString in Hy. apply (inj pretty) in Hy. exact Hy. }
    apply Hinj, uniqueAudioFormats_NoDup.
  - intros f Hin Ha Hv.
    assert (Harr : In f (audioFormats formats)).
    { apply filter_In. split; [exact Hin|]. rewrite Ha, Hv. reflexivity. }
    destruct (findIndex_exists (fun g => itag g =? itag f) _ f Harr (Z.eqb_refl _))
      as [i Hi].
    destruct (findIndex_Some _ _ _ Hi) as (g & Hg & Hgf).
    apply Z.eqb_eq in Hgf.
    exists (audioOption g). split.
    + apply in_map, uniqueAudioFormats_In. exists i. split; [exact Hg|].
      rewrite Hgf. exact Hi.
    + cbn [audioOption o_itag]. rewrite Hgf. reflexivity.
Qed.

(** X11: the audio options are listed by descending bitrate of their
    streams (a missing bitrate counts as 0). *)
Theorem X11_audio_menu_sorted_by_bitrate (formats : list videoFormat) :
  processedAudioFormats formats = List.map audioOption (uniqueAudioFormats formats)
  /\ StronglySorted
       (fun a b => JS.orNum (audioBitrate b) 0 <= JS.orNum (audioBitrate a) 0)
       (uniqueAudioFormats formats).
Proof.
  split; [reflexivity|].
  unfold uniqueAudioFormats. cbv zeta.
  apply (sort_sorted (fun f => JS.orNum (audioBitrate f) 0) byBitrate).
  intros a b. unfold byBitrate. reflexivity.
Qed.

Lemma isStr_true (o : option string) (t : string) :
  JS.isStr o t = true <-> o = Some t.
Proof.
  destruct o as [u|]; cbn [JS.isStr].
  - rewrite String.eqb_eq. split; congruence.
  - split; discriminate.
Qed.

Lemma findAtQuality_Some (fs : list videoFormat) (q : string) (f : videoFormat) :
  findAtQuality fs q = Some f -> In f fs /\ qualityLabel f = Some q.
Proof.
  unfold findAtQuality, orElse. intros H.
  destruct (List.find (fun f => JS.isStr (qualityLabel f) q
                                && JS.isStr (container f) "mp4") fs) as [g|] eqn:E1.
  { injection H as <-. apply find_some in E1 as [Hin Hp]. split; [exact Hin|].
    apply andb_true_iff in Hp as [Hp _]. apply isStr_true, Hp. }
  destruct (List.find (fun f => JS.isStr (qualityLabel f) q
                                && JS.isStr (container f) "webm") fs) as [g|] eqn:E2.
  { injection H as <-. apply find_some in E2 as [Hin Hp]. split; [exact Hin|].
    apply andb_true_iff in Hp as [Hp _]. apply isStr_true, Hp. }
  apply find_some in H as [Hin Hp]. split; [exact Hin|]. apply isStr_true, Hp.
Qed.

Lemma findAtQuality_None (fs : list videoFormat) (q : string) :
  findAtQuality fs q = None ->
  forall f, In f fs -> qualityLabel f <> Some q.
Proof.
  unfold findAtQuality, orElse. intros H f Hin Hq.
  destruct (List.find (fun f => JS.isStr (qualityLabel f) q
                                && JS.isStr (container f) "mp4") fs); [discriminate|].
  destruct (List.find (fun f => JS.isStr (qualityLabel f) q
                                && JS.isStr (container f) "webm") fs); [discriminate|].
  pose proof (find_none _ _ H f Hin) as Hn. cbn in Hn.
  apply isStr_true in Hq. congruence.
Qed.

Lemma findAtQuality_mp4 (fs : list videoFormat) (q : string) (f : videoFormat) :
  In f fs -> qualityLabel f = Some q -> container f = Some "mp4" ->
  exists g, findAtQuality fs q = Some g /\ container g = Some "mp4".
Proof.
  intros Hin Hq Hc. unfold findAtQuality, orElse.
  destruct (List.find (fun f => JS.isStr (qualityLabel f) q
                                && JS.isStr (container f) "mp4") fs) as [g|] eqn:E.
  - exists g. split; [reflexivity|]. apply find_some in E as [_ Hp].
    apply andb_true_iff in Hp as [_ Hp]. apply isStr_true, Hp.
  - exfalso. pose proof (find_none _ _ E f Hin) as Hn. cbn in Hn.
    apply isStr_true in Hq, Hc. rewrite Hq, Hc in Hn. discriminate Hn.
Qed.

Lemma findAtQuality_exists (fs : list videoFormat) (q : string) (f : videoFormat) :
  In f fs -> qualityLabel f = Some q -> exists g, findAtQuality fs q = Some g.
Proof.
  intros Hin Hq. destruct (findAtQuality fs q) as [g|] eqn:E; [eauto|].
  exfalso. apply (findAtQuality_None _ _ E f Hin Hq).
Qed.

Lemma head_sort_filter (p : videoFormat -> bool) (afs : list videoFormat)
    (a : videoFormat) :
  head (JS.sort byBitrate (List.filter p afs)) = Some a ->
  In a afs /\ p a = true
  /\ forall b, In b afs -> p b = true ->
       JS.orNum (audioBitrate b) 0 <= JS.orNum (audioBitrate a) 0.
Proof.
  intros H. pose proof (head_sort_In _ _ _ H) as Hin.
  apply filter_In in Hin as [Hin Hp]. split; [exact Hin|]. split; [exact Hp|].
  intros b Hb Hpb. apply (head_sort_byBitrate_max _ _ H).
  apply filter_In. split; assumption.
Qed.

Lemma head_sort_filter_exists (p : videoFormat -> bool) (afs : list videoFormat)
    (b : videoFormat) :
  In b afs -> p b = true ->
  exists a, head (JS.sort byBitrate (List.filter p afs)) = Some a.
Proof.
  intros Hb Hp. destruct (head _) as [a|] eqn:E; [eauto|].
  exfalso. apply head_sort_None in E.
  assert (Hin : In b (List.filter p afs)) by (apply filter_In; split; assumption).
  rewrite E in Hin. destruct Hin.
Qed.

Lemma processedVideoFormats_In (formats : list videoFormat) (o : FormatOption) :
  In o (processedVideoFormats formats) <->
  exists q, In q (allVideoQualities formats) /\ resolveQuality formats q = Some o.
Proof.
  unfold processedVideoFormats. rewrite <- list_elem_of_In, list_elem_of_omap.
  split; intros (q & Hq & Hr); exists q; split; try exact Hr;
    apply list_elem_of_In, Hq.
Qed.

Lemma allVideoQualities_In (formats : list videoFormat) (f : videoFormat) (q : string) :
  In f formats -> hasVideo f = true -> qualityLabel f = Some q -> q <> "" ->
  In q (allVideoQualities formats).
Proof.
  intros Hin Hv Hq Hne. unfold allVideoQualities.
  apply (Permutation_in q (Permutation_sym (sort_Permutation byResolution _))).
  apply fromSet_complete, in_map_iff. exists f. split; [rewrite Hq; reflexivity|].
  assert (Ht : JS.truthy (qualityLabel f) = true).
  { rewrite Hq. cbn. destruct (String.eqb_spec q ""); [contradiction|reflexivity]. }
  apply filter_In. split; [|exact Ht]. apply in_or_app.
  destruct (hasAudio f) eqn:Ha.
  - left. apply filter_In. split; [exact Hin|]. rewrite Hv, Ha, Ht. reflexivity.
  - right. apply filter_In. split; [exact Hin|]. rewrite Hv, Ha, Ht. reflexivity.
Qed.

(** X12: a quality for which the catalogue has a stream carrying both video
    and audio is offered as a progressive option on such a stream, with the
    stream's own container (mp4 when it has none); when one of these
    streams is an mp4 stream, an mp4 stream is the one offered. *)
Theorem X12_progressive_stream_preferred (formats : list videoFormat)
    (p : videoFormat) (q : string) :
  In p formats -> hasVideo p = true -> hasAudio p = true ->
  qualityLabel p = Some q -> q <> "" ->
  exists o g,
    In o (processedVideoFormats formats)
    /\ o_quality o = q /\ o_downloadMethod o = Some progressive
    /\ In g formats /\ hasVideo g = true /\ hasAudio g = true
    /\ qualityLabel g = Some q
    /\ o_itag o = Some (JS.toString (itag g))
    /\ o_container o = JS.orString (container g) "mp4"
    /\ (container p = Some "mp4" -> container g = Some "mp4").
Proof.
  intros Hin Hv Ha Hq Hne.
  assert (Hp : In p (progressiveVideoFormats formats)).
  { apply filter_In. split; [exact Hin|]. rewrite Hv, Ha, Hq. cbn.
    destruct (String.eqb_spec q ""); [contradiction|reflexivity]. }
  destruct (findAtQuality_exists _ q p Hp Hq) as [g Hg].
  exists (progressiveOption q g), g.
  destruct (findAtQuality_Some _ _ _ Hg) as [Hgin Hgq].
  apply filter_In in Hgin as [Hgin Hgp].
  apply andb_true_iff in Hgp as [Hgp _]. apply andb_true_iff in Hgp as [Hgv Hga].
  split.
  { apply processedVideoFormats_In. exists q. split.
    - apply (allVideoQualities_In formats p); assumption.
    - unfold resolveQuality. rewrite Hg. reflexivity. }
  repeat (split; [first [reflexivity | assumption]|]).
  intros Hc. destruct (findAtQuality_mp4 _ q p Hp Hq Hc) as (g' & Hg' & Hc').
  congruence.
Qed.

Lemma X12_progressive_stream_witness :
  exists o,
    In o (processedVideoFormats Samples.catalogue)
    /\ o_quality o = "720p" /\ o_downloadMethod o = Some progressive
    /\ o_itag o = Some "22".
Proof.
  destruct (X12_progressive_stream_preferred Samples.catalogue Samples.p22 "720p")
    as (o & g & H1 & H2 & H3 & _); try reflexivity.
  - left. reflexivity.
  - discriminate.
  - exists (progressiveOption "720p" Samples.p22). repeat split.
    vm_compute. right. left. reflexivity.
Defined.

(** The three ways in which the pairing branch pushes an option. *)
Lemma resolveMux_Some (vofs afs : list videoFormat) (q : string) (o : FormatOption) :
  resolveMux vofs afs q = Some o ->
  exists v a oc,
    findAtQuality vofs q = Some v /\ o = muxOption q v a oc
    /\ let mp4Side :=
         String.eqb (JS.orString (container v) "mp4") "mp4"
         || JS.startsWith (JS.orString (videoCodec v) "") "avc1" in
       (mp4Side = true /\ oc = "mp4" /\ bestAAC afs = Some a)
       \/ (mp4Side = true /\ bestAAC afs = None /\ oc = "webm"
           /\ bestWebmAudio afs = Some a)
       \/ (mp4Side = false /\ JS.orString (container v) "mp4" = "webm"
           /\ oc = "webm" /\ bestWebmAudio afs = Some a).
Proof.
  unfold resolveMux. intros H.
  destruct (findAtQuality vofs q) as [v|]; [|discriminate H].
  destruct (0 <? Z.of_nat (length afs)); [|discriminate H].
  cbv zeta in H.
  destruct (String.eqb (JS.orString (container v) "mp4") "mp4"
            || JS.startsWith (JS.orString (videoCodec v) "") "avc1") eqn:Hside.
  - destruct (bestAAC afs) as [a|] eqn:Haac.
    + injection H as <-. exists v, a, "mp4". rewrite Hside. cbv zeta.
      split; [reflexivity|]. split; [reflexivity|]. left. auto.
    + destruct (List.find _ vofs) as [w|]; [|discriminate H].
      destruct (bestWebmAudio afs) as [a|] eqn:Hweb; [|discriminate H].
      injection H as <-. exists v, a, "webm". rewrite Hside. cbv zeta.
      split; [reflexivity|]. split; [reflexivity|]. right. left. auto.
  - destruct (String.eqb_spec (JS.orString (container v) "mp4") "webm") as [Hc|Hc];
      [|discriminate H].
    destruct (bestWebmAudio afs) as [a|] eqn:Hweb; [|discriminate H].
    injection H as <-. exists v, a, "webm". rewrite Hside. cbv zeta.
    split; [reflexivity|]. split; [reflexivity|]. right. right. auto.
Qed.

Lemma videoOnly_In (formats : list videoFormat) (v : videoFormat) :
  In v (videoOnlyFormats formats) <->
  In v formats /\ hasVideo v = true /\ hasAudio v = false
  /\ JS.truthy (qualityLabel v) = true.
Proof.
  unfold videoOnlyFormats. rewrite filter_In, !andb_true_iff, negb_true_iff. tauto.
Qed.

Lemma audioOnly_In (formats : list videoFormat) (a : videoFormat) :
  In a (audioFormats formats) <->
  In a formats /\ hasAudio a = true /\ hasVideo a = false.
Proof.
  unfold audioFormats. rewrite filter_In, !andb_true_iff, negb_true_iff. tauto.
Qed.

Lemma progressive_In (formats : list videoFormat) (p : videoFormat) :
  In p (progressiveVideoFormats formats) <->
  In p formats /\ hasVideo p = true /\ hasAudio p = true
  /\ JS.truthy (qualityLabel p) = true.
Proof.
  unfold progressiveVideoFormats. rewrite filter_In, !andb_true_iff. tauto.
Qed.

Lemma truthy_Some (q : string) : JS.truthy (Some q) = true <-> q <> "".
Proof.
  unfold JS.truthy. destruct (String.eqb_spec q "") as [->|Hne]; cbn [negb].
  - split; [discriminate|]. intros H. exfalso. apply H. reflexivity.
  - split; [intros _; exact Hne|reflexivity].
Qed.

(** X13: every mux option of the menu names a video-only stream of its
    quality and an audio-only stream of the catalogue, has container mp4 or
    webm, and its audio stream fits that container: an mp4a codec for mp4,
    a webm container or an opus codec for webm, in both cases at the
    highest bitrate among the audio-only streams that fit; and the
    catalogue has no combined video+audio stream of that quality. *)
Theorem X13_mux_option_audio_fits_container (formats : list videoFormat)
    (o : FormatOption) :
  In o (processedVideoFormats formats) ->
  o_downloadMethod o = Some mux ->
  (o_container o = "mp4" \/ o_container o = "webm")
  /\ o_format o = o_container o
  /\ (exists v a,
        In v formats /\ hasVideo v = true /\ hasAudio v = false
        /\ qualityLabel v = Some (o_quality o)
        /\ In a formats /\ hasAudio a = true /\ hasVideo a = false
        /\ o_videoItag o = Some (JS.toString (itag v))
        /\ o_audioItag o = Some (JS.toString (itag a))
        /\ (o_container o = "mp4" -> audioCodecIncludes a "mp4a" = true)
        /\ (o_container o = "webm" ->
            JS.isStr (container a) "webm" || audioCodecIncludes a "opus" = true)
        /\ (forall b, In b formats -> hasAudio b = true -> hasVideo b = false ->
              (if String.eqb (o_container o) "mp4"
               then audioCodecIncludes b "mp4a"
               else JS.isStr (container b) "webm" || audioCodecIncludes b "opus") = true ->
              JS.orNum (audioBitrate b) 0 <= JS.orNum (audioBitrate a) 0))
  /\ (forall p, In p formats -> hasVideo p = true -> hasAudio p = true ->
        qualityLabel p <> Some (o_quality o)).
Proof.
  intros Hin Hmux. apply processedVideoFormats_In in Hin as (q & Hq & Hres).
  unfold resolveQuality in Hres.
  destruct (findAtQuality (progressiveVideoFormats formats) q) as [pf|] eqn:Hprog.
  { injection Hres as <-. discriminate Hmux. }
  destruct (resolveMux_Some _ _ _ _ Hres) as (v & a & oc & Hv & -> & Hcase).
  destruct (findAtQuality_Some _ _ _ Hv) as [Hvin Hvq].
  apply videoOnly_In in Hvin as (Hvin & Hvv & Hva & Hvt).
  rewrite Hvq in Hvt. apply truthy_Some in Hvt.
  cbn [muxOption o_container o_format o_quality o_videoItag o_audioItag].
  assert (Hnoprog : forall p, In p formats -> hasVideo p = true -> hasAudio p = true ->
                      qualityLabel p <> Some q).
  { intros p Hp Hpv Hpa Hpq.
    apply (findAtQuality_None _ _ Hprog p); [|exact Hpq].
    apply progressive_In. repeat split; try assumption.
    rewrite Hpq. apply truthy_Some, Hvt. }
  cbv zeta in Hcase.
  destruct Hcase as [(_ & -> & Ha)|[(_ & _ & -> & Ha)|(_ & _ & -> & Ha)]];
    unfold bestAAC, bestWebmAudio in Ha;
    apply head_sort_filter in Ha as (Hain & Hap & Hmax);
    apply audioOnly_In in Hain as (Hain & Haa & Hav).
  all: split; [auto|]; split; [reflexivity|]; split; [|exact Hnoprog].
  all: exists v, a; repeat (split; [first [assumption | reflexivity]|]).
  all: split; [intros; first [assumption | discriminate]|].
  all: split; [intros; first [assumption | discriminate]|].
  all: intros b Hb Hba Hbv Hfit; apply Hmax;
    [apply audioOnly_In; repeat split; assumption | exact Hfit].
Qed.

Lemma X13_mux_option_witness :
  exists o,
    In o (processedVideoFormats [Samples.v137; Samples.a140; Samples.a251])
    /\ o_container o = "mp4" /\ o_audioItag o = Some "140".
Proof.
  exists (muxOption "1080p" Samples.v137 Samples.a140 "mp4").
  assert (Hin : In (muxOption "1080p" Samples.v137 Samples.a140 "mp4")
                  (processedVideoFormats [Samples.v137; Samples.a140; Samples.a251]))
    by (vm_compute; left; reflexivity).
  destruct (X13_mux_option_audio_fits_container _ _ Hin eq_refl) as (_ & _ & _).
  split; [exact Hin|]. split; reflexivity.
Defined.

Lemma findAtQuality_progressive_None (formats : list videoFormat) (q : string) :
  (forall p, In p formats -> hasVideo p = true -> hasAudio p = true ->
     qualityLabel p <> Some q) ->
  findAtQuality (progressiveVideoFormats formats) q = None.
Proof.
  intros Hno. destruct (findAtQuality _ q) as [g|] eqn:E; [|reflexivity].
  exfalso. destruct (findAtQuality_Some _ _ _ E) as [Hin Hq].
  apply progressive_In in Hin as (Hin & Hv & Ha & _).
  apply (Hno g Hin Hv Ha Hq).
Qed.

(** X14: for a quality without a combined video+audio stream: (1) if it has
    an mp4 video-only stream and the catalogue has an mp4a audio-only
    stream, the menu offers it as a mux option in an mp4 container;
    (2) if all its video-only streams are webm streams that are not avc1
    and the catalogue has a webm or opus audio-only stream, the menu offers
    it as a mux option in a webm container; (3) if all its video-only
    streams are such webm streams and no audio-only stream is webm or opus,
    the quality is absent from the menu. *)
Theorem X14_mux_pairing_outcomes (formats : list videoFormat) (q : string)
    (v : videoFormat) :
  (forall p, In p formats -> hasVideo p = true -> hasAudio p = true ->
     qualityLabel p <> Some q) ->
  In v formats -> hasVideo v = true -> hasAudio v = false ->
  qualityLabel v = Some q -> q <> "" ->
  let webmOnly :=
    forall u, In u formats -> hasVideo u = true -> hasAudio u = false ->
      qualityLabel u = Some q ->
      container u = Some "webm"
      /\ JS.startsWith (JS.orString (videoCodec u) "") "avc1" = false in
  let fitsWebm a := JS.isStr (container a) "webm" || audioCodecIncludes a "opus" in
  (container v = Some "mp4" ->
   (exists b, In b formats /\ hasAudio b = true /\ hasVideo b = false
              /\ audioCodecIncludes b "mp4a" = true) ->
   exists o, In o (processedVideoFormats formats) /\ o_quality o = q
             /\ o_downloadMethod o = Some mux /\ o_container o = "mp4")
  /\ (webmOnly ->
      (exists b, In b formats /\ hasAudio b = true /\ hasVideo b = false
                 /\ fitsWebm b = true) ->
      exists o, In o (processedVideoFormats formats) /\ o_quality o = q
                /\ o_downloadMethod o = Some mux /\ o_container o = "webm")
  /\ (webmOnly ->
      (forall b, In b formats -> hasAudio b = true -> hasVideo b = false ->
         fitsWebm b = false) ->
      forall o, In o (processedVideoFormats formats) -> o_quality o <> q).
Proof.
  intros Hnoprog Hvin Hvv Hva Hvq Hne. cbv zeta.
  pose proof (findAtQuality_progressive_None formats q Hnoprog) as Hprog.
  assert (Hq : In q (allVideoQualities formats))
    by (apply (allVideoQualities_In formats v); assumption).
  assert (Hvo : In v (videoOnlyFormats formats)).
  { apply videoOnly_In. repeat split; try assumption.
    rewrite Hvq. apply truthy_Some, Hne. }
  assert (Hlen : forall b, In b (audioFormats formats) ->
                   (0 <? Z.of_nat (length (audioFormats formats))) = true).
  { intros b Hb. apply Z.ltb_lt. destruct (audioFormats formats); [destruct Hb|].
    cbn [length]. lia. }
  split; [|split].
  - intros Hc (b & Hb & Hba & Hbv & Hbc).
    assert (Hbin : In b (audioFormats formats))
      by (apply audioOnly_In; repeat split; assumption).
    destruct (findAtQuality_mp4 _ q v Hvo Hvq Hc) as (g & Hg & Hgc).
    destruct (head_sort_filter_exists (fun f => audioCodecIncludes f "mp4a")
                (audioFormats formats) b Hbin Hbc) as [a Ha].
    exists (muxOption q g a "mp4"). split; [|repeat split].
    apply processedVideoFormats_In. exists q. split; [exact Hq|].
    unfold resolveQuality. rewrite Hprog. unfold resolveMux.
    rewrite Hg, (Hlen b Hbin). cbv zeta. rewrite Hgc. cbn [JS.orString].
    cbn [String.eqb Ascii.eqb Bool.eqb orb]. unfold bestAAC. rewrite Ha. reflexivity.
  - intros Hwebm (b & Hb & Hba & Hbv & Hbc).
    assert (Hbin : In b (audioFormats formats))
      by (apply audioOnly_In; repeat split; assumption).
    destruct (findAtQuality_exists _ q v Hvo Hvq) as [g Hg].
    destruct (findAtQuality_Some _ _ _ Hg) as [Hgin Hgq].
    apply videoOnly_In in Hgin as (Hgin & Hgv & Hga & _).
    destruct (Hwebm g Hgin Hgv Hga Hgq) as [Hgc Hgavc].
    destruct (head_sort_filter_exists
                (fun f => JS.isStr (container f) "webm" || audioCodecIncludes f "opus")
                (audioFormats formats) b Hbin Hbc) as [a Ha].
    exists (muxOption q g a "webm"). split; [|repeat split].
    apply processedVideoFormats_In. exists q. split; [exact Hq|].
    unfold resolveQuality. rewrite Hprog. unfold resolveMux.
    rewrite Hg, (Hlen b Hbin). cbv zeta. rewrite Hgavc, Hgc. cbn [JS.orString].
    cbn [String.eqb Ascii.eqb Bool.eqb orb]. unfold bestWebmAudio. rewrite Ha.
    reflexivity.
  - intros Hwebm Hnofit o Hin Hoq.
    apply processedVideoFormats_In in Hin as (q' & _ & Hres).
    pose proof (resolveQuality_quality _ _ _ Hres) as Hq'. rewrite Hoq in Hq'. subst q'.
    unfold resolveQuality in Hres. rewrite Hprog in Hres.
    destruct (resolveMux_Some _ _ _ _ Hres) as (g & a & oc & Hg & _ & Hcase).
    destruct (findAtQuality_Some _ _ _ Hg) as [Hgin Hgq].
    apply videoOnly_In in Hgin as (Hgin & Hgv & Hga & _).
    destruct (Hwebm g Hgin Hgv Hga Hgq) as [Hgc Hgavc].
    cbv zeta in Hcase. rewrite Hgc, Hgavc in Hcase. cbn in Hcase.
    destruct Hcase as [(Hf & _)|[(Hf & _)|(_ & _ & _ & Ha)]]; try discriminate Hf.
    unfold bestWebmAudio in Ha. apply head_sort_filter in Ha as (Hain & Hap & _).
    apply audioOnly_In in Hain as (Hain & Haa & Hav).
    rewrite (Hnofit a Hain Haa Hav) in Hap. discriminate Hap.
Qed.

Lemma X14_mux_pairing_witness :
  List.Forall (fun o => o_quality o <> "1080p")
    (processedVideoFormats [Samples.v248; Samples.a140]).
Proof.
  apply List.Forall_forall.
  destruct (X14_mux_pairing_outcomes [Samples.v248; Samples.a140] "1080p" Samples.v248)
    as (_ & _ & Homit); try reflexivity.
  - intros p [<-|[<-|[]]]; cbn; discriminate.
  - left. reflexivity.
  - discriminate.
  - apply Homit.
    + intros u [<-|[<-|[]]]; cbn; try discriminate. intros _ _ _. split; reflexivity.
    + intros b [<-|[<-|[]]]; cbn; try discriminate. reflexivity.
Defined.

End ResolverExtras.

(** ** The mux orchestrator: flow of control *)
Section MuxFlowProperties.
Import Schema Ytdl Runtime Mux MuxSpec MuxFlowSpec.

Lemma job_status_after_update (now : Z) (key : string) (u : PartialDownload)
    (w' w : World) (job' : Download) :
  store w' = store w -> p_status u = None ->
  store (update now key u w') !! key = Some job' ->
  exists job, store w !! key = Some job /\ status job' = status job.
Proof.
  intros Hw Hu H.
  apply job_after_update with (w := w) in H as (job & Hj & Hs & _); [|exact Hw].
  rewrite Hu in Hs. exists job. split; assumption.
Qed.

Lemma initial_flow (pending : Prop) (a : Args) (w : World) :
  (pending -> pendingJob (downloadId a) w) -> MuxFlow pending a (initial w).
Proof.
  intros Hp. split; mux_cbn.
  - intros Hpend _ job Hj. left. apply (Hp Hpend job Hj).
  - discriminate.
  - discriminate.
Qed.

Lemma catchAll_flow (pending : Prop) (now : Z) (a : Args) (s : State) :
  command s <> Active -> MuxFlow pending a (catchAll now a s).
Proof.
  intros Hc. split; mux_cbn.
  - intros _ Hpc. exfalso. apply Hpc. reflexivity.
  - intros _ _ job' Hj'. right.
    apply job_after_update with (w := world s) in Hj' as (job & _ & Hs & _);
      [exact Hs | apply cleanup_store].
  - intros Hact. contradiction.
Qed.

(** A step that keeps the program point, the command, the files and the
    status of the job keeps the flow invariant. *)
Lemma same_status_flow (pending : Prop) (a : Args) (s s' : State) :
  MuxFlow pending a s ->
  pc s' = pc s -> command s' = command s ->
  outputContainer s' = outputContainer s -> files (world s') = files (world s) ->
  (forall job', store (world s') !! downloadId a = Some job' ->
     exists job, store (world s) !! downloadId a = Some job
                 /\ status job' = status job) ->
  MuxFlow pending a s'.
Proof.
  intros [Hlive Hdone Hcmd] Hpc Hc Hoc Hfiles Hjob. split.
  - rewrite Hpc. intros Hp Hn job' Hj'. destruct (Hjob job' Hj') as (job & Hj & ->).
    apply (Hlive Hp Hn job Hj).
  - rewrite Hpc. intros Hp Hn job' Hj'. destruct (Hjob job' Hj') as (job & Hj & ->).
    apply (Hdone Hp Hn job Hj).
  - rewrite Hc, Hpc, Hoc, Hfiles. exact Hcmd.
Qed.

Lemma updateProgress_status (now : Z) (a : Args) (s : State) (job' : Download) :
  store (world (updateProgress now a s)) !! downloadId a = Some job' ->
  exists job, store (world s) !! downloadId a = Some job /\ status job' = status job.
Proof.
  unfold updateProgress. destruct (_ && _); mux_cbn; [|eauto].
  intros Hj'.
  apply job_status_after_update with (w := world s) in Hj'; [exact Hj'|reflexivity..].
Qed.

Lemma step_flow (pending : Prop) (now : Z) (a : Args) (s : State) (e : Event)
    (o : Outcome State) :
  MuxFlow pending a s -> step now a s e = Some o -> MuxFlow pending a (stateOf o).
Proof.
  intros Hflow Hstep. pose proof Hflow as [Hlive Hdone Hcmd].
  unfold step in Hstep.
  destruct (enabled s e) eqn:Hen; [|discriminate]. injection Hstep as <-.
  assert (Hnc : pc s <> AwaitMux -> command s <> Active).
  { intros Hpc Hact. destruct (Hcmd Hact) as [Hpc' _]. contradiction. }
  destruct e; cbn [enabled] in Hen; cbn [dispatch listener isErrorEvent stateOf advance].
  - (* Call *)
    apply bool_decide_eq_true in Hen. split; mux_cbn.
    + intros Hp _ job' Hj'. right.
      apply job_after_update with (w := world s) in Hj' as (job & _ & Hs & _);
        [|reflexivity].
      exact Hs.
    + discriminate.
    + intros Hact. exfalso. apply (Hnc ltac:(congruence) Hact).
  - (* InfoResolved *)
    apply bool_decide_eq_true in Hen. unfold onInfo.
    assert (Hc : command s <> Active) by (apply Hnc; congruence).
    destruct (List.find _ formats) as [vf|]; [|apply catchAll_flow, Hc].
    destruct (List.find _ formats) as [af|]; [|apply catchAll_flow, Hc].
    split; mux_cbn.
    + intros Hp _ job Hj. apply (Hlive Hp ltac:(congruence) job Hj).
    + discriminate.
    + intros Hact. contradiction.
  - (* InfoRejected *)
    apply bool_decide_eq_true in Hen. apply catchAll_flow, Hnc. congruence.
  - (* Progress *)
    unfold onProgress.
    apply (same_status_flow pending a s); try assumption.
    + unfold updateProgress; destruct leg; mux_cbn; destruct (_ && _); reflexivity.
    + unfold updateProgress; destruct leg; mux_cbn; destruct (_ && _); reflexivity.
    + unfold updateProgress; destruct leg; mux_cbn; destruct (_ && _); reflexivity.
    + unfold updateProgress; destruct leg; mux_cbn; destruct (_ && _); reflexivity.
    + intros job' Hj'. apply updateProgress_status in Hj'.
      destruct leg; exact Hj'.
  - (* StreamEnd *)
    apply (same_status_flow pending a s); try assumption;
      try (destruct leg; reflexivity).
    intros job' Hj'. exists job'. split; [destruct leg; exact Hj'|reflexivity].
  - (* StreamError *)
    unfold onLegError.
    destruct (bool_decide_reflect (pc (settle leg Rejected (withStream leg Errored s))
                                   = AwaitDownloads)) as [Hpc|Hpc]; cbn [andb].
    + destruct (bool_decide (promiseOf leg _ = Rejected)).
      * apply catchAll_flow. assert (pc s = AwaitDownloads) by (destruct leg; exact Hpc).
        destruct leg; apply Hnc; congruence.
      * apply (same_status_flow pending a s); try assumption;
          try (destruct leg; reflexivity).
        intros job' Hj'. exists job'. split; [destruct leg; exact Hj'|reflexivity].
    + apply (same_status_flow pending a s); try assumption;
        try (destruct leg; reflexivity).
      intros job' Hj'. exists job'. split; [destruct leg; exact Hj'|reflexivity].
  - (* WriteFinish *)
    unfold onWriteFinish.
    set (s1 := match leg with VideoLeg => _ | AudioLeg => _ end).
    set (s2 := settle leg Resolved s1).
    assert (Hw2 : world s2 = world s) by (destruct leg; reflexivity).
    assert (Hc2 : command s2 = command s) by (destruct leg; reflexivity).
    assert (Hpc2 : pc s2 = pc s) by (destruct leg; reflexivity).
    assert (Hoc2 : outputContainer s2 = outputContainer s) by (destruct leg; reflexivity).
    clearbody s2. clear s1.
    assert (Hsame : MuxFlow pending a s2).
    { apply (same_status_flow pending a s); try assumption; try (rewrite Hw2; reflexivity).
      intros job' Hj'. rewrite Hw2 in Hj'. eauto. }
    destruct (bool_decide_reflect (pc s2 = AwaitDownloads)) as [Hpc|Hpc]; cbn [andb];
      [destruct (bool_decide (videoPromise s2 = Resolved)); cbn [andb];
       [destruct (bool_decide (audioPromise s2 = Resolved))|]|]; try exact Hsame.
    unfold afterDownloads. split; mux_cbn.
    + intros Hp _ job' Hj'.
      apply job_status_after_update with (w := world s) in Hj' as (job & Hj & ->);
        [|rewrite Hw2; reflexivity|reflexivity].
      apply (Hlive Hp ltac:(congruence) job Hj).
    + discriminate.
    + intros _. split; [reflexivity|].
      rewrite elem_of_union, elem_of_singleton. left. reflexivity.
  - (* WriteError *)
    unfold onLegError.
    destruct (bool_decide_reflect (pc (settle leg Rejected (withWriteStream leg Errored s))
                                   = AwaitDownloads)) as [Hpc|Hpc]; cbn [andb].
    + destruct (bool_decide (promiseOf leg _ = Rejected)).
      * apply catchAll_flow. assert (pc s = AwaitDownloads) by (destruct leg; exact Hpc).
        destruct leg; apply Hnc; congruence.
      * apply (same_status_flow pending a s); try assumption;
          try (destruct leg; reflexivity).
        intros job' Hj'. exists job'. split; [destruct leg; exact Hj'|reflexivity].
    + apply (same_status_flow pending a s); try assumption;
        try (destruct leg; reflexivity).
      intros job' Hj'. exists job'. split; [destruct leg; exact Hj'|reflexivity].
  - (* FfmpegProgress *)
    apply (same_status_flow pending a s); try assumption; try reflexivity.
    mux_cbn. intros job' Hj'.
    apply job_status_after_update with (w := world s) in Hj'; [exact Hj'|reflexivity..].
  - (* FfmpegEnd *)
    unfold onMuxEnd. destruct (bool_decide (_ ∈ _)).
    + split; mux_cbn.
      * intros _ Hpc. exfalso. apply Hpc. reflexivity.
      * intros _ _ job' Hj'. left.
        apply job_after_update with (w := world s) in Hj' as (job & _ & Hs & _);
          [exact Hs | rewrite !unlinkIfExists_store; reflexivity].
      * discriminate.
    + apply catchAll_flow. mux_cbn. discriminate.
  - (* FfmpegError *)
    apply catchAll_flow. mux_cbn. discriminate.
Qed.

Lemma run_flow (pending : Prop) (a : Args) (trace : list (Z * Event)) (s : State)
    (o : Outcome State) :
  MuxFlow pending a s -> run a s trace = Some o -> MuxFlow pending a (stateOf o).
Proof.
  revert s. induction trace as [|[now e] trace IH]; intros s Hf Hrun.
  - injection Hrun as <-. exact Hf.
  - cbn [run] in Hrun.
    destruct (step now a s e) as [o1|] eqn:Hstep; [|discriminate].
    pose proof (step_flow _ _ _ _ _ _ Hf Hstep) as Hf1.
    destruct o1 as [s1|s1]; cbn [stateOf] in Hf1.
    + apply (IH _ Hf1 Hrun).
    + injection Hrun as <-. exact Hf1.
Qed.

(** X15: no run of [startMuxDownload] ends in an uncaught error: whatever
    the streams and the mux command emit, every error event meets a
    listener. *)
Theorem X15_mux_never_crashes (a : Args) (w : World) (trace : list (Z * Event))
    (o : Outcome State) :
  run a (initial w) trace = Some o -> exists s, o = Continue s.
Proof.
  intros Hrun. destruct (run_shape a trace _ o (initial_shape w) Hrun) as [_ Ho].
  exists (stateOf o). exact Ho.
Qed.

Lemma X15_mux_never_crashes_witness :
  exists s,
    run Samples.muxArgs (initial Samples.world0)
      (Samples.audioDone ++ [(1008, WriteError VideoLeg); (1009, StreamError VideoLeg)])
    = Some (Continue s).
Proof.
  destruct (run Samples.muxArgs (initial Samples.world0)
              (Samples.audioDone ++ [(1008, WriteError VideoLeg);
                                     (1009, StreamError VideoLeg)]))
    as [o|] eqn:Hrun; [|vm_compute in Hrun; discriminate Hrun].
  destruct (X15_mux_never_crashes _ _ _ _ Hrun) as [s ->]. exists s. reflexivity.
Defined.

Lemma step_settled (now : Z) (a : Args) (s : State) (e : Event) (o : Outcome State)
    (job : Download) :
  settled s -> step now a s e = Some o ->
  store (world s) !! downloadId a = Some job ->
  settled (stateOf o)
  /\ exists job', store (world (stateOf o)) !! downloadId a = Some job'
                  /\ status job' = status job.
Proof.
  intros [Hpc Hc] Hstep Hj. unfold step in Hstep.
  destruct (enabled s e) eqn:Hen; [|discriminate]. injection Hstep as <-.
  destruct e; cbn [enabled] in Hen;
    try (apply bool_decide_eq_true in Hen; congruence);
    cbn [dispatch listener isErrorEvent stateOf advance].
  - unfold onProgress, updateProgress.
    destruct leg; mux_cbn; destruct (_ && _); mux_cbn;
      (split; [split; assumption|]);
      first [ eexists; split; [apply update_lookup, Hj|reflexivity]
            | exists job; split; [exact Hj|reflexivity] ].
  - split; [split; destruct leg; assumption|].
    exists job. split; [destruct leg; exact Hj|reflexivity].
  - unfold onLegError.
    destruct (bool_decide_reflect (pc (settle leg Rejected (withStream leg Errored s))
                                   = AwaitDownloads)) as [Hpc'|Hpc']; cbn [andb].
    + exfalso. assert (pc s = AwaitDownloads) by (destruct leg; exact Hpc'). congruence.
    + split; [split; destruct leg; assumption|].
      exists job. split; [destruct leg; exact Hj|reflexivity].
  - unfold onWriteFinish.
    set (s1 := match leg with VideoLeg => _ | AudioLeg => _ end).
    set (s2 := settle leg Resolved s1).
    assert (Hw2 : world s2 = world s) by (destruct leg; reflexivity).
    assert (Hc2 : command s2 = command s) by (destruct leg; reflexivity).
    assert (Hpc2 : pc s2 = pc s) by (destruct leg; reflexivity).
    clearbody s2. clear s1.
    destruct (bool_decide_reflect (pc s2 = AwaitDownloads)) as [Hpc'|Hpc']; cbn [andb];
      [exfalso; congruence|].
    split; [split; congruence|]. exists job. rewrite Hw2. split; [exact Hj|reflexivity].
  - unfold onLegError.
    destruct (bool_decide_reflect (pc (settle leg Rejected (withWriteStream leg Errored s))
                                   = AwaitDownloads)) as [Hpc'|Hpc']; cbn [andb].
    + exfalso. assert (pc s = AwaitDownloads) by (destruct leg; exact Hpc'). congruence.
    + split; [split; destruct leg; assumption|].
      exists job. split; [destruct leg; exact Hj|reflexivity].
Qed.

Lemma run_settled (a : Args) (later : list (Z * Event)) (s : State) (o : Outcome State)
    (job : Download) :
  settled s -> run a s later = Some o ->
  store (world s) !! downloadId a = Some job ->
  exists job', store (world (stateOf o)) !! downloadId a = Some job'
               /\ status job' = status job.
Proof.
  revert s job. induction later as [|[now e] later IH]; intros s job Hs Hrun Hj.
  - injection Hrun as <-. exists job. split; [exact Hj|reflexivity].
  - cbn [run] in Hrun.
    destruct (step now a s e) as [o1|] eqn:Hstep; [|discriminate].
    destruct (step_settled _ _ _ _ _ _ Hs Hstep Hj) as (Hs1 & job1 & Hj1 & Hst1).
    destruct o1 as [s1|s1]; cbn [stateOf] in Hs1, Hj1.
    + destruct (IH s1 job1 Hs1 Hrun Hj1) as (job' & Hj' & Hst').
      exists job'. split; [exact Hj'|]. congruence.
    + injection Hrun as <-. exists job1. split; assumption.
Qed.

(** X17: in a run of [startMuxDownload] on a job created pending, the status
    is pending or downloading exactly while the function has not returned
    and completed or failed once it has; and a completed or failed status is
    final: no later event of the run changes it. *)
Theorem X17_mux_terminal_status_is_final (a : Args) (w : World)
    (trace : list (Z * Event)) (s : State) (job : Download) :
  pendingJob (downloadId a) w ->
  run a (initial w) trace = Some (Continue s) ->
  store (world s) !! downloadId a = Some job ->
  (pc s <> Returned -> status job = "pending" \/ status job = "downloading")
  /\ (pc s = Returned -> status job = "completed" \/ status job = "failed")
  /\ (status job = "completed" \/ status job = "failed" ->
      forall later o', run a s later = Some o' ->
        exists job', store (world (stateOf o')) !! downloadId a = Some job'
                     /\ status job' = status job).
Proof.
  intros Hpending Hrun Hj.
  pose proof (run_flow True a trace _ _ (initial_flow True a w (fun _ => Hpending)) Hrun)
    as [Hlive Hdone Hcmd].
  cbn [stateOf] in Hlive, Hdone, Hcmd.
  split; [intros Hpc; apply (Hlive I Hpc job Hj)|].
  split; [intros Hpc; apply (Hdone I Hpc job Hj)|].
  intros Hterm later o' Hlater.
  assert (Hpc : pc s = Returned).
  { destruct (decide (pc s = Returned)) as [|Hn]; [assumption|].
    destruct (Hlive I Hn job Hj) as [H|H]; rewrite H in Hterm;
      destruct Hterm; discriminate. }
  apply (run_settled a later s o' job); try assumption.
  split; [exact Hpc|]. intros Hact. destruct (Hcmd Hact). congruence.
Qed.

Lemma X17_mux_terminal_status_witness :
  exists job,
    store (world (Samples.stateAfter Samples.muxed)) !! "job-1" = Some job
    /\ (status job = "completed" \/ status job = "failed").
Proof.
  destruct (store (world (Samples.stateAfter Samples.muxed)) !! "job-1")
    as [job|] eqn:Hj; [|vm_compute in Hj; discriminate Hj].
  exists job. split; [reflexivity|].
  destruct (X17_mux_terminal_status_is_final Samples.muxArgs Samples.world0
              Samples.muxed (Samples.stateAfter Samples.muxed) job)
    as (_ & Hdone & _).
  - intros j Hjj. vm_compute in Hjj. injection Hjj as <-. split; reflexivity.
  - vm_compute. reflexivity.
  - exact Hj.
  - apply Hdone. vm_compute. reflexivity.
Defined.

Lemma length_append (s1 s2 : string) :
  String.length (s1 +:+ s2) = (String.length s1 + String.length s2)%nat.
Proof. induction s1 as [|c s1 IH]; simpl; [reflexivity | f_equal; exact IH]. Qed.

Lemma final_not_temp (a : Args) (oc : string) :
  oc = "mp4" \/ oc = "webm" ->
  finalFilepath a oc <> videoTempPath a /\ finalFilepath a oc <> audioTempPath a.
Proof.
  intros Hoc. split; intros Heq; apply (f_equal String.length) in Heq;
    unfold finalFilepath, videoTempPath, audioTempPath, tempDir, JS.pathJoin in Heq;
    rewrite !length_append in Heq; destruct Hoc as [-> | ->]; cbn in Heq; lia.
Qed.

(** X18: when the mux command of a run ends, the job is completed: the two
    temporary files are removed, the final file is there, and the record
    shows status completed, progress 100, the final path and the size read
    from the file. *)
Theorem X18_mux_success_completes_job (a : Args) (w : World)
    (trace : list (Z * Event)) (s : State) (now size : Z) :
  run a (initial w) trace = Some (Continue s) ->
  command s = Active ->
  exists s',
    step now a s (FfmpegEnd size) = Some (Continue s')
    /\ pc s' = Returned
    /\ (videoTempPath a ∉ files (world s'))
    /\ (audioTempPath a ∉ files (world s'))
    /\ finalFilepath a (outputContainer s) ∈ files (world s')
    /\ (forall job, store (world s) !! downloadId a = Some job ->
          exists job', store (world s') !! downloadId a = Some job'
                       /\ status job' = "completed" /\ progress job' = Some 100
                       /\ filePath job' = Some (finalFilepath a (outputContainer s))
                       /\ fileSize job' = Some (JS.mbLabel size)).
Proof.
  intros Hrun Hact.
  pose proof (run_flow False a trace _ _
                (initial_flow False a w (fun f : False => match f with end)) Hrun)
    as [_ _ Hcmd].
  destruct (run_shape a trace _ _ (initial_shape w) Hrun) as [[_ _ _ _ Hoc] _].
  cbn [stateOf] in Hcmd, Hoc. destruct (Hcmd Hact) as [_ Hfinal].
  destruct (final_not_temp a _ Hoc) as [Hnv Hna].
  unfold step. cbn [enabled]. rewrite (bool_decide_eq_true_2 _ Hact).
  cbn [dispatch listener advance]. unfold onMuxEnd. mux_cbn.
  assert (Hstill : finalFilepath a (outputContainer s)
                   ∈ files (unlinkIfExists (audioTempPath a)
                              (unlinkIfExists (videoTempPath a) (world s)))).
  { rewrite !unlinkIfExists_files, !elem_of_difference, !elem_of_singleton. tauto. }
  rewrite (bool_decide_eq_true_2 _ Hstill).
  eexists. split; [reflexivity|]. mux_cbn. rewrite update_files.
  split; [reflexivity|].
  rewrite !unlinkIfExists_files.
  split; [rewrite !elem_of_difference, !elem_of_singleton; tauto|].
  split; [rewrite !elem_of_difference, !elem_of_singleton; tauto|].
  split; [rewrite !elem_of_difference, !elem_of_singleton; tauto|].
  intros job Hj. eexists. split.
  - apply update_lookup. rewrite !unlinkIfExists_store. exact Hj.
  - repeat split; reflexivity.
Qed.

Lemma X18_mux_success_witness :
  exists s',
    step 1012 Samples.muxArgs
      (Samples.stateAfter (Samples.audioDone
         ++ [(1008, Progress VideoLeg 100 100); (1009, StreamEnd VideoLeg);
             (1010, WriteFinish VideoLeg)]))
      (FfmpegEnd 52428800) = Some (Continue s')
    /\ pc s' = Returned
    /\ "/srv/downloads/job-1.mp4" ∈ files (world s').
Proof.
  destruct (X18_mux_success_completes_job Samples.muxArgs Samples.world0
              (Samples.audioDone
                 ++ [(1008, Progress VideoLeg 100 100); (1009, StreamEnd VideoLeg);
                     (1010, WriteFinish VideoLeg)])
              (Samples.stateAfter (Samples.audioDone
                 ++ [(1008, Progress VideoLeg 100 100); (1009, StreamEnd VideoLeg);
                     (1010, WriteFinish VideoLeg)]))
              1012 52428800)
    as (s' & Hstep & Hpc & _ & _ & Hfinal & _).
  - vm_compute. reflexivity.
  - vm_compute. reflexivity.
  - exists s'. split; [exact Hstep|]. split; [exact Hpc|]. exact Hfinal.
Defined.

(** X22: the mux command is started only once both streams have ended
    and both temporary files are written out. *)
Theorem X22_mux_starts_after_both_written (a : Args) (w : World)
    (trace : list (Z * Event)) (s : State) :
  run a (initial w) trace = Some (Continue s) ->
  command s <> Idle ->
  forall leg, streamOf leg s = Ended /\ writeStreamOf leg s = Ended.
Proof.
  intros Hrun Hcmd.
  destruct (run_shape a trace _ _ (initial_shape w) Hrun) as [[_ _ _ Hc _] _].
  exact (Hc Hcmd).
Qed.

Lemma X22_mux_starts_witness :
  videoWriteStream (Samples.stateAfter Samples.muxed) = Ended
  /\ audioWriteStream (Samples.stateAfter Samples.muxed) = Ended.
Proof.
  assert (Hboth : forall leg,
             streamOf leg (Samples.stateAfter Samples.muxed) = Ended
             /\ writeStreamOf leg (Samples.stateAfter Samples.muxed) = Ended).
  { apply (X22_mux_starts_after_both_written Samples.muxArgs Samples.world0
             Samples.muxed).
    - vm_compute. reflexivity.
    - vm_compute. discriminate. }
  split; [exact (proj2 (Hboth VideoLeg)) | exact (proj2 (Hboth AudioLeg))].
Defined.

End MuxFlowProperties.

(** ** The single-stream orchestrator: control flow *)
Section ProgressiveFlowProperties.
Import Schema Ytdl Runtime Progressive ProgressiveFlowSpec.

Lemma prog_initial_shape (a : Args) (w : World) : ProgShape a (initial w).
Proof.
  split; prog_cbn.
  - reflexivity.
  - auto.
  - discriminate.
  - congruence.
  - discriminate.
Qed.

Lemma prog_step_shape (now : Z) (a : Args) (s : State) (e : Event) (o : Outcome State) :
  ProgShape a s -> step now a s e = Some o ->
  ProgShape a (stateOf o)
  /\ forall s', o = Crashed s' ->
       JS.arrayIncludes audioStyle (format a) = false
       /\ writeStream s' = Errored /\ plan s' = Some (videoPlan a).
Proof.
  intros [He Hn Hp Hc Hv] Hstep. unfold step in Hstep.
  destruct (enabled s e) eqn:Hen; [|discriminate]. injection Hstep as <-.
  assert (Hidle : stream s = Active \/ writeStream s = Active -> command s = Idle).
  { intros Hact. destruct (decide (command s = Idle)) as [|Hne]; [assumption|].
    destruct (Hc Hne) as (H1 & H2 & _). destruct Hact; congruence. }
  assert (Hsome : stream s = Active \/ writeStream s = Active \/ command s = Active ->
                  exists p, plan s = Some p).
  { intros Hact. destruct (plan s) as [p|] eqn:Hplan; [eauto|].
    destruct (Hn eq_refl) as (H1 & H2 & H3). destruct Hact as [|[|]]; congruence. }
  destruct e; cbn [enabled] in Hen;
    try apply andb_true_iff in Hen as [Hen Hen'];
    apply bool_decide_eq_true in Hen; try apply bool_decide_eq_true in Hen'.
  - cbn [dispatch stateOf]. split; [|discriminate].
    pose proof (He (or_introl Hen)) as Hplan. destruct (Hn Hplan) as (H1 & H2 & H3).
    split; prog_cbn; [auto | auto | congruence | congruence | congruence].
  - cbn [dispatch stateOf]. split; [|discriminate].
    pose proof (He (or_intror Hen)) as Hplan. destruct (Hn Hplan) as (H1 & H2 & H3).
    unfold onInfo.
    destruct (JS.arrayIncludes audioStyle (format a)) eqn:Hstyle.
    + destruct (selectAudioFormat formats (itag a)) as [f|]; split; prog_cbn;
        try rewrite Hstyle;
        first [ intros [H|H]; discriminate H
              | intros p [= <-]; eauto
              | auto; congruence ].
    + destruct (selectVideoFormat formats (itag a)) as [f|]; split; prog_cbn;
        try rewrite Hstyle;
        first [ intros [H|H]; discriminate H
              | intros p [= <-]; reflexivity
              | auto; congruence ].
  - cbn [dispatch stateOf]. split; [|discriminate].
    pose proof (He (or_intror Hen)) as Hplan. destruct (Hn Hplan) as (H1 & H2 & H3).
    split; prog_cbn;
      first [ intros [H|H]; discriminate H | auto; congruence ].
  - destruct (Hsome (or_introl Hen)) as [p Hplan].
    pose proof (Hidle (or_introl Hen)) as Hcmd.
    cbn [dispatch]. prog_cbn. rewrite Hplan. cbn [listener stateOf].
    split; [|discriminate].
    split; prog_cbn;
      [ intros Hi; rewrite (He Hi) in Hplan; discriminate Hplan
      | congruence | (intros p0 Hp0; apply Hp; congruence) | congruence | congruence ].
  - destruct (Hsome (or_introl Hen)) as [p Hplan].
    pose proof (Hidle (or_introl Hen)) as Hcmd.
    cbn [dispatch]. prog_cbn. rewrite Hplan. cbn [listener isErrorEvent].
    destruct (audioBranch p); cbn [stateOf]; (split; [|discriminate]);
      (split; prog_cbn;
        [ intros Hi; rewrite (He Hi) in Hplan; discriminate Hplan
        | congruence | (intros p0 Hp0; apply Hp; congruence) | congruence | congruence ]).
  - destruct (Hsome (or_introl Hen)) as [p Hplan].
    pose proof (Hidle (or_introl Hen)) as Hcmd.
    cbn [dispatch]. prog_cbn. rewrite Hplan. cbn [listener isErrorEvent].
    destruct (audioBranch p); cbn [stateOf]; (split; [|discriminate]);
      (split; prog_cbn;
        [ intros Hi; rewrite (He Hi) in Hplan; discriminate Hplan
        | congruence | (intros p0 Hp0; apply Hp; congruence) | congruence | congruence ]).
  - destruct (Hsome (or_intror (or_introl Hen))) as [p Hplan].
    pose proof (Hidle (or_intror Hen)) as Hcmd.
    cbn [dispatch]. prog_cbn. rewrite Hplan. cbn [listener isErrorEvent].
    destruct (audioBranch p) eqn:Hab; cbn [stateOf]; (split; [|discriminate]).
    + unfold onAudioFinish. destruct (isMP3Conversion p) eqn:Hmp3.
      * split; prog_cbn.
        -- intros Hi. rewrite (He Hi) in Hplan. discriminate Hplan.
        -- congruence.
        -- intros p0 Hp0. apply Hp. congruence.
        -- intros _. split; [exact Hen'|]. split; [reflexivity|]. exists p. auto.
        -- intros _ p0 Hp0. assert (p0 = p) by congruence. subst p0.
           apply elem_of_union. left. apply elem_of_singleton. reflexivity.
      * split; prog_cbn;
          [ intros Hi; rewrite (He Hi) in Hplan; discriminate Hplan
          | congruence | (intros p0 Hp0; apply Hp; congruence) | congruence | congruence ].
    + split; prog_cbn;
        [ intros Hi; rewrite (He Hi) in Hplan; discriminate Hplan
        | congruence | (intros p0 Hp0; apply Hp; congruence) | congruence | congruence ].
  - destruct (Hsome (or_intror (or_introl Hen))) as [p Hplan].
    pose proof (Hidle (or_intror Hen)) as Hcmd.
    cbn [dispatch]. prog_cbn. rewrite Hplan. cbn [listener isErrorEvent].
    destruct (audioBranch p) eqn:Hab; cbn [stateOf].
    + split; [|discriminate].
      split; prog_cbn;
        [ intros Hi; rewrite (He Hi) in Hplan; discriminate Hplan
        | congruence | (intros p0 Hp0; apply Hp; congruence) | congruence | congruence ].
    + split.
      * split; prog_cbn;
          [ intros Hi; rewrite (He Hi) in Hplan; discriminate Hplan
          | congruence | (intros p0 Hp0; apply Hp; congruence) | congruence | congruence ].
      * intros s' [= <-]. prog_cbn. specialize (Hp p Hplan).
        destruct (JS.arrayIncludes audioStyle (format a)).
        -- destruct Hp as [f ->]. discriminate Hab.
        -- subst p. auto.
  - destruct (Hsome (or_intror (or_intror Hen))) as [p Hplan].
    assert (Hne : command s <> Idle) by congruence.
    cbn [dispatch]. prog_cbn. rewrite Hplan. cbn [listener stateOf].
    split; [|discriminate].
    split; prog_cbn; try rewrite update_files;
      [ intros Hi; rewrite (He Hi) in Hplan; discriminate Hplan
      | congruence | (intros p0 Hp0; apply Hp; congruence) | (intros _; destruct (Hc Hne) as (H1 & H2 & q & Hq & Hqa & Hqm); split; [exact H1|]; split; [exact H2|]; exists q; split; [congruence|auto]) | (intros Hact p0 Hp0; apply Hv; congruence) ].
  - destruct (Hsome (or_intror (or_intror Hen))) as [p Hplan].
    assert (Hne : command s <> Idle) by congruence.
    cbn [dispatch]. prog_cbn. rewrite Hplan. cbn [listener stateOf].
    split; [|discriminate].
    unfold onConvertEnd. destruct (bool_decide (finalFilepath p ∈ _));
      (split; prog_cbn;
        [ intros Hi; rewrite (He Hi) in Hplan; discriminate Hplan
        | congruence | (intros p0 Hp0; apply Hp; congruence) | (intros _; destruct (Hc Hne) as (H1 & H2 & q & Hq & Hqa & Hqm); split; [exact H1|]; split; [exact H2|]; exists q; split; [congruence|auto]) | discriminate ]).
  - destruct (Hsome (or_intror (or_intror Hen))) as [p Hplan].
    assert (Hne : command s <> Idle) by congruence.
    cbn [dispatch]. prog_cbn. rewrite Hplan. cbn [listener stateOf].
    split; [|discriminate].
    split; prog_cbn;
      [ intros Hi; rewrite (He Hi) in Hplan; discriminate Hplan
      | congruence | (intros p0 Hp0; apply Hp; congruence) | (intros _; destruct (Hc Hne) as (H1 & H2 & q & Hq & Hqa & Hqm); split; [exact H1|]; split; [exact H2|]; exists q; split; [congruence|auto]) | discriminate ].
Qed.

Lemma prog_run_shape (a : Args) (trace : list (Z * Event)) (s : State)
    (o : Outcome State) :
  ProgShape a s -> run a s trace = Some o ->
  ProgShape a (stateOf o)
  /\ forall s', o = Crashed s' ->
       JS.arrayIncludes audioStyle (format a) = false
       /\ writeStream s' = Errored /\ plan s' = Some (videoPlan a).
Proof.
  revert s. induction trace as [|[now e] trace IH]; intros s Hsh Hrun.
  - injection Hrun as <-. split; [exact Hsh|discriminate].
  - cbn [run] in Hrun.
    destruct (step now a s e) as [o1|] eqn:Hstep; [|discriminate].
    destruct (prog_step_shape _ _ _ _ _ Hsh Hstep) as [Hsh1 Hcr].
    destruct o1 as [s1|s1].
    + apply (IH s1 Hsh1 Hrun).
    + injection Hrun as <-. split; [exact Hsh1|exact Hcr].
Qed.

(** X16: a run of [startDownload] ends in an uncaught error only in the
    video branch and only through an error of the destination file; for an
    audio-style target format no sequence of events does. *)
Theorem X16_single_stream_crash_cause (a : Args) (w : World)
    (trace : list (Z * Event)) (s : State) :
  run a (initial w) trace = Some (Crashed s) ->
  JS.arrayIncludes audioStyle (format a) = false
  /\ writeStream s = Errored /\ plan s = Some (videoPlan a).
Proof.
  intros Hrun.
  destruct (prog_run_shape a trace _ _ (prog_initial_shape a w) Hrun) as [_ Hcr].
  apply Hcr. reflexivity.
Qed.

Lemma X16_single_stream_crash_witness :
  JS.arrayIncludes audioStyle (format Samples.videoArgs) = false.
Proof.
  destruct (Progressive.run Samples.videoArgs (initial Samples.world0) Samples.writeFails)
    as [[s|s]|] eqn:Hrun; [vm_compute in Hrun; discriminate Hrun | | vm_compute in Hrun; discriminate Hrun].
  exact (proj1 (X16_single_stream_crash_cause Samples.videoArgs Samples.world0
                  Samples.writeFails s Hrun)).
Defined.

Lemma plan_of_active (a : Args) (s : State) :
  ProgShape a s ->
  stream s = Active \/ writeStream s = Active \/ command s = Active ->
  exists p, plan s = Some p.
Proof.
  intros [_ Hn _ _ _] Hact. destruct (plan s) as [p|] eqn:Hplan; [eauto|].
  destruct (Hn eq_refl) as (H1 & H2 & H3). destruct Hact as [|[|]]; congruence.
Qed.

Lemma mp3_plan (a : Args) (s : State) (p : Plan) :
  format a = "mp3" -> ProgShape a s -> plan s = Some p ->
  audioBranch p = true /\ isMP3Conversion p = true.
Proof.
  intros Hfmt [_ _ Hp _ _] Hplan. specialize (Hp p Hplan). rewrite Hfmt in Hp.
  change (JS.arrayIncludes audioStyle "mp3") with true in Hp. cbv iota in Hp.
  destruct Hp as [f ->]. unfold audioPlan. cbn [audioBranch isMP3Conversion].
  rewrite Hfmt. split; reflexivity.
Qed.

(** X19: for an mp3 request the three phases write disjoint ranges of
    progress: the fetch reports 0..70, the end of the fetch writes 75 and
    starts the conversion, and the conversion reports 75..100. *)
Theorem X19_mp3_progress_phases (a : Args) (w : World) (trace : list (Z * Event))
    (s s' : State) (now : Z) (e : Event) (job' : Download) :
  format a = "mp3" ->
  run a (initial w) trace = Some (Continue s) ->
  wellFormed e ->
  step now a s e = Some (Continue s') ->
  store (world s') !! downloadId a = Some job' ->
  match e with
  | StreamProgress _ _ => exists q, progress job' = Some q /\ 0 <= q <= 70
  | WriteFinish => progress job' = Some 75 /\ command s' = Active
  | FfmpegProgress _ => exists q, progress job' = Some q /\ 75 <= q <= 100
  | _ => True
  end.
Proof.
  intros Hfmt Hrun Hwf Hstep Hj.
  destruct (prog_run_shape a trace _ _ (prog_initial_shape a w) Hrun) as [Hsh _].
  cbn [stateOf] in Hsh.
  unfold step in Hstep. destruct (enabled s e) eqn:Hen; [|discriminate].
  injection Hstep as Hd.
  destruct e; try exact I; cbn [enabled] in Hen;
    try apply andb_true_iff in Hen as [Hen Hen'];
    apply bool_decide_eq_true in Hen.
  - destruct (plan_of_active a s Hsh (or_introl Hen)) as [p Hplan].
    destruct (mp3_plan a s p Hfmt Hsh Hplan) as [Hab Hmp3].
    cbn [dispatch advance] in Hd. rewrite Hplan in Hd. cbn [listener] in Hd.
    injection Hd as <-. unfold onStreamProgress in Hj. rewrite Hmp3 in Hj.
    cbn [world] in Hj.
    apply job_after_update with (w := world s) in Hj as (job & _ & _ & Hpr);
      [|reflexivity].
    fields_cbn in Hpr. destruct Hwf as [Hd Ht].
    destruct (progress_bounds downloaded total 70 Hd Ht ltac:(lia)) as (q & Hq & Hb).
    rewrite Hq in Hpr. exists q. split; [exact Hpr|exact Hb].
  - destruct (plan_of_active a s Hsh (or_intror (or_introl Hen))) as [p Hplan].
    destruct (mp3_plan a s p Hfmt Hsh Hplan) as [Hab Hmp3].
    cbn [dispatch advance plan] in Hd. rewrite Hplan in Hd. cbn [listener] in Hd.
    rewrite Hab in Hd. injection Hd as <-.
    unfold onAudioFinish in Hj |- *. rewrite Hmp3 in Hj |- *.
    cbn [world command createFile store] in Hj |- *. split; [|reflexivity].
    apply job_after_update with (w := world s) in Hj as (job & _ & _ & Hpr);
      [|reflexivity].
    fields_cbn in Hpr. exact Hpr.
  - destruct (plan_of_active a s Hsh (or_intror (or_intror Hen))) as [p Hplan].
    cbn [dispatch advance] in Hd. rewrite Hplan in Hd. cbn [listener] in Hd.
    injection Hd as <-. unfold onConvertProgress in Hj. cbn [world withWorld] in Hj.
    apply job_after_update with (w := world s) in Hj as (job & _ & _ & Hpr);
      [|reflexivity].
    fields_cbn in Hpr.
    destruct (convert_bounds percent) as (q & Hq & Hb); [intros q ->; exact Hwf|].
    rewrite Hq in Hpr. exists q. split; [exact Hpr|exact Hb].
Qed.

Lemma X19_mp3_progress_phases_witness :
  exists job',
    store (world (Samples.progressiveAfter Samples.mp3Args
                    [(1001, Call); (1002, InfoResolved Samples.catalogue);
                     (1003, StreamProgress 100 100); (1004, StreamEnd);
                     (1005, WriteFinish); (1006, FfmpegProgress (Some (40 # 1)))]))
      !! "job-1" = Some job'
    /\ exists q, progress job' = Some q /\ 75 <= q <= 100.
Proof.
  destruct (store (world (Samples.progressiveAfter Samples.mp3Args
                    [(1001, Call); (1002, InfoResolved Samples.catalogue);
                     (1003, StreamProgress 100 100); (1004, StreamEnd);
                     (1005, WriteFinish); (1006, FfmpegProgress (Some (40 # 1)))]))
              !! "job-1") as [job'|] eqn:Hj; [|vm_compute in Hj; discriminate Hj].
  exists job'. split; [reflexivity|].
  apply (X19_mp3_progress_phases Samples.mp3Args Samples.world0
           [(1001, Call); (1002, InfoResolved Samples.catalogue);
            (1003, StreamProgress 100 100); (1004, StreamEnd); (1005, WriteFinish)]
           (Samples.progressiveAfter Samples.mp3Args
              [(1001, Call); (1002, InfoResolved Samples.catalogue);
               (1003, StreamProgress 100 100); (1004, StreamEnd); (1005, WriteFinish)])
           (Samples.progressiveAfter Samples.mp3Args
              [(1001, Call); (1002, InfoResolved Samples.catalogue);
               (1003, StreamProgress 100 100); (1004, StreamEnd);
               (1005, WriteFinish); (1006, FfmpegProgress (Some (40 # 1)))])
           1006 (FfmpegProgress (Some (40 # 1))) job').
  - reflexivity.
  - vm_compute. reflexivity.
  - cbn. unfold Qle. cbn. lia.
  - vm_compute. reflexivity.
  - exact Hj.
Defined.

(** X20: the video branch looks the stream up by its exact id among the
    streams that carry video and has no fallback: a stream is chosen exactly
    when one matches, the fetch then writes to the file named after the
    requested format; otherwise the job is marked failed with progress 0 and
    no file and no stream is created. *)
Theorem X20_video_stream_exact_or_fail (now : Z) (a : Args)
    (formats : list videoFormat) (s : State) :
  JS.arrayIncludes audioStyle (format a) = false ->
  let wanted f := JS.toString (Ytdl.itag f) = itag a /\ hasVideo f = true in
  let s' := onInfo now a formats s in
  ((exists g, In g formats /\ wanted g) ->
     exists f, selectVideoFormat formats (itag a) = Some f /\ In f formats /\ wanted f
               /\ plan s' = Some (videoPlan a)
               /\ stream s' = Active /\ writeStream s' = Active
               /\ files (world s')
                  = {[JS.pathJoin (downloadsDir (cwd a))
                        (downloadId a +:+ "." +:+ format a)]} ∪ files (world s)
               /\ store (world s') = store (world s))
  /\ ((forall g, In g formats -> ~ wanted g) ->
      selectVideoFormat formats (itag a) = None
      /\ s' = catchAll now a s
      /\ files (world s') = files (world s)
      /\ forall job, store (world s) !! downloadId a = Some job ->
           exists job', store (world s') !! downloadId a = Some job'
                        /\ status job' = "failed" /\ progress job' = Some 0).
Proof.
  intros Hstyle wanted s'.
  assert (Hpred : forall f,
             (String.eqb (JS.toString (Ytdl.itag f)) (itag a) && hasVideo f = true)
             <-> wanted f).
  { intros f. unfold wanted. rewrite andb_true_iff, String.eqb_eq. reflexivity. }
  split.
  - intros (g & Hin & Hg).
    destruct (selectVideoFormat formats (itag a)) as [f|] eqn:E.
    + pose proof E as E'. apply find_some in E' as [Hinf Hf]. apply Hpred in Hf.
      exists f. split; [reflexivity|]. split; [exact Hinf|]. split; [exact Hf|].
      subst s'. unfold onInfo. rewrite Hstyle, E. prog_cbn.
      repeat split; reflexivity.
    + exfalso. apply Hpred in Hg.
      pose proof (find_none _ _ E g Hin) as Hnone. cbv beta in Hnone. congruence.
  - intros Hno.
    destruct (selectVideoFormat formats (itag a)) as [f|] eqn:E.
    + exfalso. apply find_some in E as [Hinf Hf]. apply Hpred in Hf.
      exact (Hno f Hinf Hf).
    + split; [reflexivity|].
      assert (Hs' : s' = catchAll now a s)
        by (subst s'; unfold onInfo; rewrite Hstyle, E; reflexivity).
      split; [exact Hs'|]. rewrite Hs'. prog_cbn. rewrite update_files.
      split; [reflexivity|].
      intros job Hj. eexists. split; [apply update_lookup, Hj|].
      split; reflexivity.
Qed.

Lemma X20_video_stream_witness :
  exists f, selectVideoFormat Samples.catalogue "22" = Some f
            /\ In f Samples.catalogue
            /\ JS.toString (Ytdl.itag f) = "22" /\ hasVideo f = true.
Proof.
  destruct (X20_video_stream_exact_or_fail 1002 Samples.videoArgs Samples.catalogue
              (initial Samples.world0) eq_refl) as [Hfound _].
  destruct Hfound as (f & Hsel & Hin & [Hid Hv] & _).
  - exists Samples.p22. split; [left; reflexivity|]. split; reflexivity.
  - exists f. auto.
Defined.




End ProgressiveFlowProperties.
